(** * FEC codec core: received-chunk tracker, decoder, encoder, ring buffer

    A shallow embedding of the received-chunk tracker defined in [fec.h], of
    the decoder and the encoder that [fec.h] declares, and of the ring buffer
    that [test/ringbuffer_tests.cpp] exercises, with the properties the
    specification states about them.  What the sources at hand only declare
    or use is modelled from the specification and marked as such. *)

From stdpp Require Import base list numbers.
From Stdlib Require Import NArith Lia Strings.Byte.

(** ** Constants of [fec.h] *)

Definition FEC_CHUNK_SIZE : nat := 1152.
Definition CM256_MAX_CHUNKS : nat := 27.
Definition FEC_CHUNK_COUNT_MAX : N := N.shiftl 1 24.

(* Chunk ids are [uint32_t] in the source.  They are compared, hashed and
   stored, and the only sum made of them stays below [FEC_CHUNK_COUNT_MAX],
   so they are modelled as [N] without wrap-around. *)

(** ** The open-addressed hash set *)

Module open_hash_set.

(** Outcome of one probe sequence. *)
Inductive probe_result :=
| Found (i : nat)
| Vacant (i : nat)
| Exhausted.

Section Traits.
(** The two functors the template is instantiated with. *)
Variable IsNull : N -> bool.
Variable Hasher : N -> N.

(** Modelled from the spec: [open_hash_set.h] is included by [fec.h] but
    absent; the set is an open-addressed table with linear probing whose
    empty slots hold a null element, which keeps its load factor at or
    below one half and grows by doubling. *)
Record t := Build { slots : list N; count : nat }.

Definition capacity (s : t) : nat := length (slots s).

(** Modelled from the spec: a new table of [cap] slots, all of them holding
    the value-initialised element, which is null. *)
Definition create (cap : nat) : t :=
  {| slots := replicate cap 0%N; count := 0 |}.

(** Slot visited at the [k]-th step of the probe sequence of [x]. *)
Definition slot_of (cap : nat) (x : N) (k : nat) : nat :=
  (N.to_nat (Hasher x mod N.of_nat cap) + k) mod cap.

(** Modelled from the spec: linear probing from the slot of the hash, until
    a null slot or the element is met. *)
Fixpoint probe (tbl : list N) (x : N) (fuel k : nat) : probe_result :=
  match fuel with
  | O => Exhausted
  | S fuel' =>
      let i := slot_of (length tbl) x k in
      match tbl !! i with
      | None => Exhausted
      | Some e =>
          if IsNull e then Vacant i
          else if N.eqb e x then Found i
          else probe tbl x fuel' (S k)
      end
  end.

(** Modelled from the spec: [find_fast] probes for the element. *)
Definition find_fast (s : t) (x : N) : bool :=
  match probe (slots s) x (capacity s) 0 with
  | Found _ => true
  | _ => false
  end.

(** Store [x] in the first vacant slot of its probe sequence. *)
Definition place (x : N) (s : t) : t * bool :=
  match probe (slots s) x (capacity s) 0 with
  | Vacant i => ({| slots := <[i:=x]> (slots s); count := S (count s) |}, true)
  | _ => (s, false)
  end.

(** Modelled from the spec: growth doubles the table and places the
    elements again; it is asked for when one more element would bring the
    load factor above one half. *)
Definition rehash_into (s : t) (old : list N) : t :=
  fold_left (fun acc e => if IsNull e then acc else fst (place e acc)) old s.

Definition grow (s : t) : t :=
  rehash_into (create (2 * capacity s)) (slots s).

Definition reserve (s : t) : t :=
  if 2 * S (count s) <=? capacity s then s else grow s.

(** Modelled from the spec: [insert] returns the table and whether the
    element was added ([.second] of the pair returned in the source). *)
Definition insert (s : t) (x : N) : t * bool :=
  if find_fast s x then (s, false) else place x (reserve s).

(** *** Representation invariant *)

Definition occupied (tbl : list N) : nat :=
  length (filter (fun e => IsNull e = false) tbl).

(** Slot [k] of the probe sequence of [x] holds another, non-null element. *)
Definition passes (tbl : list N) (x : N) (k : nat) : Prop :=
  exists e, tbl !! slot_of (length tbl) x k = Some e /\ IsNull e = false /\ e <> x.

Record wf (s : t) : Prop := {
  wf_cap : 0 < capacity s;
  wf_count : count s = occupied (slots s);
  wf_load : count s < capacity s;
  wf_chain : forall j e,
    slots s !! j = Some e -> IsNull e = false ->
    exists k, k < capacity s /\ slot_of (capacity s) e k = j /\
              forall k', k' < k -> passes (slots s) e k'
}.

Definition contains (s : t) (x : N) : Prop :=
  IsNull x = false /\ x ∈ slots s.

End Traits.

End open_hash_set.

(** ** The received-chunk tracker of [fec.h] *)

Definition ChunkIdHasher (elem : N) : N := elem.
Definition ChunkIdIsNull (elem : N) : bool := N.eqb elem 0.

Record BlockChunkRecvdTracker := {
  data_chunk_recvd_flags : list bool;
  fec_chunks_recvd : open_hash_set.t
}.

Definition chunk_set_find_fast : open_hash_set.t -> N -> bool :=
  open_hash_set.find_fast ChunkIdIsNull ChunkIdHasher.
Definition chunk_set_insert : open_hash_set.t -> N -> open_hash_set.t * bool :=
  open_hash_set.insert ChunkIdIsNull ChunkIdHasher.

Definition CheckPresentAndMarkRecvd (t : BlockChunkRecvdTracker) (chunk_id : N)
  : bool * BlockChunkRecvdTracker :=
  if (chunk_id <? N.of_nat (length (data_chunk_recvd_flags t)))%N then
    match data_chunk_recvd_flags t !! N.to_nat chunk_id with
    | Some true => (true, t)
    | _ =>
        (false,
         {| data_chunk_recvd_flags :=
              <[N.to_nat chunk_id := true]> (data_chunk_recvd_flags t);
            fec_chunks_recvd := fec_chunks_recvd t |})
    end
  else if chunk_set_find_fast (fec_chunks_recvd t) chunk_id then (true, t)
  else
    let '(s, inserted) := chunk_set_insert (fec_chunks_recvd t) chunk_id in
    (negb inserted,
     {| data_chunk_recvd_flags := data_chunk_recvd_flags t;
        fec_chunks_recvd := s |}).

Definition CheckPresent (t : BlockChunkRecvdTracker) (chunk_id : N) : bool :=
  if (chunk_id <? N.of_nat (length (data_chunk_recvd_flags t)))%N then
    match data_chunk_recvd_flags t !! N.to_nat chunk_id with
    | Some b => b
    | None => false
    end
  else chunk_set_find_fast (fec_chunks_recvd t) chunk_id.

(** Modelled from the spec: the body of the constructor
    [BlockChunkRecvdTracker(size_t data_chunks)] is absent; it makes a
    bit-vector of [data_chunks] cleared flags and an empty hash set.  The
    initial capacity of the hash set is not stated and is left as the
    parameter [cap0]. *)
Definition tracker_new (cap0 data_chunks : nat) : BlockChunkRecvdTracker :=
  {| data_chunk_recvd_flags := replicate data_chunks false;
     fec_chunks_recvd := open_hash_set.create cap0 |}.

(** Representation invariant of a tracker for [D] data chunks. *)
Record tracker_wf (D : nat) (t : BlockChunkRecvdTracker) : Prop := {
  twf_flags : length (data_chunk_recvd_flags t) = D;
  twf_set : open_hash_set.wf ChunkIdIsNull ChunkIdHasher (fec_chunks_recvd t)
}.

(** Calls made on a tracker, and the run of a sequence of calls with the
    value each one returned. *)
Inductive tracker_call :=
| Mark (chunk_id : N)
| Query (chunk_id : N).

Definition call_id (c : tracker_call) : N :=
  match c with Mark i => i | Query i => i end.

Definition tracker_step (t : BlockChunkRecvdTracker) (c : tracker_call)
  : bool * BlockChunkRecvdTracker :=
  match c with
  | Mark i => CheckPresentAndMarkRecvd t i
  | Query i => (CheckPresent t i, t)
  end.

Fixpoint tracker_run (t : BlockChunkRecvdTracker) (cs : list tracker_call)
  : list bool * BlockChunkRecvdTracker :=
  match cs with
  | [] => ([], t)
  | c :: cs' =>
      let '(r, t') := tracker_step t c in
      let '(rs, t'') := tracker_run t' cs' in
      (r :: rs, t'')
  end.

(** Ids passed to [CheckPresentAndMarkRecvd] by a sequence of calls. *)
Definition marked_ids (cs : list tracker_call) : list N :=
  flat_map (fun c => match c with Mark i => [i] | Query _ => [] end) cs.

(** State of the hash set after inserting the ids [xs] one after another. *)
Definition chunk_set_insert_all (s : open_hash_set.t) (xs : list N)
  : open_hash_set.t :=
  fold_left (fun acc x => (chunk_set_insert acc x).1) xs s.

(** ** The decoder declared in [fec.h] *)

Inductive MemoryUsageMode := USE_MEMORY | USE_MMAP.

(** [DIV_CEIL] of [bench/fec.cpp]. *)
Definition DIV_CEIL (a b : nat) : nat := (a + b - 1) / b.
Arguments DIV_CEIL : simpl never.

(** Modelled from the spec: the macro that selects the code is absent; the
    small code is used iff the object has at most [CM256_MAX_CHUNKS] data
    chunks, and the fountain code otherwise. *)
Inductive CodeMode := Small | Fountain.

Definition code_mode (data_chunks : nat) : CodeMode :=
  if data_chunks <=? CM256_MAX_CHUNKS then Small else Fountain.

(** The fields of [class FECDecoder] that take part in receiving chunks.
    [wirehair_decoder] holds what has been passed to the fountain decoder;
    [cm256_map] and [cm256_chunks] are the id and chunk storage of the small
    code. *)
Record FECDecoder := {
  chunk_count : nat;
  chunks_recvd : nat;
  obj_size : nat;
  decodeComplete : bool;
  chunk_tracker : BlockChunkRecvdTracker;
  wirehair_decoder : list (N * list byte);
  owns_file : bool;
  memory_usage_mode : MemoryUsageMode;
  cm256_map : list N;
  cm256_chunks : list (list byte)
}.

Definition GetChunkCount (d : FECDecoder) : nat := chunk_count d.
Definition GetChunksRcvd (d : FECDecoder) : nat := chunks_recvd d.

(** Modelled from the spec: the constructor body is absent; it derives the
    number of data chunks from the object size and starts with nothing
    received.  In mmap mode the decoder owns the backing file. *)
Definition FECDecoder_new (cap0 data_size : nat) (mode : MemoryUsageMode)
  : FECDecoder :=
  {| chunk_count := DIV_CEIL data_size FEC_CHUNK_SIZE;
     chunks_recvd := 0;
     obj_size := data_size;
     decodeComplete := false;
     chunk_tracker := tracker_new cap0 (DIV_CEIL data_size FEC_CHUNK_SIZE);
     wirehair_decoder := [];
     owns_file := match mode with USE_MMAP => true | USE_MEMORY => false end;
     memory_usage_mode := mode;
     cm256_map := [];
     cm256_chunks := [] |}.

(** Modelled from the spec: hard-invalid input of [ProvideChunk] is an id of
    [FEC_CHUNK_COUNT_MAX] or more, an id of 256 or more in small mode, or a
    byte length other than [FEC_CHUNK_SIZE]. *)
Definition chunk_input_valid (d : FECDecoder) (chunk : list byte) (chunk_id : N)
  : bool :=
  (chunk_id <? FEC_CHUNK_COUNT_MAX)%N
  && match code_mode (chunk_count d) with
     | Small => (chunk_id <? 256)%N
     | Fountain => true
     end
  && (length chunk =? FEC_CHUNK_SIZE).

Definition with_tracker (d : FECDecoder) (t : BlockChunkRecvdTracker)
  : FECDecoder :=
  {| chunk_count := chunk_count d; chunks_recvd := chunks_recvd d;
     obj_size := obj_size d; decodeComplete := decodeComplete d;
     chunk_tracker := t; wirehair_decoder := wirehair_decoder d;
     owns_file := owns_file d; memory_usage_mode := memory_usage_mode d;
     cm256_map := cm256_map d; cm256_chunks := cm256_chunks d |}.

(** Store a new chunk according to the code in use and count it. *)
Definition store_chunk (d : FECDecoder) (chunk : list byte) (chunk_id : N)
  : FECDecoder :=
  match code_mode (chunk_count d) with
  | Small =>
      {| chunk_count := chunk_count d; chunks_recvd := S (chunks_recvd d);
         obj_size := obj_size d; decodeComplete := decodeComplete d;
         chunk_tracker := chunk_tracker d;
         wirehair_decoder := wirehair_decoder d;
         owns_file := owns_file d; memory_usage_mode := memory_usage_mode d;
         cm256_map := cm256_map d ++ [chunk_id];
         cm256_chunks := cm256_chunks d ++ [chunk] |}
  | Fountain =>
      {| chunk_count := chunk_count d; chunks_recvd := S (chunks_recvd d);
         obj_size := obj_size d; decodeComplete := decodeComplete d;
         chunk_tracker := chunk_tracker d;
         wirehair_decoder := wirehair_decoder d ++ [(chunk_id, chunk)];
         owns_file := owns_file d; memory_usage_mode := memory_usage_mode d;
         cm256_map := cm256_map d; cm256_chunks := cm256_chunks d |}
  end.

(** Modelled from the spec: the body of [FECDecoder::ProvideChunk] is
    absent.  Invalid input is refused with the state unchanged; then the
    tracker is asked, and a duplicate is accepted with nothing else done;
    otherwise the chunk is stored by mode and [chunks_recvd] is incremented.
    The cheap readiness check that ends the sequence reads the counters and
    changes nothing: the solve is left to [DecodeReady]. *)
Definition ProvideChunk (d : FECDecoder) (chunk : list byte) (chunk_id : N)
  : bool * FECDecoder :=
  if negb (chunk_input_valid d chunk chunk_id) then (false, d)
  else
    let '(present, t) := CheckPresentAndMarkRecvd (chunk_tracker d) chunk_id in
    if present then (true, with_tracker d t)
    else (true, store_chunk (with_tracker d t) chunk chunk_id).

(** Modelled from the spec: [HasChunk] is the tracker query. *)
Definition HasChunk (d : FECDecoder) (chunk_id : N) : bool :=
  CheckPresent (chunk_tracker d) chunk_id.

Definition set_decodeComplete (d : FECDecoder) : FECDecoder :=
  {| chunk_count := chunk_count d; chunks_recvd := chunks_recvd d;
     obj_size := obj_size d; decodeComplete := true;
     chunk_tracker := chunk_tracker d; wirehair_decoder := wirehair_decoder d;
     owns_file := owns_file d; memory_usage_mode := memory_usage_mode d;
     cm256_map := cm256_map d; cm256_chunks := cm256_chunks d |}.

Section Solver.
(** Whether the fountain decoder can solve for [data_chunks] source chunks
    from the chunk ids it holds; the fountain code itself is an external
    library. *)
Variable fountain_solvable : nat -> list N -> bool.

(** Modelled from the spec: with the small code any [chunk_count]
    distinct chunks can be solved for; with the fountain code the
    accumulated system has to be solvable. *)
Definition system_solvable (d : FECDecoder) : bool :=
  match code_mode (chunk_count d) with
  | Small => true
  | Fountain => fountain_solvable (chunk_count d) (wirehair_decoder d).*1
  end.

(** Modelled from the spec: the body of [FECDecoder::DecodeReady] is
    absent.  It is lazy: a memoized success is returned at once; otherwise,
    once at least [chunk_count] chunks have been received, the solve is
    attempted and a success is memoized in the mutable [decodeComplete]; a
    failed attempt leaves the decoder collecting. *)
Definition DecodeReady (d : FECDecoder) : bool * FECDecoder :=
  if decodeComplete d then (true, d)
  else if (chunk_count d <=? chunks_recvd d) && system_solvable d
       then (true, set_decodeComplete d)
       else (false, d).

(** Calls on the public interface of a decoder and what they return. *)
Inductive decoder_call :=
| CallProvideChunk (chunk : list byte) (chunk_id : N)
| CallHasChunk (chunk_id : N)
| CallDecodeReady
| CallGetChunkCount
| CallGetChunksRcvd.

Inductive decoder_obs :=
| ObsBool (b : bool)
| ObsSize (n : nat).

Definition decoder_step (d : FECDecoder) (c : decoder_call)
  : decoder_obs * FECDecoder :=
  match c with
  | CallProvideChunk chunk chunk_id =>
      let '(r, d') := ProvideChunk d chunk chunk_id in (ObsBool r, d')
  | CallHasChunk chunk_id => (ObsBool (HasChunk d chunk_id), d)
  | CallDecodeReady => let '(r, d') := DecodeReady d in (ObsBool r, d')
  | CallGetChunkCount => (ObsSize (GetChunkCount d), d)
  | CallGetChunksRcvd => (ObsSize (GetChunksRcvd d), d)
  end.

Fixpoint decoder_run (d : FECDecoder) (cs : list decoder_call)
  : list decoder_obs * FECDecoder :=
  match cs with
  | [] => ([], d)
  | c :: cs' =>
      let '(o, d') := decoder_step d c in
      let '(os, d'') := decoder_run d' cs' in
      (o :: os, d'')
  end.
End Solver.

Arguments DecodeReady : simpl never.
Arguments ProvideChunk : simpl never.

(** Invariant of a decoder: it has at least one data chunk and its tracker
    is well formed for that many. *)
Record decoder_wf (d : FECDecoder) : Prop := {
  dwf_chunks : 1 <= chunk_count d;
  dwf_tracker : tracker_wf (chunk_count d) (chunk_tracker d)
}.


(** ** The encoder declared in [fec.h] *)

Section Encoder.
(** The encoding of the chunk with a given id for a source object: the
    small code or the fountain code, both external libraries. *)
Variable encode_chunk : list byte -> N -> list byte.
(** [FastRandomContext]: [randrange r n] draws a value below [n]. *)
Variable RandState : Type.
Variable randrange : RandState -> N -> N * RandState.
(** Bound on the random attempts made to find a fresh chunk id. *)
Variable id_attempts : nat.

(** [fec_chunks] is the borrowed output table: the chunks and their ids,
    an id of 0 meaning that the slot is unfilled. *)
Record FECEncoder := {
  data : list byte;
  fec_chunks : list (list byte) * list N;
  rand : RandState
}.

Definition encoder_data_chunks (enc : FECEncoder) : nat :=
  DIV_CEIL (length (data enc)) FEC_CHUNK_SIZE.

(** Ids that the decoder accepts for an object of [data_chunks] chunks. *)
Definition chunk_id_limit (data_chunks : nat) : N :=
  match code_mode data_chunks with
  | Small => 256
  | Fountain => FEC_CHUNK_COUNT_MAX
  end.

(** Modelled from the spec: a random id, offset by the data chunk count,
    that the table does not hold yet; [None] when every attempt met an id
    of the table. *)
Fixpoint pick_chunk_id (attempts : nat) (data_chunks : nat) (ids : list N)
  (r : RandState) : option N * RandState :=
  match attempts with
  | O => (None, r)
  | S attempts' =>
      let '(v, r') :=
        randrange r (chunk_id_limit data_chunks - N.of_nat data_chunks)%N in
      let chunk_id := (N.of_nat data_chunks + v)%N in
      if decide (chunk_id ∈ ids) then pick_chunk_id attempts' data_chunks ids r'
      else (Some chunk_id, r')
  end.

(** Modelled from the spec: the body of [FECEncoder::BuildChunk] is absent.
    A filled slot is refused unless [overwrite] is set.  Otherwise an id is
    chosen at random, the chunk is filled with its encoding and the id is
    stored; the call fails when no fresh id is found within the bound on
    attempts.  For the choice of the id the documentation of the
    declaration in [fec.h] is followed: the id is one that can be passed to
    [FECDecoder::ProvideChunk], offset by the data chunk count. *)
Definition BuildChunk (enc : FECEncoder) (vector_idx : nat) (overwrite : bool)
  : bool * FECEncoder :=
  match (fec_chunks enc).2 !! vector_idx with
  | None => (false, enc)
  | Some filled =>
      if negb (N.eqb filled 0) && negb overwrite then (false, enc)
      else
        match pick_chunk_id id_attempts (encoder_data_chunks enc)
                (fec_chunks enc).2 (rand enc) with
        | (None, r) =>
            (false, {| data := data enc; fec_chunks := fec_chunks enc; rand := r |})
        | (Some chunk_id, r) =>
            (true,
             {| data := data enc;
                fec_chunks :=
                  (<[vector_idx := encode_chunk (data enc) chunk_id]>
                     (fec_chunks enc).1,
                   <[vector_idx := chunk_id]> (fec_chunks enc).2);
                rand := r |})
        end
  end.

(** Modelled from the spec: a fresh encoder borrows the source and a table
    of [n] slots whose ids are all 0. *)
Definition FECEncoder_new (dataIn : list byte) (n : nat) (r : RandState)
  : FECEncoder :=
  {| data := dataIn;
     fec_chunks := (replicate n (replicate FEC_CHUNK_SIZE x00), replicate n 0%N);
     rand := r |}.
End Encoder.

Arguments data {RandState} _.
Arguments fec_chunks {RandState} _.
Arguments rand {RandState} _.
Arguments encoder_data_chunks {RandState} _.

(** A deterministic stand-in for [FastRandomContext], for examples: the
    state is a counter. *)
Definition counter_randrange (r n : N) : N * N := ((r mod n)%N, (r + 1)%N).


(** ** The ring buffer exercised by [test/ringbuffer_tests.cpp] *)

Module RingBuffer.

(** Depth of the queue unless stated otherwise. *)
Definition BUFF_DEPTH : nat := 64.

(** The counters of [RingBufferStats]; the two rates are floating-point
    averages over wall-clock windows and are left out. *)
Record RingBufferStats := {
  rd_bytes : nat;
  rd_count : nat
}.

Section Elem.
Variable T : Type.

(** Modelled from the spec: [ringbuffer.h] is absent.  A bounded queue for
    one producer and one consumer: the slots, the read and write indices and
    the occupancy; whether a read transaction is open; the fill function of
    a [WriteElement] call that is blocked on a full buffer, if there is one;
    and the statistics. *)
Record t := {
  buffer : list T;
  rd_idx : nat;
  wr_idx : nat;
  occupancy : nat;
  read_pending : bool;
  blocked_write : option (T -> T);
  stats_enabled : bool;
  stats : RingBufferStats
}.

Definition create (dflt : T) (depth : nat) : t :=
  {| buffer := replicate depth dflt; rd_idx := 0; wr_idx := 0; occupancy := 0;
     read_pending := false; blocked_write := None; stats_enabled := false;
     stats := {| rd_bytes := 0; rd_count := 0 |} |}.

Definition depth (rb : t) : nat := length (buffer rb).

Definition IsEmpty (rb : t) : bool := occupancy rb =? 0.
Definition IsFull (rb : t) : bool := occupancy rb =? depth rb.
Definition GetStats (rb : t) : RingBufferStats := stats rb.

Definition EnableStats (rb : t) : t :=
  {| buffer := buffer rb; rd_idx := rd_idx rb; wr_idx := wr_idx rb;
     occupancy := occupancy rb; read_pending := read_pending rb;
     blocked_write := blocked_write rb; stats_enabled := true;
     stats := stats rb |}.

Definition set_blocked_write (rb : t) (w : option (T -> T)) : t :=
  {| buffer := buffer rb; rd_idx := rd_idx rb; wr_idx := wr_idx rb;
     occupancy := occupancy rb; read_pending := read_pending rb;
     blocked_write := w; stats_enabled := stats_enabled rb;
     stats := stats rb |}.

Definition set_read_pending (rb : t) (b : bool) : t :=
  {| buffer := buffer rb; rd_idx := rd_idx rb; wr_idx := wr_idx rb;
     occupancy := occupancy rb; read_pending := b;
     blocked_write := blocked_write rb; stats_enabled := stats_enabled rb;
     stats := stats rb |}.

(** Modelled from the spec: a write reserves the next slot, lets the caller
    fill it in place and commits. *)
Definition commit_write (rb : t) (fill_fn : T -> T) : t :=
  {| buffer := alter fill_fn (wr_idx rb) (buffer rb);
     rd_idx := rd_idx rb;
     wr_idx := S (wr_idx rb) mod depth rb;
     occupancy := S (occupancy rb);
     read_pending := read_pending rb; blocked_write := None;
     stats_enabled := stats_enabled rb; stats := stats rb |}.

(** Modelled from the spec: [WriteElement] returns [Some true] when the
    element was written, and [None] when the buffer is full and the call
    stays blocked, to be completed by a confirmed read or given up by
    [AbortWrite]. *)
Definition WriteElement (rb : t) (fill_fn : T -> T) : option bool * t :=
  if IsFull rb then (None, set_blocked_write rb (Some fill_fn))
  else (Some true, commit_write rb fill_fn).

(** Modelled from the spec: [AbortWrite] makes a blocked [WriteElement]
    return [false]; the result is what that call returns, if one was
    blocked. *)
Definition AbortWrite (rb : t) : option bool * t :=
  match blocked_write rb with
  | Some _ => (Some false, set_blocked_write rb None)
  | None => (None, rb)
  end.

(** Modelled from the spec: [GetNextRead] gives the element at the read
    index; a read transaction is open until it is confirmed or aborted. *)
Definition GetNextRead (rb : t) : option T * t :=
  if IsEmpty rb then (None, rb)
  else (buffer rb !! rd_idx rb, set_read_pending rb true).

(** Modelled from the spec: [AbortRead] leaves the read index where it
    was. *)
Definition AbortRead (rb : t) : t := set_read_pending rb false.

Definition count_read (rb : t) (bytes : nat) : RingBufferStats :=
  if stats_enabled rb
  then {| rd_bytes := rd_bytes (stats rb) + bytes;
          rd_count := S (rd_count (stats rb)) |}
  else stats rb.

(** Modelled from the spec: [ConfirmRead] advances the read index and
    updates the statistics; a [WriteElement] that was blocked then completes
    and returns [true]. *)
Definition ConfirmRead (rb : t) (bytes : nat) : option bool * t :=
  if IsEmpty rb then (None, rb)
  else
    let rb' :=
      {| buffer := buffer rb;
         rd_idx := S (rd_idx rb) mod depth rb;
         wr_idx := wr_idx rb;
         occupancy := pred (occupancy rb);
         read_pending := false; blocked_write := blocked_write rb;
         stats_enabled := stats_enabled rb; stats := count_read rb bytes |} in
    match blocked_write rb with
    | Some fill_fn => (Some true, commit_write rb' fill_fn)
    | None => (None, rb')
    end.

(** Calls made by the producer and the consumer, interleaved. *)
Inductive call :=
| CallWriteElement (fill_fn : T -> T)
| CallAbortWrite
| CallGetNextRead
| CallConfirmRead (bytes : nat)
| CallAbortRead
| CallEnableStats.

(** The producer makes no call while its [WriteElement] is blocked. *)
Definition step (rb : t) (c : call) : t :=
  match c with
  | CallWriteElement fill_fn =>
      match blocked_write rb with
      | Some _ => rb
      | None => (WriteElement rb fill_fn).2
      end
  | CallAbortWrite => (AbortWrite rb).2
  | CallGetNextRead => (GetNextRead rb).2
  | CallConfirmRead bytes => (ConfirmRead rb bytes).2
  | CallAbortRead => AbortRead rb
  | CallEnableStats => EnableStats rb
  end.

Definition run (rb : t) (cs : list call) : t := fold_left step cs rb.

(** Consumer calls that look at the next element without taking it. *)
Definition is_peek (c : call) : bool :=
  match c with
  | CallGetNextRead | CallAbortRead => true
  | _ => false
  end.

(** The [n] elements read from index [i] on, wrapping around. *)
Fixpoint read_from (buf : list T) (i n : nat) : list T :=
  match n with
  | O => []
  | S n' =>
      match buf !! i with
      | Some x => x :: read_from buf (S i mod length buf) n'
      | None => []
      end
  end.

(** The committed elements, oldest first. *)
Definition contents (rb : t) : list T :=
  read_from (buffer rb) (rd_idx rb) (occupancy rb).

(** Invariant: the indices are in range, the write index is the read index
    advanced by the occupancy, and a writer is blocked only on a full
    buffer. *)
Record wf (rb : t) : Prop := {
  wf_depth : 0 < depth rb;
  wf_rd : rd_idx rb < depth rb;
  wf_wr : wr_idx rb = (rd_idx rb + occupancy rb) mod depth rb;
  wf_occupancy : occupancy rb <= depth rb;
  wf_blocked : blocked_write rb <> None -> occupancy rb = depth rb
}.

End Elem.

Arguments buffer {T} _.
Arguments rd_idx {T} _.
Arguments wr_idx {T} _.
Arguments occupancy {T} _.
Arguments read_pending {T} _.
Arguments blocked_write {T} _.
Arguments stats_enabled {T} _.
Arguments stats {T} _.
Arguments create {T} _ _.
Arguments depth {T} _.
Arguments IsEmpty {T} _.
Arguments IsFull {T} _.
Arguments GetStats {T} _.
Arguments EnableStats {T} _.
Arguments commit_write {T} _ _.
Arguments WriteElement {T} _ _.
Arguments AbortWrite {T} _.
Arguments GetNextRead {T} _.
Arguments AbortRead {T} _.
Arguments ConfirmRead {T} _ _.
Arguments CallWriteElement {T} _.
Arguments CallAbortWrite {T}.
Arguments CallGetNextRead {T}.
Arguments CallConfirmRead {T} _.
Arguments CallAbortRead {T}.
Arguments CallEnableStats {T}.
Arguments step {T} _ _.
Arguments run {T} _ _.
Arguments is_peek {T} _.
Arguments wf {T} _.
Arguments read_from {T} _ _ _.
Arguments contents {T} _.

(** The buffer of the tests, [RingBuffer<int>], and their producer that
    writes [BUFF_DEPTH + 1] elements. *)
Definition fresh : t nat := create 0 BUFF_DEPTH.

Definition overfill : t nat :=
  run fresh (map (fun v => CallWriteElement (fun _ => v)) (seq 0 (S BUFF_DEPTH))).

End RingBuffer.

(** ** Further code of the sources *)

(** The ids that a run of [CheckPresentAndMarkRecvd] calls reported as not
    yet present, in the order of the calls. *)
Definition reported_absent (ids : list N) (results : list bool) : list N :=
  (filter (fun p => p.2 = false) (zip ids results)).*1.

(** *** [bench/fec.cpp]: sizes and chunks *)

(** [DIV_CEIL] as the machine computes it, on [size_t] values of
    [size_bits] bits: the sum and the difference wrap around.  The division
    is defined for a divisor other than zero. *)
Definition size_wrap (size_bits : Z) (x : Z) : Z := x mod 2 ^ size_bits.

Definition DIV_CEIL_size_t (size_bits : Z) (a b : Z) : Z :=
  size_wrap size_bits (size_wrap size_bits (a + b) - 1) / b.

(** The chunk that [Send] builds for index [i] of the serialized header:
    the vector made from the iterator range
    [[begin + i * FEC_CHUNK_SIZE, begin + min (header_size, (i + 1) * FEC_CHUNK_SIZE))],
    resized to [FEC_CHUNK_SIZE] with zero bytes.  A range whose start lies
    after its end has no defined result. *)
Definition Send_header_chunk (header_data : list byte) (i : nat)
  : option (list byte) :=
  let header_size := length header_data in
  let first := i * FEC_CHUNK_SIZE in
  let endit := Nat.min header_size ((i + 1) * FEC_CHUNK_SIZE) in
  if decide (first <= endit)
  then Some (resize FEC_CHUNK_SIZE x00
               (take (endit - first) (drop first header_data)))
  else None.

(** The first loop of [Send]: for each data chunk index a draw of the
    generator decides whether the chunk is handed to
    [Receiver::RecvHeaderChunk]; [g i] is the draw made at iteration [i].
    The result lists the calls made, chunk and index. *)
Definition Send_header_data_chunks (g : nat -> N) (header_data : list byte)
  : option (list (list byte * nat)) :=
  foldr
    (fun i rest =>
       match Send_header_chunk header_data i with
       | None => None
       | Some chunk =>
           if N.eqb (N.land (g i) 3) 0 then rest
           else (fun calls => (chunk, i) :: calls) <$> rest
       end)
    (Some [])
    (seq 0 (DIV_CEIL (length header_data) FEC_CHUNK_SIZE)).

(** [memcpy(&dst[off], src, n)]: defined when the [n] bytes lie inside both
    buffers. *)
Definition memcpy_at (dst : list byte) (off : nat) (src : list byte) (n : nat)
  : option (list byte) :=
  if decide (off + n <= length dst /\ n <= length src)
  then Some (take off dst ++ take n src ++ drop (off + n) dst)
  else None.

(** The reassembly of the header in [Receiver::RecvHeaderChunk]: a buffer of
    [header_chunk_count * FEC_CHUNK_SIZE] bytes into which the chunk that
    [GetDataPtr(i)] points to is copied at [i * FEC_CHUNK_SIZE], for every
    [i] below [header_chunk_count]. *)
Definition Receiver_header_data (GetDataPtr : nat -> list byte)
  (header_chunk_count : nat) : option (list byte) :=
  fold_left
    (fun acc i =>
       match acc with
       | None => None
       | Some header_data =>
           memcpy_at header_data (i * FEC_CHUNK_SIZE) (GetDataPtr i)
             FEC_CHUNK_SIZE
       end)
    (seq 0 header_chunk_count)
    (Some (replicate (header_chunk_count * FEC_CHUNK_SIZE) x00)).

(** Whether the [FEC_CHUNK_SIZE] bytes of the chunk at index [i] lie inside
    an object of [size] bytes, as for [&data[i * FEC_CHUNK_SIZE]]. *)
Definition chunk_inside (size i : nat) : Prop :=
  i * FEC_CHUNK_SIZE + FEC_CHUNK_SIZE <= size.

(** *** [bench/fec.cpp]: the receiver *)

Module Receiver.

(** A [size_t] index passed where a [uint32_t] chunk id is expected. *)
Definition uint32_of_size_t (idx : nat) : N := (N.of_nat idx mod 2 ^ 32)%N.

Section Collaborators.
(** [PartiallyDownloadedChunkBlock], the reading of the header from the
    stream and the decoder's [GetDataPtr] are not part of the sources: the
    receiver is embedded over the operations that it calls on them.
    [WriteChunk pb i bytes] is the partial block after the [FEC_CHUNK_SIZE]
    bytes [bytes] were copied to the buffer that [GetChunk(i)] points to.
    [InitData] stands for the reading of the header and the call of
    [InitData], [FinalizeBlock] for the call of [FinalizeBlock] and the
    checks of the block that follow it; both give [None] when an assertion
    fails. *)
Variable PartialBlock : Type.
Variable IsChunkAvailable : PartialBlock -> nat -> bool.
Variable GetChunk : PartialBlock -> nat -> list byte.
Variable WriteChunk : PartialBlock -> nat -> list byte -> PartialBlock.
Variable MarkChunkAvailable : PartialBlock -> nat -> PartialBlock.
Variable InitData : PartialBlock -> list byte -> option PartialBlock.
Variable FinalizeBlock : PartialBlock -> option PartialBlock.
(** [GetDataPtr] is not [const]: it gives the bytes it points to and the
    decoder after the call. *)
Variable GetDataPtr : FECDecoder -> N -> list byte * FECDecoder.
Variable fountain_solvable : nat -> list N -> bool.
(** Initial capacity of the hash set of a decoder's tracker. *)
Variable cap0 : nat.
(** Width of [size_t]: the three counters wrap around. *)
Variable size_bits : Z.

Record t := {
  decoder : FECDecoder;
  partialBlock : PartialBlock;
  header_done : bool;
  block_done : bool;
  expecting_full_block : bool;
  header_chunk_count : nat;
  block_size : nat;
  total_chunks_consumed : Z;
  total_chunks_in_mempool : Z;
  non_fec_chunks : Z
}.

Definition InitHeader (r : t) (header_size : nat) : t :=
  let count := DIV_CEIL header_size FEC_CHUNK_SIZE in
  {| decoder := FECDecoder_new cap0 header_size USE_MEMORY;
     partialBlock := partialBlock r;
     header_done := header_done r; block_done := block_done r;
     expecting_full_block := expecting_full_block r;
     header_chunk_count := count;
     block_size := block_size r;
     total_chunks_consumed := total_chunks_consumed r;
     total_chunks_in_mempool := total_chunks_in_mempool r;
     non_fec_chunks := size_wrap size_bits (non_fec_chunks r + Z.of_nat count) |}.

(** The decoder, the partial block, the two flags and the count of consumed
    chunks after a call that received a chunk. *)
Definition received (r : t) (d : FECDecoder) (pb : PartialBlock)
  (hdone bdone : bool) : t :=
  {| decoder := d; partialBlock := pb;
     header_done := hdone; block_done := bdone;
     expecting_full_block := expecting_full_block r;
     header_chunk_count := header_chunk_count r;
     block_size := block_size r;
     total_chunks_consumed := size_wrap size_bits (total_chunks_consumed r + 1);
     total_chunks_in_mempool := total_chunks_in_mempool r;
     non_fec_chunks := non_fec_chunks r |}.

(** [decoder->GetDataPtr(i)] for each [i] of [ids] in turn. *)
Fixpoint GetDataPtr_each (d : FECDecoder) (ids : list nat)
  : list (list byte) * FECDecoder :=
  match ids with
  | [] => ([], d)
  | i :: ids' =>
      let '(bytes, d1) := GetDataPtr d (uint32_of_size_t i) in
      let '(rest, d2) := GetDataPtr_each d1 ids' in
      (bytes :: rest, d2)
  end.

(** [None]: an assertion fails or a copy reads outside its source. *)
Definition RecvHeaderChunk (r : t) (chunk : list byte) (idx : nat) : option t :=
  if header_done r then Some r
  else
    let '(ok, d1) := ProvideChunk (decoder r) chunk (uint32_of_size_t idx) in
    if negb ok then None
    else
      let '(ready, d2) := DecodeReady fountain_solvable d1 in
      if ready then
        let '(chunks, d3) := GetDataPtr_each d2 (seq 0 (header_chunk_count r)) in
        match Receiver_header_data (fun i => default [] (chunks !! i))
                (header_chunk_count r) with
        | None => None
        | Some header_data =>
            match InitData (partialBlock r) header_data with
            | None => None
            | Some pb => Some (received r d3 pb true (block_done r))
            end
        end
      else Some (received r d2 (partialBlock r) false (block_done r)).

(** [memcpy(partialBlock.GetChunk(idx), src, FEC_CHUNK_SIZE)]. *)
Definition memcpy_chunk (pb : PartialBlock) (idx : nat) (src : list byte)
  : option PartialBlock :=
  if decide (FEC_CHUNK_SIZE <= length src)
  then Some (WriteChunk pb idx (take FEC_CHUNK_SIZE src))
  else None.

(** The first step of [RecvBlockChunk]: a data chunk that the partial block
    misses is copied into it. *)
Definition store_block_chunk (data_chunks : nat) (pb : PartialBlock)
  (chunk : list byte) (idx : nat) : option PartialBlock :=
  if (idx <? data_chunks) && negb (IsChunkAvailable pb idx)
  then (fun pb' => MarkChunkAvailable pb' idx) <$> memcpy_chunk pb idx chunk
  else Some pb.

(** The loop of [RecvBlockChunk] that runs once the decoder is ready. *)
Definition fill_block_chunk (acc : option (PartialBlock * FECDecoder)) (i : nat)
  : option (PartialBlock * FECDecoder) :=
  match acc with
  | None => None
  | Some (pb, d) =>
      if IsChunkAvailable pb i then Some (pb, d)
      else
        let '(bytes, d') := GetDataPtr d (uint32_of_size_t i) in
        (fun pb' => (MarkChunkAvailable pb' i, d')) <$> memcpy_chunk pb i bytes
  end.

Definition fill_block_chunks (data_chunks : nat) (pb : PartialBlock)
  (d : FECDecoder) : option (PartialBlock * FECDecoder) :=
  fold_left fill_block_chunk (seq 0 data_chunks) (Some (pb, d)).

Definition RecvBlockChunk (r : t) (chunk : list byte) (idx : nat)
  : option (bool * t) :=
  if block_done r then Some (true, r)
  else
    let data_chunks := DIV_CEIL (block_size r) FEC_CHUNK_SIZE in
    match store_block_chunk data_chunks (partialBlock r) chunk idx with
    | None => None
    | Some pb1 =>
        let '(ok, d1) := ProvideChunk (decoder r) chunk (uint32_of_size_t idx) in
        if negb ok then None
        else
          let '(ready, d2) := DecodeReady fountain_solvable d1 in
          if ready then
            match fill_block_chunks data_chunks pb1 d2 with
            | None => None
            | Some (pb2, d3) =>
                match FinalizeBlock pb2 with
                | None => None
                | Some pb3 => Some (true, received r d3 pb3 (header_done r) true)
                end
            end
          else Some (false, received r d2 pb1 (header_done r) false)
    end.

(** What the receiver relies on in the partial block: marking a chunk
    available and writing a chunk act on that chunk only, the first on its
    flag and the second on its bytes. *)
Record partial_block_laws : Prop := {
  available_mark : forall pb i j,
    IsChunkAvailable (MarkChunkAvailable pb i) j
    = (j =? i) || IsChunkAvailable pb j;
  available_write : forall pb i bytes j,
    IsChunkAvailable (WriteChunk pb i bytes) j = IsChunkAvailable pb j;
  chunk_write : forall pb i bytes j,
    GetChunk (WriteChunk pb i bytes) j
    = if j =? i then bytes else GetChunk pb j;
  chunk_mark : forall pb i j,
    GetChunk (MarkChunkAvailable pb i) j = GetChunk pb j
}.

(** What the receiver relies on in [GetDataPtr]: it points to a whole
    chunk, and a call does not change what later calls point to. *)
Record GetDataPtr_laws : Prop := {
  data_whole : forall d id, FEC_CHUNK_SIZE <= length (GetDataPtr d id).1;
  data_stable : forall d id id',
    (GetDataPtr (GetDataPtr d id).2 id').1 = (GetDataPtr d id').1
}.

(** A run of [RecvBlockChunk] calls, with what they returned. *)
Fixpoint RecvBlockChunk_run (r : t) (calls : list (list byte * nat))
  : option (list bool * t) :=
  match calls with
  | [] => Some ([], r)
  | (chunk, idx) :: calls' =>
      match RecvBlockChunk r chunk idx with
      | None => None
      | Some (b, r1) =>
          match RecvBlockChunk_run r1 calls' with
          | None => None
          | Some (bs, r2) => Some (b :: bs, r2)
          end
      end
  end.

(** A run of [RecvHeaderChunk] calls. *)
Fixpoint RecvHeaderChunk_run (r : t) (calls : list (list byte * nat))
  : option t :=
  match calls with
  | [] => Some r
  | (chunk, idx) :: calls' =>
      match RecvHeaderChunk r chunk idx with
      | None => None
      | Some r1 => RecvHeaderChunk_run r1 calls'
      end
  end.

End Collaborators.

Arguments decoder {PartialBlock} _.
Arguments partialBlock {PartialBlock} _.
Arguments header_done {PartialBlock} _.
Arguments block_done {PartialBlock} _.
Arguments expecting_full_block {PartialBlock} _.
Arguments header_chunk_count {PartialBlock} _.
Arguments block_size {PartialBlock} _.
Arguments total_chunks_consumed {PartialBlock} _.
Arguments total_chunks_in_mempool {PartialBlock} _.
Arguments non_fec_chunks {PartialBlock} _.

(** A partial block for examples: the chunk buffers and the availability
    flags as functions of the index. *)
Definition table : Type := (nat -> list byte) * (nat -> bool).
Definition table_available (pb : table) (i : nat) : bool := pb.2 i.
Definition table_chunk (pb : table) (i : nat) : list byte := pb.1 i.
Definition table_write (pb : table) (i : nat) (bytes : list byte) : table :=
  (fun j => if j =? i then bytes else pb.1 j, pb.2).
Definition table_mark (pb : table) (i : nat) : table :=
  (pb.1, fun j => (j =? i) || pb.2 j).
Definition table_empty : table :=
  (fun _ => replicate FEC_CHUNK_SIZE x00, fun _ => false).

End Receiver.

(** *** The consumer of [test/ringbuffer_tests.cpp] *)

(** [n] times [GetNextRead] followed by [ConfirmRead(bytes)], with the
    elements read. *)
Fixpoint drain {T : Type} (rb : RingBuffer.t T) (n bytes : nat)
  : list (option T) * RingBuffer.t T :=
  match n with
  | O => ([], rb)
  | S n' =>
      let '(elem, rb1) := RingBuffer.GetNextRead rb in
      let rb2 := (RingBuffer.ConfirmRead rb1 bytes).2 in
      let '(elems, rb3) := drain rb2 n' bytes in
      (elem :: elems, rb3)
  end.

(** *** Runs of the encoder and of the decoder *)

(** The ids of the chunks that the calls of [ProvideChunk] among [cs] passed
    with valid input to a decoder with the chunk count of [d]. *)
Definition provided_ids (d : FECDecoder) (cs : list decoder_call) : list N :=
  omap (fun c =>
          match c with
          | CallProvideChunk chunk chunk_id =>
              if chunk_input_valid d chunk chunk_id then Some chunk_id else None
          | _ => None
          end) cs.

(** [assert(encoder.BuildChunk(i))] for each [i] of [idxs] in turn, as in
    the loops of [Send]: [None] when an assertion fails. *)
Fixpoint BuildChunk_each {RandState : Type}
  (encode_chunk : list byte -> N -> list byte)
  (randrange : RandState -> N -> N * RandState) (id_attempts : nat)
  (enc : FECEncoder RandState) (idxs : list nat)
  : option (FECEncoder RandState) :=
  match idxs with
  | [] => Some enc
  | i :: idxs' =>
      let '(ok, enc') :=
        BuildChunk encode_chunk RandState randrange id_attempts enc i false in
      if ok then BuildChunk_each encode_chunk randrange id_attempts enc' idxs'
      else None
  end.

(** * Properties *)

(** ** Indices that wrap around *)

Lemma mod_add_wrap n h k :
  h < n -> k <= n ->
  (h + k) mod n = if decide (h + k < n) then h + k else h + k - n.
Proof.
  intros Hh Hk. case_decide as Hlt.
  - apply Nat.mod_small. exact Hlt.
  - destruct (decide (h + k = n + n)) as [Heq|Hne]; [lia|].
    symmetry. apply (Nat.mod_unique _ _ 1); lia.
Qed.

Lemma mod_succ_wrap n a :
  a < n -> S a mod n = if decide (S a < n) then S a else 0.
Proof.
  intros Ha. rewrite <- Nat.add_1_r, mod_add_wrap by lia.
  repeat case_decide; lia.
Qed.

(** ** The hash set is a set of non-null elements *)

Module open_hash_set_facts.
Import open_hash_set.

Section Traits.
Variable IsNull : N -> bool.
Variable Hasher : N -> N.
Hypothesis null_default : IsNull 0%N = true.

Local Abbreviation slot_of := (slot_of Hasher).
Local Abbreviation probe := (probe IsNull Hasher).
Local Abbreviation find_fast := (find_fast IsNull Hasher).
Local Abbreviation place := (place IsNull Hasher).
Local Abbreviation insert := (insert IsNull Hasher).
Local Abbreviation grow := (grow IsNull Hasher).
Local Abbreviation reserve := (reserve IsNull Hasher).
Local Abbreviation rehash_into := (rehash_into IsNull Hasher).
Local Abbreviation occupied := (occupied IsNull).
Local Abbreviation passes := (passes IsNull Hasher).
Local Abbreviation wf := (wf IsNull Hasher).
Local Abbreviation contains := (contains IsNull).

Lemma slot_of_unfold cap x k :
  0 < cap -> k < cap ->
  let h := N.to_nat (Hasher x mod N.of_nat cap) in
  h < cap /\ slot_of cap x k = if decide (h + k < cap) then h + k else h + k - cap.
Proof.
  intros Hcap Hk h.
  assert (Hh : h < cap).
  { subst h. pose proof (N.mod_upper_bound (Hasher x) (N.of_nat cap)). lia. }
  split; [exact Hh|]. unfold slot_of. fold h.
  destruct (decide (h + k < cap)) as [Hlt|Hge].
  - apply Nat.mod_small. exact Hlt.
  - symmetry. apply (Nat.mod_unique _ _ 1); lia.
Qed.

Lemma slot_of_lt cap x k : 0 < cap -> slot_of cap x k < cap.
Proof. intros. unfold slot_of. apply Nat.mod_upper_bound. lia. Qed.

Lemma slot_of_inj cap x k1 k2 :
  k1 < cap -> k2 < cap -> slot_of cap x k1 = slot_of cap x k2 -> k1 = k2.
Proof.
  intros H1 H2.
  destruct (slot_of_unfold cap x k1) as [Hh ->]; [lia|lia|].
  destruct (slot_of_unfold cap x k2) as [_ ->]; [lia|lia|].
  repeat case_decide; lia.
Qed.

Lemma slot_of_surj cap x j :
  j < cap -> exists k, k < cap /\ slot_of cap x k = j.
Proof.
  intros Hj.
  set (h := N.to_nat (Hasher x mod N.of_nat cap)).
  assert (Hh : h < cap).
  { subst h. pose proof (N.mod_upper_bound (Hasher x) (N.of_nat cap)). lia. }
  exists (if decide (h <= j) then j - h else j + cap - h).
  case_decide.
  - split; [lia|]. destruct (slot_of_unfold cap x (j - h)) as [_ ->]; [lia|lia|].
    fold h. case_decide; lia.
  - split; [lia|]. destruct (slot_of_unfold cap x (j + cap - h)) as [_ ->]; [lia|lia|].
    fold h. case_decide; lia.
Qed.

Lemma probe_spec tbl x fuel k :
  0 < length tbl ->
  match probe tbl x fuel k with
  | Found i =>
      exists k1, k <= k1 < k + fuel /\ i = slot_of (length tbl) x k1 /\
                 tbl !! i = Some x /\ IsNull x = false /\
                 forall k', k <= k' < k1 -> passes tbl x k'
  | Vacant i =>
      exists k1 e, k <= k1 < k + fuel /\ i = slot_of (length tbl) x k1 /\
                   tbl !! i = Some e /\ IsNull e = true /\
                   forall k', k <= k' < k1 -> passes tbl x k'
  | Exhausted => forall k', k <= k' < k + fuel -> passes tbl x k'
  end.
Proof.
  intros Hlen. revert k. induction fuel as [|fuel IH]; intros k; simpl.
  - intros k' ?. lia.
  - destruct (tbl !! slot_of (length tbl) x k) as [e|] eqn:He.
    2: { apply lookup_ge_None in He.
         pose proof (slot_of_lt (length tbl) x k Hlen). lia. }
    destruct (IsNull e) eqn:Hn.
    { exists k, e. repeat split; auto; try (intros; lia). }
    destruct (N.eqb_spec e x) as [->|Hne].
    { exists k. repeat split; auto; try (intros; lia). }
    assert (Hk : passes tbl x k) by (exists e; auto).
    specialize (IH (S k)).
    destruct (probe tbl x fuel (S k)) as [i|i|].
    + destruct IH as (k1 & ? & ? & ? & ? & Hp). exists k1.
      repeat split; auto; try lia.
      intros k' ?. destruct (decide (k' = k)) as [->|]; [exact Hk|apply Hp; lia].
    + destruct IH as (k1 & e' & ? & ? & ? & ? & Hp). exists k1, e'.
      repeat split; auto; try lia.
      intros k' ?. destruct (decide (k' = k)) as [->|]; [exact Hk|apply Hp; lia].
    + intros k' ?. destruct (decide (k' = k)) as [->|]; [exact Hk|apply IH; lia].
Qed.

Lemma occupied_cons e tbl :
  occupied (e :: tbl) = (if IsNull e then 0 else 1) + occupied tbl.
Proof.
  unfold occupied. rewrite filter_cons.
  destruct (IsNull e); case_decide; simpl; congruence.
Qed.

Lemma occupied_le tbl : occupied tbl <= length tbl.
Proof.
  induction tbl as [|e tbl IH]; [unfold occupied; simpl; lia|].
  rewrite occupied_cons. simpl. destruct (IsNull e); lia.
Qed.

Lemma occupied_replicate n : occupied (replicate n 0%N) = 0.
Proof.
  induction n as [|n IH]; [reflexivity|].
  simpl. rewrite occupied_cons, null_default, IH. reflexivity.
Qed.

Lemma occupied_lt_vacant tbl :
  occupied tbl < length tbl ->
  exists j e, tbl !! j = Some e /\ IsNull e = true.
Proof.
  induction tbl as [|e tbl IH]; simpl; [lia|].
  rewrite occupied_cons. intros Hlt.
  destruct (IsNull e) eqn:Hn.
  - exists 0, e. auto.
  - destruct IH as (j & e' & ? & ?); [lia|]. exists (S j), e'. auto.
Qed.

Lemma occupied_insert tbl i e x :
  tbl !! i = Some e -> IsNull e = true -> IsNull x = false ->
  occupied (<[i:=x]> tbl) = S (occupied tbl).
Proof.
  revert i. induction tbl as [|a tbl IH]; intros i Hi He Hx; [discriminate|].
  destruct i as [|i]; simpl in *.
  - injection Hi as ->. rewrite !occupied_cons, He, Hx. reflexivity.
  - rewrite !occupied_cons, (IH i); auto.
Qed.

Lemma probe_stored s x j :
  wf s -> slots s !! j = Some x -> IsNull x = false ->
  probe (slots s) x (capacity s) 0 = Found j.
Proof.
  intros [Hcap _ _ Hchain] Hj Hx.
  destruct (Hchain j x Hj Hx) as (k & Hk & Hslot & Hpass).
  pose proof (probe_spec (slots s) x (capacity s) 0 Hcap) as Hp.
  unfold capacity in *.
  destruct (probe (slots s) x (length (slots s)) 0) as [i|i|].
  - destruct Hp as (k1 & Hk1 & -> & Hi & _ & Hp1). f_equal.
    destruct (lt_eq_lt_dec k1 k) as [[Hlt| ->]|Hgt]; [|exact Hslot|].
    + destruct (Hpass k1 Hlt) as (e & He & _ & Hne). congruence.
    + destruct (Hp1 k) as (e & He & _ & Hne); [lia|]. congruence.
  - destruct Hp as (k1 & e & Hk1 & -> & Hi & Hnull & Hp1). exfalso.
    destruct (lt_eq_lt_dec k1 k) as [[Hlt| ->]|Hgt].
    + destruct (Hpass k1 Hlt) as (e' & He' & ? & _). congruence.
    + congruence.
    + destruct (Hp1 k) as (e' & He' & _ & Hne); [lia|]. congruence.
  - destruct (Hp k) as (e & He & _ & Hne); [lia|]. congruence.
Qed.

Lemma find_fast_contains s x :
  wf s -> find_fast s x = true <-> contains s x.
Proof.
  intros Hwf. unfold find_fast, contains. split.
  - pose proof (probe_spec (slots s) x (capacity s) 0 (wf_cap _ _ _ Hwf)) as Hp.
    destruct (probe (slots s) x (capacity s) 0) as [i|i|]; try discriminate.
    destruct Hp as (k1 & _ & _ & Hi & Hx & _). intros _. split; [exact Hx|].
    apply list_elem_of_lookup. eauto.
  - intros [Hx Hin]. apply list_elem_of_lookup in Hin as [j Hj].
    rewrite (probe_stored s x j); auto.
Qed.

Lemma find_fast_null s x : wf s -> IsNull x = true -> find_fast s x = false.
Proof.
  intros Hwf Hx. destruct (find_fast s x) eqn:Hf; [|reflexivity].
  apply find_fast_contains in Hf as [? _]; congruence.
Qed.

Lemma wf_create cap : 0 < cap -> wf (create cap).
Proof.
  intros Hcap. unfold create. split; unfold capacity; simpl.
  - rewrite length_replicate. exact Hcap.
  - rewrite occupied_replicate. reflexivity.
  - rewrite length_replicate. exact Hcap.
  - intros j e Hj He. apply lookup_replicate in Hj as [-> _]. congruence.
Qed.

Lemma contains_create cap x : ~ contains (create cap) x.
Proof.
  intros [Hx Hin]. simpl in Hin. apply elem_of_replicate in Hin as [-> _].
  congruence.
Qed.

Lemma passes_insert tbl i e x y k :
  tbl !! i = Some e -> IsNull e = true ->
  passes tbl y k -> passes (<[i:=x]> tbl) y k.
Proof.
  intros Hi He (e' & He' & Hn & Hne). exists e'.
  rewrite length_insert. split; [|auto].
  rewrite list_lookup_insert_ne; [exact He'|]. intros ->. congruence.
Qed.

Lemma probe_not_exhausted s x :
  wf s -> probe (slots s) x (capacity s) 0 <> Exhausted.
Proof.
  intros [Hcap Hcount Hload Hchain] Hex.
  pose proof (probe_spec (slots s) x (capacity s) 0 Hcap) as Hp.
  rewrite Hex in Hp.
  destruct (occupied_lt_vacant (slots s)) as (j & e & Hj & He).
  { unfold capacity in Hload. lia. }
  destruct (slot_of_surj (capacity s) x j) as (k & Hk & Hslot).
  { apply lookup_lt_Some in Hj. exact Hj. }
  destruct (Hp k) as (e' & He' & Hn & _); [lia|].
  unfold capacity in Hslot. congruence.
Qed.

Lemma place_spec s x :
  wf s -> IsNull x = false -> S (count s) < capacity s ->
  wf (place x s).1 /\
  (place x s).2 = negb (find_fast s x) /\
  capacity (place x s).1 = capacity s /\
  count (place x s).1 <= S (count s) /\
  (forall y, contains (place x s).1 y <-> y = x \/ contains s y).
Proof.
  intros Hwf Hx Hroom.
  pose proof (probe_not_exhausted s x Hwf) as Hne.
  pose proof (probe_spec (slots s) x (capacity s) 0 (wf_cap _ _ _ Hwf)) as Hp.
  unfold place, find_fast.
  destruct (probe (slots s) x (capacity s) 0) as [i|i|]; [| |congruence]; simpl.
  - destruct Hp as (_ & _ & _ & Hi & _ & _).
    split; [exact Hwf|]. do 2 (split; [reflexivity|]). split; [lia|].
    intros y. split; [intros Hy; right; exact Hy|].
    intros [->|Hy]; [|exact Hy]. split; [exact Hx|].
    apply list_elem_of_lookup. eauto.
  - destruct Hp as (k1 & e & Hk1 & -> & Hi & He & Hp1).
    destruct Hwf as [Hcap Hcount Hload Hchain].
    set (i := slot_of (length (slots s)) x k1) in *.
    assert (Hlen : capacity {| slots := <[i:=x]> (slots s); count := S (count s) |}
                   = capacity s).
    { unfold capacity; simpl. apply length_insert. }
    split; [split; rewrite ?Hlen; simpl; try lia|].
    + rewrite (occupied_insert _ _ e); auto.
    + intros j e0 Hj He0.
      destruct (decide (j = i)) as [->|Hji].
      * rewrite list_lookup_insert_eq in Hj by (eapply lookup_lt_Some; eauto).
        injection Hj as <-. exists k1. split; [lia|]. split; [reflexivity|].
        intros k' Hk'. eapply passes_insert; eauto. apply Hp1. lia.
      * rewrite list_lookup_insert_ne in Hj by auto.
        destruct (Hchain j e0 Hj He0) as (k & Hk & Hslot & Hpass).
        exists k. repeat split; auto.
        intros k' Hk'. eapply passes_insert; eauto.
    + split; [reflexivity|]. split; [exact Hlen|]. split; [simpl; lia|].
      intros y. split.
      * intros [Hy Hin]. simpl in Hin. apply list_elem_of_lookup in Hin as [j Hj].
        destruct (decide (j = i)) as [->|Hji].
        -- rewrite list_lookup_insert_eq in Hj by (eapply lookup_lt_Some; eauto).
           left. congruence.
        -- rewrite list_lookup_insert_ne in Hj by auto.
           right. split; [exact Hy|]. apply list_elem_of_lookup. eauto.
      * intros [->|[Hy Hin]].
        -- split; [exact Hx|]. apply list_elem_of_lookup. exists i.
           apply list_lookup_insert_eq. eapply lookup_lt_Some; eauto.
        -- split; [exact Hy|]. apply list_elem_of_lookup in Hin as [j Hj].
           apply list_elem_of_lookup. exists j. simpl.
           rewrite list_lookup_insert_ne; [exact Hj|]. intros Heq. subst j. congruence.
Qed.

Lemma rehash_into_spec old : forall acc,
  wf acc -> count acc + occupied old < capacity acc ->
  wf (rehash_into acc old) /\
  capacity (rehash_into acc old) = capacity acc /\
  count (rehash_into acc old) <= count acc + occupied old /\
  (forall y, contains (rehash_into acc old) y <->
             contains acc y \/ (IsNull y = false /\ y ∈ old)).
Proof.
  induction old as [|e old IH]; intros acc Hwf Hroom; simpl.
  - split; [exact Hwf|]. split; [reflexivity|]. split; [lia|].
    intros y. split; [auto|]. intros [Hy|[_ Hin]]; [exact Hy|].
    inversion Hin.
  - rewrite occupied_cons in Hroom |- *. destruct (IsNull e) eqn:He.
    + destruct (IH acc Hwf) as (Hwf' & Hcap & Hcnt & Hmem); [simpl in Hroom; lia|].
      split; [exact Hwf'|]. split; [exact Hcap|]. split; [simpl; lia|].
      intros y. rewrite Hmem, elem_of_cons. split; [tauto|].
      intros [Hy|[Hy [->|Hin]]]; [tauto|congruence|tauto].
    + destruct (place_spec acc e Hwf He) as (Hwf1 & _ & Hcap1 & Hcnt1 & Hmem1).
      { lia. }
      destruct (IH (place e acc).1 Hwf1) as (Hwf' & Hcap & Hcnt & Hmem).
      { rewrite Hcap1. lia. }
      split; [exact Hwf'|]. split; [congruence|]. split; [lia|].
      intros y. rewrite Hmem, Hmem1, elem_of_cons. split.
      * intros [[->|Hy]|[Hy Hin]]; auto.
      * intros [Hy|[Hy [->|Hin]]]; auto.
Qed.

Lemma grow_spec s :
  wf s ->
  wf (grow s) /\ capacity (grow s) = 2 * capacity s /\
  count (grow s) <= count s /\
  (forall y, contains (grow s) y <-> contains s y).
Proof.
  intros Hwf. pose proof Hwf as [Hcap Hcount Hload _].
  assert (Hnew : capacity (create (2 * capacity s)) = 2 * capacity s).
  { unfold capacity, create; simpl. apply length_replicate. }
  destruct (rehash_into_spec (slots s) (create (2 * capacity s)))
    as (Hwf' & Hcap' & Hcnt & Hmem).
  { apply wf_create. lia. }
  { rewrite Hnew. change (count (create (2 * capacity s))) with 0. lia. }
  unfold grow. split; [exact Hwf'|]. split; [congruence|].
  split; [change (count (create (2 * capacity s))) with 0 in Hcnt; lia|].
  intros y. rewrite Hmem. split.
  - intros [Hy|Hy]; [|exact Hy]. exfalso. exact (contains_create _ _ Hy).
  - intros Hy. right. exact Hy.
Qed.

Lemma reserve_spec s :
  wf s ->
  wf (reserve s) /\ S (count (reserve s)) < capacity (reserve s) /\
  (forall y, contains (reserve s) y <-> contains s y).
Proof.
  intros Hwf. pose proof Hwf as [Hcap Hcount Hload _]. unfold reserve.
  destruct (Nat.leb_spec (2 * S (count s)) (capacity s)) as [Hle|Hgt].
  - split; [exact Hwf|]. split; [lia|]. reflexivity.
  - destruct (grow_spec s Hwf) as (Hwf' & Hcap' & Hcnt & Hmem).
    split; [exact Hwf'|]. split; [lia|]. exact Hmem.
Qed.

Lemma insert_spec s x :
  wf s -> IsNull x = false ->
  wf (insert s x).1 /\
  (insert s x).2 = negb (find_fast s x) /\
  (forall y, contains (insert s x).1 y <-> y = x \/ contains s y).
Proof.
  intros Hwf Hx. unfold insert.
  destruct (find_fast s x) eqn:Hf; simpl.
  - apply find_fast_contains in Hf; [|exact Hwf].
    split; [exact Hwf|]. split; [reflexivity|].
    intros y. split; [auto|]. intros [->|Hy]; auto.
  - destruct (reserve_spec s Hwf) as (Hwf1 & Hroom & Hmem1).
    destruct (place_spec (reserve s) x Hwf1 Hx Hroom) as (Hwf2 & Hb & _ & _ & Hmem2).
    split; [exact Hwf2|]. split.
    + rewrite Hb. destruct (find_fast (reserve s) x) eqn:Hf1; [|reflexivity].
      apply find_fast_contains in Hf1; [|exact Hwf1].
      apply Hmem1, find_fast_contains in Hf1; [|exact Hwf]. congruence.
    + intros y. rewrite Hmem2, Hmem1. reflexivity.
Qed.

(** The three facts the tracker relies on. *)
Lemma find_fast_create cap x : 0 < cap -> find_fast (create cap) x = false.
Proof.
  intros Hcap. destruct (find_fast (create cap) x) eqn:Hf; [|reflexivity].
  apply find_fast_contains in Hf; [|apply wf_create; exact Hcap].
  exfalso. exact (contains_create _ _ Hf).
Qed.

Lemma find_fast_insert s x y :
  wf s -> IsNull x = false ->
  find_fast (insert s x).1 y = N.eqb y x || find_fast s y.
Proof.
  intros Hwf Hx.
  destruct (insert_spec s x Hwf Hx) as (Hwf' & _ & Hmem).
  apply eq_true_iff_eq. rewrite orb_true_iff, N.eqb_eq.
  rewrite !find_fast_contains by auto. apply Hmem.
Qed.

Lemma insert_fresh s x :
  wf s -> IsNull x = false -> find_fast s x = false -> (insert s x).2 = true.
Proof.
  intros Hwf Hx Hf. destruct (insert_spec s x Hwf Hx) as (_ & -> & _).
  rewrite Hf. reflexivity.
Qed.

(** The load factor stays at or below one half. *)
Lemma insert_load_factor s x :
  wf s -> IsNull x = false ->
  2 * count s <= capacity s ->
  2 * count (insert s x).1 <= capacity (insert s x).1.
Proof.
  intros Hwf Hx Hload. unfold insert.
  destruct (find_fast s x); [exact Hload|].
  destruct (reserve_spec s Hwf) as (Hwf1 & Hroom & _).
  destruct (place_spec (reserve s) x Hwf1 Hx Hroom) as (_ & _ & -> & Hcnt & _).
  unfold reserve in *.
  destruct (Nat.leb_spec (2 * S (count s)) (capacity s)) as [Hle|Hgt]; [lia|].
  destruct (grow_spec s Hwf) as (_ & Hcap & Hcnt' & _).
  pose proof (wf_load _ _ _ Hwf). lia.
Qed.

End Traits.
End open_hash_set_facts.

(** *** The set of chunk ids at work *)

Example chunk_set_grows_by_doubling :
  let s := chunk_set_insert_all (open_hash_set.create 1) [9; 4; 17; 33; 65]%N in
  open_hash_set.capacity s = 16 /\ open_hash_set.count s = 5 /\
  map (chunk_set_find_fast s) [9; 4; 17; 33; 65; 2; 1; 0]%N
  = [true; true; true; true; true; false; false; false].
Proof. vm_compute. repeat split. Qed.

(** Ids that collide on their first slot are found along the probe
    sequence. *)
Example chunk_set_probes_past_collisions :
  let s := chunk_set_insert_all (open_hash_set.create 8) [8; 16; 24]%N in
  open_hash_set.slots s = [8; 16; 24; 0; 0; 0; 0; 0]%N /\
  chunk_set_find_fast s 24 = true /\ chunk_set_find_fast s 32 = false.
Proof. vm_compute. repeat split. Qed.

(** ** The tracker *)

Module tracker_facts.

Lemma ChunkIdIsNull_zero : ChunkIdIsNull 0 = true.
Proof. reflexivity. Qed.

Lemma tracker_new_wf cap0 D : 0 < cap0 -> tracker_wf D (tracker_new cap0 D).
Proof.
  intros Hcap. split; simpl.
  - apply length_replicate.
  - apply open_hash_set_facts.wf_create; [exact ChunkIdIsNull_zero|exact Hcap].
Qed.

Lemma CheckPresent_new cap0 D y :
  0 < cap0 -> CheckPresent (tracker_new cap0 D) y = false.
Proof.
  intros Hcap. unfold CheckPresent, tracker_new; simpl.
  destruct (_ <? _)%N.
  - destruct (replicate D false !! N.to_nat y) as [b|] eqn:Hb; [|reflexivity].
    apply lookup_replicate in Hb as [-> _]. reflexivity.
  - apply open_hash_set_facts.find_fast_create; [exact ChunkIdIsNull_zero|exact Hcap].
Qed.

(** What one call of [CheckPresentAndMarkRecvd] does, in terms of the
    query [CheckPresent]. *)
Lemma CheckPresentAndMarkRecvd_spec D t id :
  1 <= D -> tracker_wf D t ->
  (CheckPresentAndMarkRecvd t id).1 = CheckPresent t id /\
  tracker_wf D (CheckPresentAndMarkRecvd t id).2 /\
  (forall y, CheckPresent (CheckPresentAndMarkRecvd t id).2 y
             = N.eqb y id || CheckPresent t y) /\
  fec_chunks_recvd (CheckPresentAndMarkRecvd t id).2 =
    (if (id <? N.of_nat D)%N then fec_chunks_recvd t
     else (chunk_set_insert (fec_chunks_recvd t) id).1).
Proof.
  intros HD [Hlen Hset]. unfold CheckPresentAndMarkRecvd, CheckPresent.
  rewrite Hlen. destruct (N.ltb_spec id (N.of_nat D)) as [Hlt|Hge].
  - destruct (data_chunk_recvd_flags t !! N.to_nat id) as [[|]|] eqn:Hb; simpl.
    + split; [reflexivity|]. split; [split; assumption|]. split; [|reflexivity].
      intros y. simpl. rewrite ?Hlen. destruct (N.eqb_spec y id) as [->|Hne]; [|reflexivity].
      simpl. destruct (N.ltb_spec id (N.of_nat D)); [|lia].
      rewrite Hb. reflexivity.
    + split; [reflexivity|]. split; [split; simpl; [rewrite length_insert|]; assumption|].
      split; [|reflexivity]. intros y. simpl. rewrite ?length_insert, ?Hlen.
      destruct (N.ltb_spec y (N.of_nat D)) as [Hy|Hy].
      * destruct (N.eqb_spec y id) as [->|Hne]; simpl.
        -- rewrite list_lookup_insert_eq by lia. reflexivity.
        -- rewrite list_lookup_insert_ne by lia. reflexivity.
      * destruct (N.eqb_spec y id) as [->|Hne]; [lia|reflexivity].
    + apply lookup_ge_None in Hb. lia.
  - assert (Hnn : ChunkIdIsNull id = false).
    { unfold ChunkIdIsNull. apply N.eqb_neq. lia. }
    unfold chunk_set_find_fast, chunk_set_insert.
    destruct (open_hash_set_facts.insert_spec ChunkIdIsNull ChunkIdHasher
                ChunkIdIsNull_zero (fec_chunks_recvd t) id Hset Hnn) as (Hwf' & Hsnd & _).
    pose proof (open_hash_set_facts.find_fast_insert ChunkIdIsNull ChunkIdHasher
                  ChunkIdIsNull_zero (fec_chunks_recvd t) id) as Hfind.
    destruct (open_hash_set.find_fast ChunkIdIsNull ChunkIdHasher
                (fec_chunks_recvd t) id) eqn:Hf.
    + simpl. split; [reflexivity|]. split; [split; assumption|]. split.
      * intros y. simpl. rewrite ?Hlen.
        destruct (N.eqb_spec y id) as [->|Hne]; [|reflexivity].
        destruct (N.ltb_spec id (N.of_nat D)); [lia|]. simpl. unfold chunk_set_find_fast. rewrite Hf. reflexivity.
      * unfold open_hash_set.insert. rewrite Hf. reflexivity.
    + destruct (open_hash_set.insert ChunkIdIsNull ChunkIdHasher
                  (fec_chunks_recvd t) id) as [s inserted] eqn:Hins.
      simpl in *. subst inserted. simpl.
      split; [reflexivity|]. split; [split; assumption|]. split; [|reflexivity].
      intros y. simpl. rewrite ?Hlen. destruct (N.ltb_spec y (N.of_nat D)) as [Hy|Hy].
      * destruct (N.eqb_spec y id) as [->|Hne]; [lia|reflexivity].
      * apply Hfind; assumption.
Qed.

(** A call that reports the id as present changes nothing. *)
Lemma CheckPresentAndMarkRecvd_present D t id :
  1 <= D -> tracker_wf D t ->
  (CheckPresentAndMarkRecvd t id).1 = true ->
  (CheckPresentAndMarkRecvd t id).2 = t.
Proof.
  intros HD [Hlen Hset]. unfold CheckPresentAndMarkRecvd.
  rewrite Hlen. destruct (N.ltb_spec id (N.of_nat D)) as [Hlt|Hge].
  - destruct (data_chunk_recvd_flags t !! N.to_nat id) as [[|]|]; simpl;
      [reflexivity|discriminate|discriminate].
  - unfold chunk_set_find_fast, chunk_set_insert.
    destruct (open_hash_set.find_fast ChunkIdIsNull ChunkIdHasher
                (fec_chunks_recvd t) id) eqn:Hf; [reflexivity|].
    assert (Hnn : ChunkIdIsNull id = false).
    { unfold ChunkIdIsNull. apply N.eqb_neq. lia. }
    pose proof (open_hash_set_facts.insert_fresh ChunkIdIsNull ChunkIdHasher
                  ChunkIdIsNull_zero (fec_chunks_recvd t) id Hset Hnn Hf) as Hins.
    destruct (open_hash_set.insert ChunkIdIsNull ChunkIdHasher
                (fec_chunks_recvd t) id) as [s inserted].
    simpl in *. subst inserted. discriminate.
Qed.

(** Marking the same id again reports it as present and changes nothing. *)
Lemma CheckPresentAndMarkRecvd_again D t id :
  1 <= D -> tracker_wf D t ->
  CheckPresentAndMarkRecvd (CheckPresentAndMarkRecvd t id).2 id
  = (true, (CheckPresentAndMarkRecvd t id).2).
Proof.
  intros HD Hwf.
  destruct (CheckPresentAndMarkRecvd_spec D t id HD Hwf) as (_ & Hwf' & Hq & _).
  destruct (CheckPresentAndMarkRecvd_spec D _ id HD Hwf') as (Hr & _).
  rewrite Hq, N.eqb_refl in Hr. simpl in Hr.
  pose proof (CheckPresentAndMarkRecvd_present D _ id HD Hwf' Hr) as Hsame.
  destruct (CheckPresentAndMarkRecvd (CheckPresentAndMarkRecvd t id).2 id).
  simpl in *. congruence.
Qed.

Lemma tracker_step_spec D t c :
  1 <= D -> tracker_wf D t ->
  (tracker_step t c).1 = CheckPresent t (call_id c) /\
  tracker_wf D (tracker_step t c).2 /\
  (forall y, CheckPresent (tracker_step t c).2 y = true <->
             CheckPresent t y = true \/ c = Mark y) /\
  fec_chunks_recvd (tracker_step t c).2 =
    chunk_set_insert_all (fec_chunks_recvd t)
      (filter (fun x => (N.of_nat D <= x)%N) (marked_ids [c])).
Proof.
  intros HD Hwf. destruct c as [id|id]; simpl.
  - destruct (CheckPresentAndMarkRecvd_spec D t id HD Hwf) as (Hr & Hwf' & Hq & Hset).
    split; [exact Hr|]. split; [exact Hwf'|]. split.
    + intros y. rewrite Hq, orb_true_iff, N.eqb_eq. split.
      * intros [->|Hy]; auto.
      * intros [Hy|[= ->]]; auto.
    + rewrite Hset. unfold chunk_set_insert_all.
      rewrite filter_cons, filter_nil.
      destruct (N.ltb_spec id (N.of_nat D)); case_decide; try lia; reflexivity.
  - split; [reflexivity|]. split; [exact Hwf|]. split; [|reflexivity].
    intros y. split; [auto|]. intros [Hy|[=]]. exact Hy.
Qed.

Lemma tracker_run_cons t c cs :
  tracker_run t (c :: cs) =
    ((tracker_step t c).1 :: (tracker_run (tracker_step t c).2 cs).1,
     (tracker_run (tracker_step t c).2 cs).2).
Proof.
  simpl. destruct (tracker_step t c) as [r t']. simpl.
  destruct (tracker_run t' cs) as [rs t'']. reflexivity.
Qed.

Lemma tracker_run_spec D cs : forall t,
  1 <= D -> tracker_wf D t ->
  tracker_wf D (tracker_run t cs).2 /\
  (forall y, CheckPresent (tracker_run t cs).2 y = true <->
             CheckPresent t y = true \/ Mark y ∈ cs) /\
  fec_chunks_recvd (tracker_run t cs).2 =
    chunk_set_insert_all (fec_chunks_recvd t)
      (filter (fun x => (N.of_nat D <= x)%N) (marked_ids cs)).
Proof.
  induction cs as [|c cs IH]; intros t HD Hwf.
  - simpl. split; [exact Hwf|]. split; [|reflexivity].
    intros y. split; [auto|]. intros [Hy|Hin]; [exact Hy|inversion Hin].
  - rewrite tracker_run_cons; simpl.
    destruct (tracker_step_spec D t c HD Hwf) as (_ & Hwf1 & Hq1 & Hset1).
    destruct (IH _ HD Hwf1) as (Hwf2 & Hq2 & Hset2).
    split; [exact Hwf2|]. split.
    + intros y. rewrite Hq2, Hq1, elem_of_cons. split.
      * intros [[Hy| ->]|Hin]; auto.
      * intros [Hy|[->|Hin]]; auto.
    + rewrite Hset2, Hset1. unfold chunk_set_insert_all.
      rewrite <- fold_left_app, <- list.filter_app.
      unfold marked_ids; simpl. rewrite app_nil_r. reflexivity.
Qed.

(** The value returned at each position of a run of
    [CheckPresentAndMarkRecvd] calls. *)
Lemma tracker_run_marks D ids : forall t n id,
  1 <= D -> tracker_wf D t ->
  ids !! n = Some id ->
  (tracker_run t (Mark <$> ids)).1 !! n = Some true <->
    CheckPresent t id = true \/
    exists m, m < n /\ ids !! m = Some id /\
              (tracker_run t (Mark <$> ids)).1 !! m = Some false.
Proof.
  induction ids as [|i0 ids IH]; intros t n id HD Hwf Hn; [discriminate|].
  rewrite fmap_cons, tracker_run_cons.
  destruct (tracker_step_spec D t (Mark i0) HD Hwf) as (Hr & Hwf1 & Hq1 & _).
  simpl in Hr. destruct n as [|n]; simpl in *.
  - injection Hn as ->. rewrite Hr. split.
    + intros [= ->]. auto.
    + intros [->|(m & Hm & _)]; [reflexivity|lia].
  - rewrite (IH _ n id HD Hwf1 Hn), Hq1. split.
    + intros [[Hy|[= ->]]|(m & Hm & Hidm & Hrm)].
      * auto.
      * destruct (CheckPresent t id) eqn:Hc; [auto|].
        right. exists 0. split; [lia|]. simpl. rewrite Hr. auto.
      * right. exists (S m). split; [lia|]. auto.
    + intros [Hy|(m & Hm & Hidm & Hrm)]; [auto|].
      destruct m as [|m]; simpl in *.
      * injection Hidm as ->. auto.
      * right. exists m. split; [lia|]. auto.
Qed.

Lemma tracker_run_length cs : forall t,
  length (tracker_run t cs).1 = length cs.
Proof.
  induction cs as [|c cs IH]; intros t; [reflexivity|].
  rewrite tracker_run_cons. simpl. rewrite IH. reflexivity.
Qed.

End tracker_facts.

(** Why the claims ask for at least one data chunk: with none, id 0 would
    reach the hash set, where it is the null element and is not remembered. *)
Example tracker_without_data_chunks_forgets_id_zero :
  (tracker_run (tracker_new 4 0) [Mark 0; Mark 0; Query 0]%N).1
  = [false; false; false].
Proof. vm_compute. reflexivity. Qed.

(** ** Claims about the tracker *)

(** C2 (tracker correctness).  On a tracker constructed for [D >= 1] data
    chunks, in any sequence of [CheckPresentAndMarkRecvd] calls every call
    returns a value, and the call at position [n] returns [true] exactly
    when an earlier call with the same id returned [false]. *)
Theorem CheckPresentAndMarkRecvd_true_iff_marked_before
  (cap0 D : nat) (ids : list N) (n : nat) (id : N) :
  0 < cap0 -> 1 <= D ->
  ids !! n = Some id ->
  let results := (tracker_run (tracker_new cap0 D) (Mark <$> ids)).1 in
  length results = length ids /\
  (results !! n = Some true <->
   exists m, m < n /\ ids !! m = Some id /\ results !! m = Some false).
Proof.
  intros Hcap HD Hn results. subst results. split.
  - rewrite tracker_facts.tracker_run_length. apply length_fmap.
  - pose proof (tracker_facts.tracker_new_wf cap0 D Hcap) as Hwf.
    rewrite (tracker_facts.tracker_run_marks D ids _ n id HD Hwf Hn).
    rewrite tracker_facts.CheckPresent_new by exact Hcap.
    split; [intros [?|?]; [discriminate|assumption]|auto].
Qed.

Lemma CheckPresentAndMarkRecvd_true_iff_marked_before_witness :
  let ids := [7; 3; 11; 7; 0; 0; 19; 3; 35; 7]%N in
  let results := (tracker_run (tracker_new 2 2) (Mark <$> ids)).1 in
  results = [false; false; false; true; false; true; false; true; false; true] /\
  (results !! 3 = Some true <->
   exists m, m < 3 /\ ids !! m = Some 7%N /\ results !! m = Some false).
Proof.
  split; [vm_compute; reflexivity|].
  apply (CheckPresentAndMarkRecvd_true_iff_marked_before
           2 2 [7; 3; 11; 7; 0; 0; 19; 3; 35; 7]%N 3 7%N);
    [lia|lia|reflexivity].
Defined.

(** C6 (id-0 sentinel).  On a tracker constructed for [D >= 1] data chunks,
    after any sequence of [CheckPresentAndMarkRecvd] and [CheckPresent]
    calls the bit-vector still has [D] flags, the hash set is exactly the
    result of inserting the marked ids that are at least [D], none of which
    is the null id 0, and a call with an id below [D] leaves the hash set
    as it is. *)
Theorem hash_set_never_receives_id_zero
  (cap0 D : nat) (cs : list tracker_call) :
  0 < cap0 -> 1 <= D ->
  let t := (tracker_run (tracker_new cap0 D) cs).2 in
  let inserted := filter (fun x => (N.of_nat D <= x)%N) (marked_ids cs) in
  length (data_chunk_recvd_flags t) = D /\
  fec_chunks_recvd t =
    chunk_set_insert_all (open_hash_set.create cap0) inserted /\
  Forall (fun x => ChunkIdIsNull x = false /\ (N.of_nat D <= x)%N) inserted /\
  (forall c, (call_id c < N.of_nat D)%N ->
             fec_chunks_recvd (tracker_step t c).2 = fec_chunks_recvd t).
Proof.
  intros Hcap HD t inserted.
  pose proof (tracker_facts.tracker_new_wf cap0 D Hcap) as Hwf0.
  destruct (tracker_facts.tracker_run_spec D cs _ HD Hwf0) as (Hwf & _ & Hset).
  fold t in Hwf, Hset. split; [apply Hwf|]. split; [exact Hset|]. split.
  - apply list.Forall_forall. intros x Hx. subst inserted.
    apply list_elem_of_filter in Hx as [Hx _].
    split; [|exact Hx]. unfold ChunkIdIsNull. apply N.eqb_neq. lia.
  - intros c Hc.
    destruct (tracker_facts.tracker_step_spec D t c HD Hwf) as (_ & _ & _ & ->).
    destruct c as [i|i]; simpl in *; [|reflexivity].
    rewrite filter_cons. case_decide; [lia|reflexivity].
Qed.

Lemma hash_set_never_receives_id_zero_witness :
  let cs := [Mark 0; Mark 9; Query 0; Mark 1; Mark 0; Mark 4; Query 9; Mark 9]%N in
  let t := (tracker_run (tracker_new 1 2) cs).2 in
  length (data_chunk_recvd_flags t) = 2 /\
  fec_chunks_recvd t =
    chunk_set_insert_all (open_hash_set.create 1) [9; 4; 9]%N /\
  Forall (fun x => ChunkIdIsNull x = false /\ (N.of_nat 2 <= x)%N) [9; 4; 9]%N /\
  (forall c, (call_id c < N.of_nat 2)%N ->
             fec_chunks_recvd (tracker_step t c).2 = fec_chunks_recvd t).
Proof.
  apply (hash_set_never_receives_id_zero 1 2
           [Mark 0; Mark 9; Query 0; Mark 1; Mark 0; Mark 4; Query 9; Mark 9]%N);
    lia.
Defined.

(** C10 (CheckPresent is a pure query).  On a tracker constructed for
    [D >= 1] data chunks and driven by any sequence of calls,
    [CheckPresent] leaves the tracker as it is and returns [true] exactly
    when an earlier [CheckPresentAndMarkRecvd] call was made with that
    id. *)
Theorem CheckPresent_pure_query
  (cap0 D : nat) (cs : list tracker_call) (id : N) :
  0 < cap0 -> 1 <= D ->
  let t := (tracker_run (tracker_new cap0 D) cs).2 in
  (tracker_step t (Query id)).2 = t /\
  (tracker_step t (Query id)).1 = CheckPresent t id /\
  (CheckPresent t id = true <-> Mark id ∈ cs).
Proof.
  intros Hcap HD t. split; [reflexivity|]. split; [reflexivity|].
  pose proof (tracker_facts.tracker_new_wf cap0 D Hcap) as Hwf0.
  destruct (tracker_facts.tracker_run_spec D cs _ HD Hwf0) as (_ & Hq & _).
  fold t in Hq. rewrite Hq, tracker_facts.CheckPresent_new by exact Hcap.
  split; [intros [?|?]; [discriminate|assumption]|auto].
Qed.

Lemma CheckPresent_pure_query_witness :
  let cs := [Mark 1; Query 70000; Mark 70000; Mark 5; Query 1]%N in
  let t := (tracker_run (tracker_new 4 3) cs).2 in
  CheckPresent t 70000 = true /\
  (tracker_step t (Query 70000)).2 = t /\
  (tracker_step t (Query 70000)).1 = CheckPresent t 70000 /\
  (CheckPresent t 70000 = true <-> Mark 70000%N ∈ cs).
Proof.
  split; [vm_compute; reflexivity|].
  apply (CheckPresent_pure_query 4 3
           [Mark 1; Query 70000; Mark 70000; Mark 5; Query 1]%N 70000%N); lia.
Defined.

(** ** The decoder *)

Module decoder_facts.

Lemma DIV_CEIL_pos a b : 0 < a -> 0 < b -> 1 <= DIV_CEIL a b.
Proof.
  intros Ha Hb. unfold DIV_CEIL.
  apply Nat.div_le_lower_bound; lia.
Qed.

Lemma FECDecoder_new_wf cap0 data_size mode :
  0 < cap0 -> 0 < data_size -> decoder_wf (FECDecoder_new cap0 data_size mode).
Proof.
  intros Hcap Hsize. split; simpl.
  - apply DIV_CEIL_pos; [exact Hsize|unfold FEC_CHUNK_SIZE; lia].
  - apply tracker_facts.tracker_new_wf. exact Hcap.
Qed.

Lemma with_tracker_same d : with_tracker d (chunk_tracker d) = d.
Proof. destruct d. reflexivity. Qed.

Lemma chunk_input_valid_ext d d' chunk id :
  chunk_count d' = chunk_count d ->
  chunk_input_valid d' chunk id = chunk_input_valid d chunk id.
Proof. intros H. unfold chunk_input_valid. rewrite H. reflexivity. Qed.

Lemma chunk_count_store_chunk d chunk id :
  chunk_count (store_chunk d chunk id) = chunk_count d.
Proof. unfold store_chunk. destruct (code_mode (chunk_count d)); reflexivity. Qed.

Lemma chunk_tracker_store_chunk d chunk id :
  chunk_tracker (store_chunk d chunk id) = chunk_tracker d.
Proof. unfold store_chunk. destruct (code_mode (chunk_count d)); reflexivity. Qed.

Lemma chunks_recvd_store_chunk d chunk id :
  chunks_recvd (store_chunk d chunk id) = S (chunks_recvd d).
Proof. unfold store_chunk. destruct (code_mode (chunk_count d)); reflexivity. Qed.


(** The result of [ProvideChunk] on valid input, by what the tracker says. *)
Lemma ProvideChunk_valid d chunk id :
  chunk_input_valid d chunk id = true ->
  ProvideChunk d chunk id =
    (true,
     let r := CheckPresentAndMarkRecvd (chunk_tracker d) id in
     if r.1 then with_tracker d r.2
     else store_chunk (with_tracker d r.2) chunk id).
Proof.
  intros Hv. unfold ProvideChunk. rewrite Hv. simpl.
  destruct (CheckPresentAndMarkRecvd (chunk_tracker d) id) as [[|] t]; reflexivity.
Qed.

Lemma ProvideChunk_invalid d chunk id :
  chunk_input_valid d chunk id = false -> ProvideChunk d chunk id = (false, d).
Proof. intros Hv. unfold ProvideChunk. rewrite Hv. reflexivity. Qed.

Lemma ProvideChunk_chunk_count d chunk id :
  chunk_count (ProvideChunk d chunk id).2 = chunk_count d.
Proof.
  destruct (chunk_input_valid d chunk id) eqn:Hv.
  - rewrite ProvideChunk_valid by exact Hv. simpl.
    destruct (CheckPresentAndMarkRecvd (chunk_tracker d) id).1;
      rewrite ?chunk_count_store_chunk; reflexivity.
  - rewrite ProvideChunk_invalid by exact Hv. reflexivity.
Qed.

Lemma ProvideChunk_wf d chunk id :
  decoder_wf d -> decoder_wf (ProvideChunk d chunk id).2.
Proof.
  intros Hwf. pose proof Hwf as [HD Htr].
  destruct (chunk_input_valid d chunk id) eqn:Hv.
  2: { rewrite ProvideChunk_invalid by exact Hv. exact Hwf. }
  destruct (tracker_facts.CheckPresentAndMarkRecvd_spec _ _ id HD Htr)
    as (_ & Htr' & _).
  split.
  - rewrite ProvideChunk_chunk_count. exact HD.
  - rewrite ProvideChunk_chunk_count, ProvideChunk_valid by exact Hv. simpl.
    destruct (CheckPresentAndMarkRecvd (chunk_tracker d) id).1;
      rewrite ?chunk_tracker_store_chunk; exact Htr'.
Qed.

Section Solver.
Variable fountain_solvable : nat -> list N -> bool.

Lemma DecodeReady_unfold d :
  DecodeReady fountain_solvable d =
    if decodeComplete d then (true, d)
    else if (chunk_count d <=? chunks_recvd d) && system_solvable fountain_solvable d
         then (true, set_decodeComplete d)
         else (false, d).
Proof. reflexivity. Qed.

Local Abbreviation DecodeReady := (DecodeReady fountain_solvable).
Local Abbreviation decoder_step := (decoder_step fountain_solvable).
Local Abbreviation decoder_run := (decoder_run fountain_solvable).

Lemma DecodeReady_wf d : decoder_wf d -> decoder_wf (DecodeReady d).2.
Proof.
  intros Hwf. rewrite !DecodeReady_unfold.
  destruct (decodeComplete d); [exact Hwf|].
  destruct (_ && _); [|exact Hwf].
  destruct Hwf. split; assumption.
Qed.

Lemma decoder_step_wf d c : decoder_wf d -> decoder_wf (decoder_step d c).2.
Proof.
  intros Hwf. destruct c as [chunk id|id| | |]; simpl; try exact Hwf.
  - pose proof (ProvideChunk_wf d chunk id Hwf).
    destruct (ProvideChunk d chunk id). assumption.
  - pose proof (DecodeReady_wf d Hwf).
    destruct (DecodeReady d). assumption.
Qed.

Lemma decoder_run_cons d c cs :
  decoder_run d (c :: cs) =
    ((decoder_step d c).1 :: (decoder_run (decoder_step d c).2 cs).1,
     (decoder_run (decoder_step d c).2 cs).2).
Proof.
  simpl. destruct (decoder_step d c) as [o d']. simpl.
  destruct (decoder_run d' cs) as [os d'']. reflexivity.
Qed.

Lemma decoder_run_wf cs : forall d,
  decoder_wf d -> decoder_wf (decoder_run d cs).2.
Proof.
  induction cs as [|c cs IH]; intros d Hwf; [exact Hwf|].
  rewrite decoder_run_cons. simpl. apply IH, decoder_step_wf, Hwf.
Qed.

(** *** The memoized flag never goes back *)






(** *** A call of [DecodeReady] cannot be observed *)

Hypothesis fountain_solvable_mono : forall D ids id,
  fountain_solvable D ids = true -> fountain_solvable D (ids ++ [id]) = true.






End Solver.
End decoder_facts.

(** ** Claims about the decoder *)

(** C3 (dedup idempotence).  For every decoder reached from its
    constructor (object size above zero) by calls on its public interface,
    and every valid chunk: [ProvideChunk] accepts it, providing the same
    chunk a second time returns [true] and leaves the whole decoder state
    as the first call left it, so that [GetChunksRcvd] has counted the chunk
    at most once. *)
Theorem ProvideChunk_duplicate_is_noop
  (fountain_solvable : nat -> list N -> bool)
  (cap0 data_size : nat) (mode : MemoryUsageMode) (cs : list decoder_call)
  (chunk : list byte) (chunk_id : N) :
  0 < cap0 -> 0 < data_size ->
  let d := (decoder_run fountain_solvable
              (FECDecoder_new cap0 data_size mode) cs).2 in
  chunk_input_valid d chunk chunk_id = true ->
  let d1 := (ProvideChunk d chunk chunk_id).2 in
  (ProvideChunk d chunk chunk_id).1 = true /\
  ProvideChunk d1 chunk chunk_id = (true, d1) /\
  GetChunksRcvd d1 = GetChunksRcvd d + (if HasChunk d chunk_id then 0 else 1).
Proof.
  intros Hcap Hsize d Hv d1.
  assert (Hwf : decoder_wf d).
  { apply decoder_facts.decoder_run_wf, decoder_facts.FECDecoder_new_wf; assumption. }
  destruct Hwf as [HD Htr].
  destruct (tracker_facts.CheckPresentAndMarkRecvd_spec _ _ chunk_id HD Htr)
    as (Hr & Htr' & _).
  pose proof (tracker_facts.CheckPresentAndMarkRecvd_again _ _ chunk_id HD Htr)
    as Hagain.
  assert (Hv1 : chunk_input_valid d1 chunk chunk_id = true).
  { rewrite <- Hv. apply decoder_facts.chunk_input_valid_ext.
    apply decoder_facts.ProvideChunk_chunk_count. }
  rewrite (decoder_facts.ProvideChunk_valid d1) by exact Hv1.
  subst d1. rewrite (decoder_facts.ProvideChunk_valid d) by exact Hv.
  unfold HasChunk, GetChunksRcvd. rewrite <- Hr. simpl.
  split; [reflexivity|].
  destruct (CheckPresentAndMarkRecvd (chunk_tracker d) chunk_id) as [[|] t] eqn:Hc;
    simpl in *.
  - rewrite Hagain. simpl. split; [reflexivity|lia].
  - rewrite decoder_facts.chunk_tracker_store_chunk. simpl. rewrite Hagain. simpl.
    split; [|rewrite decoder_facts.chunks_recvd_store_chunk; simpl; lia].
    f_equal. rewrite <- (decoder_facts.with_tracker_same (store_chunk _ _ _)) at 2.
    rewrite decoder_facts.chunk_tracker_store_chunk. reflexivity.
Qed.

Lemma ProvideChunk_duplicate_is_noop_witness :
  let solvable := fun (D : nat) (ids : list N) => D + 2 <=? length ids in
  let chunk := replicate 1152 x2a in
  let d := (decoder_run solvable (FECDecoder_new 4 3000 USE_MEMORY)
              [CallProvideChunk chunk 0; CallDecodeReady]).2 in
  let d1 := (ProvideChunk d chunk 5).2 in
  chunk_input_valid d chunk 5 = true /\
  (ProvideChunk d chunk 5).1 = true /\
  ProvideChunk d1 chunk 5 = (true, d1) /\
  GetChunksRcvd d1 = GetChunksRcvd d + (if HasChunk d 5 then 0 else 1).
Proof.
  split; [vm_compute; reflexivity|].
  apply (ProvideChunk_duplicate_is_noop
           (fun D ids => D + 2 <=? length ids) 4 3000 USE_MEMORY
           [CallProvideChunk (replicate 1152 x2a) 0; CallDecodeReady]
           (replicate 1152 x2a) 5%N);
    [lia|lia|vm_compute; reflexivity].
Defined.




(** ** The encoder *)

Module encoder_facts.
Section Encoder.
Variable encode_chunk : list byte -> N -> list byte.
Variable RandState : Type.
Variable randrange : RandState -> N -> N * RandState.
Hypothesis randrange_lt : forall r n, (0 < n)%N -> ((randrange r n).1 < n)%N.

Lemma chunk_id_limit_le D : (chunk_id_limit D <= FEC_CHUNK_COUNT_MAX)%N.
Proof.
  unfold chunk_id_limit. destruct (code_mode D); [|lia].
  change FEC_CHUNK_COUNT_MAX with 16777216%N. lia.
Qed.

Lemma chunk_id_limit_gt D :
  (N.of_nat D < FEC_CHUNK_COUNT_MAX)%N -> (N.of_nat D < chunk_id_limit D)%N.
Proof.
  intros HD. unfold chunk_id_limit, code_mode.
  destruct (Nat.leb_spec D CM256_MAX_CHUNKS) as [Hle|Hgt]; [|exact HD].
  unfold CM256_MAX_CHUNKS in Hle. lia.
Qed.

Lemma pick_chunk_id_spec attempts D ids : forall r chunk_id r',
  (N.of_nat D < FEC_CHUNK_COUNT_MAX)%N ->
  pick_chunk_id RandState randrange attempts D ids r = (Some chunk_id, r') ->
  (N.of_nat D <= chunk_id < chunk_id_limit D)%N /\ chunk_id ∉ ids.
Proof.
  induction attempts as [|n IH]; intros r chunk_id r' HD; simpl; [discriminate|].
  pose proof (randrange_lt r (chunk_id_limit D - N.of_nat D)) as Hv.
  pose proof (chunk_id_limit_gt D HD) as Hlim.
  destruct (randrange r (chunk_id_limit D - N.of_nat D)) as [v r1]. simpl in Hv.
  case_decide as Hin.
  - apply IH. exact HD.
  - intros [= <- <-]. split; [lia|exact Hin].
Qed.

End Encoder.
End encoder_facts.

(** ** Claims about the encoder *)




(** ** The ring buffer *)

Module ring_buffer_facts.
Import RingBuffer.

Section Elem.
Context {T : Type}.

Lemma create_wf (dflt : T) n : 0 < n -> wf (create dflt n).
Proof.
  intros Hn. split; unfold depth; simpl; rewrite ?length_replicate; try lia.
  - symmetry. apply Nat.mod_small. lia.
  - congruence.
Qed.

Lemma commit_write_wf (rb : t T) fill_fn :
  rd_idx rb < depth rb -> occupancy rb < depth rb ->
  wr_idx rb = (rd_idx rb + occupancy rb) mod depth rb ->
  wf (commit_write rb fill_fn).
Proof.
  intros Hr Hroom Hw.
  split; unfold depth in *; simpl; rewrite ?length_alter; try lia.
  - unfold depth. rewrite Hw, (mod_add_wrap _ _ (S _)) by lia.
    rewrite (mod_add_wrap _ _ (occupancy rb)) by lia.
    case_decide; rewrite mod_succ_wrap by lia; repeat case_decide; lia.
  - congruence.
Qed.

Lemma step_wf (rb : t T) c : wf rb -> wf (step rb c).
Proof.
  intros Hwf. pose proof Hwf as [Hd Hr Hw Ho Hb].
  destruct c as [fill_fn| | |bytes| |]; simpl.
  - destruct (blocked_write rb) eqn:Hbw; [exact Hwf|].
    unfold WriteElement, IsFull.
    destruct (Nat.eqb_spec (occupancy rb) (depth rb)) as [Hfull|Hroom]; simpl.
    + split; simpl; auto.
    + apply commit_write_wf; [lia|lia|exact Hw].
  - unfold AbortWrite. destruct (blocked_write rb); simpl; [|exact Hwf].
    split; simpl; auto; try congruence.
  - unfold GetNextRead. destruct (IsEmpty rb); simpl; [exact Hwf|].
    split; simpl; auto.
  - unfold ConfirmRead, IsEmpty.
    destruct (Nat.eqb_spec (occupancy rb) 0) as [Hempty|Hsome]; simpl; [exact Hwf|].
    assert (Hw' : wr_idx rb
                  = (S (rd_idx rb) mod depth rb + pred (occupancy rb)) mod depth rb).
    { rewrite Hw, Nat.Div0.add_mod_idemp_l. f_equal. lia. }
    destruct (blocked_write rb) eqn:Hbw; simpl.
    + assert (Hfull : occupancy rb = depth rb) by (apply Hb; congruence).
      apply commit_write_wf; unfold depth in *; simpl; [|lia|exact Hw'].
      apply Nat.mod_upper_bound. lia.
    + split; unfold depth in *; simpl;
        first [lia | exact Hw' | congruence | apply Nat.mod_upper_bound; lia].
  - split; simpl; auto.
  - split; simpl; auto.
Qed.

Lemma run_wf cs : forall rb : t T, wf rb -> wf (run rb cs).
Proof.
  induction cs as [|c cs IH]; intros rb Hwf; [exact Hwf|].
  simpl. apply IH, step_wf, Hwf.
Qed.

(** Looking at the next element changes nothing but the open-read flag. *)
Lemma step_peek (rb : t T) c :
  is_peek c = true ->
  buffer (step rb c) = buffer rb /\ rd_idx (step rb c) = rd_idx rb /\
  wr_idx (step rb c) = wr_idx rb /\ occupancy (step rb c) = occupancy rb /\
  blocked_write (step rb c) = blocked_write rb.
Proof.
  destruct c; simpl; try discriminate; intros _.
  - unfold GetNextRead. destruct (IsEmpty rb); simpl; auto.
  - auto.
Qed.

Lemma run_peeks cs : forall rb : t T,
  forallb is_peek cs = true ->
  buffer (run rb cs) = buffer rb /\ rd_idx (run rb cs) = rd_idx rb /\
  wr_idx (run rb cs) = wr_idx rb /\ occupancy (run rb cs) = occupancy rb /\
  blocked_write (run rb cs) = blocked_write rb.
Proof.
  induction cs as [|c cs IH]; intros rb Hp; simpl in *; [auto|].
  apply andb_true_iff in Hp as [Hc Hcs].
  destruct (IH (step rb c) Hcs) as (-> & -> & -> & -> & ->).
  apply step_peek, Hc.
Qed.

(** *** The buffer is a queue *)

Lemma read_from_S (buf : list T) i n :
  read_from buf i (S n) =
    match buf !! i with
    | Some x => x :: read_from buf (S i mod length buf) n
    | None => []
    end.
Proof. reflexivity. Qed.

Lemma read_from_alter (buf : list T) f n : forall i,
  i < length buf -> n < length buf ->
  read_from (alter f ((i + n) mod length buf) buf) i (S n)
  = read_from buf i n ++ option_list (f <$> buf !! ((i + n) mod length buf)).
Proof.
  induction n as [|n IH]; intros i Hi Hn.
  - rewrite Nat.add_0_r, Nat.mod_small by exact Hi. simpl.
    rewrite list_lookup_alter_eq. destruct (buf !! i); reflexivity.
  - assert (Hne : (i + S n) mod length buf <> i).
    { rewrite mod_add_wrap by lia. case_decide; lia. }
    destruct (lookup_lt_is_Some_2 buf i Hi) as [x Hx].
    rewrite (read_from_S (alter _ _ _)), (read_from_S buf i n).
    rewrite list_lookup_alter_ne by exact Hne.
    rewrite Hx, length_alter. rewrite <- app_comm_cons. f_equal.
    assert (Hw : (i + S n) mod length buf = (S i mod length buf + n) mod length buf).
    { rewrite Nat.Div0.add_mod_idemp_l. f_equal. lia. }
    rewrite Hw. apply IH; [apply Nat.mod_upper_bound|]; lia.
Qed.

(** A committed write appends the filled slot at the back. *)
Lemma contents_commit_write (rb : t T) fill_fn :
  rd_idx rb < depth rb -> occupancy rb < depth rb ->
  wr_idx rb = (rd_idx rb + occupancy rb) mod depth rb ->
  exists x, buffer rb !! wr_idx rb = Some x /\
            contents (commit_write rb fill_fn) = contents rb ++ [fill_fn x].
Proof.
  intros Hr Hroom Hw. unfold depth in *.
  destruct (lookup_lt_is_Some_2 (buffer rb) (wr_idx rb)) as [x Hx].
  { rewrite Hw. apply Nat.mod_upper_bound. lia. }
  exists x. split; [exact Hx|].
  unfold contents, commit_write; cbn -[read_from].
  rewrite Hw, read_from_alter by lia. rewrite <- Hw, Hx. reflexivity.
Qed.

(** [GetNextRead] shows the front of the queue. *)
Lemma GetNextRead_front (rb : t T) :
  (GetNextRead rb).1 = head (contents rb).
Proof.
  unfold GetNextRead, IsEmpty, contents.
  destruct (occupancy rb) as [|n]; simpl; [reflexivity|].
  destruct (buffer rb !! rd_idx rb); reflexivity.
Qed.

(** A confirmed read takes the front away; a writer that was blocked then
    appends its element. *)
Lemma contents_ConfirmRead (rb : t T) bytes :
  wf rb ->
  match blocked_write rb with
  | None => contents (ConfirmRead rb bytes).2 = tail (contents rb)
  | Some fill_fn =>
      exists x, contents (ConfirmRead rb bytes).2
                = tail (contents rb) ++ [fill_fn x]
  end.
Proof.
  intros [Hd Hr Hw Ho Hb]. unfold ConfirmRead, IsEmpty.
  destruct (Nat.eqb_spec (occupancy rb) 0) as [Hempty|Hsome].
  - destruct (blocked_write rb) eqn:Hbw; simpl.
    + specialize (Hb ltac:(congruence)). lia.
    + unfold contents. rewrite Hempty. reflexivity.
  - destruct (lookup_lt_is_Some_2 (buffer rb) (rd_idx rb) Hr) as [y Hy].
    assert (Htl : read_from (buffer rb) (S (rd_idx rb) mod depth rb)
                    (pred (occupancy rb)) = tail (contents rb)).
    { unfold contents. destruct (occupancy rb) as [|n]; [lia|].
      simpl. rewrite Hy. reflexivity. }
    destruct (blocked_write rb) as [fill_fn|] eqn:Hbw; simpl; [|exact Htl].
    specialize (Hb ltac:(congruence)).
    edestruct (contents_commit_write
      {| buffer := buffer rb; rd_idx := S (rd_idx rb) mod depth rb;
         wr_idx := wr_idx rb; occupancy := pred (occupancy rb);
         read_pending := false; blocked_write := Some fill_fn;
         stats_enabled := stats_enabled rb;
         stats := count_read T rb bytes |} fill_fn) as (x & _ & Hc).
    + unfold depth; simpl. apply Nat.mod_upper_bound. unfold depth in *. lia.
    + unfold depth in *; simpl. lia.
    + unfold depth in *; simpl.
      rewrite Hw, Nat.Div0.add_mod_idemp_l. f_equal. lia.
    + exists x. rewrite Hc. unfold contents at 1. simpl. rewrite Htl. reflexivity.
Qed.

Lemma contents_step_peek (rb : t T) c :
  is_peek c = true -> contents (step rb c) = contents rb.
Proof.
  intros Hc. unfold contents.
  destruct (step_peek rb c Hc) as (-> & -> & _ & -> & _). reflexivity.
Qed.

(** First in, first out: what the producer writes into free slots is what
    the queue holds, in that order. *)
Lemma contents_after_writes (vs : list T) : forall rb : t T,
  wf rb -> blocked_write rb = None ->
  occupancy rb + length vs <= depth rb ->
  contents (run rb (map (fun v => CallWriteElement (fun _ => v)) vs))
  = contents rb ++ vs.
Proof.
  induction vs as [|v vs IH]; intros rb Hwf Hbw Hroom; simpl.
  - rewrite app_nil_r. reflexivity.
  - simpl in Hroom. rewrite Hbw. unfold WriteElement, IsFull.
    destruct (Nat.eqb_spec (occupancy rb) (depth rb)) as [Hfull|Hfree]; [lia|].
    simpl. pose proof Hwf as [Hd Hr Hw Ho Hb].
    destruct (contents_commit_write rb (fun _ => v)) as (x & _ & Hc); [lia|lia|exact Hw|].
    rewrite IH.
    + rewrite Hc, <- app_assoc. reflexivity.
    + apply commit_write_wf; [lia|lia|exact Hw].
    + reflexivity.
    + unfold depth in *. simpl. rewrite length_alter. lia.
Qed.

End Elem.
End ring_buffer_facts.

(** *** The scenarios of [test/ringbuffer_tests.cpp] on the model *)

Module ring_buffer_tests.
Import RingBuffer.

(** [test_ringbuffer_write] *)
Example test_ringbuffer_write (new_val : nat) :
  let b1 := (WriteElement fresh (fun _ => new_val)).2 in
  let rd_val := (GetNextRead b1).1 in
  let b2 := (ConfirmRead (GetNextRead b1).2 0).2 in
  IsEmpty fresh = true /\ IsEmpty b1 = false /\
  rd_val = Some new_val /\ IsEmpty b2 = true.
Proof. repeat split; reflexivity. Qed.

(** [test_ringbuffer_overflow_ctrl] *)
Example test_ringbuffer_overflow_ctrl :
  let b1 := run overfill [CallGetNextRead; CallConfirmRead 0] in
  let b2 := run b1 [CallGetNextRead; CallConfirmRead 0] in
  IsFull overfill = true /\ is_Some (blocked_write overfill) /\
  blocked_write b1 = None /\ IsFull b1 = true /\ IsFull b2 = false.
Proof. vm_compute. repeat split; eauto. Qed.

(** [test_ringbuffer_read_abort] *)
Example test_ringbuffer_read_abort (new_val : nat) :
  let b1 := (WriteElement fresh (fun _ => new_val)).2 in
  let b2 := AbortRead (GetNextRead b1).2 in
  let rd_val := (GetNextRead b2).1 in
  let b3 := (ConfirmRead (GetNextRead b2).2 0).2 in
  IsEmpty b2 = false /\ rd_val = Some new_val /\ IsEmpty b3 = true.
Proof. repeat split; reflexivity. Qed.

(** [test_ringbuffer_write_abort] *)
Example test_ringbuffer_write_abort :
  IsFull overfill = true /\
  (AbortWrite overfill).1 = Some false /\
  buffer (AbortWrite overfill).2 = seq 0 BUFF_DEPTH.
Proof. vm_compute. repeat split. Qed.

(** [test_ringbuffer_stats], for the two counters *)
Example test_ringbuffer_stats :
  let one := fun v => [CallWriteElement (fun _ => v); CallGetNextRead;
                       CallConfirmRead 4] in
  let b := run (EnableStats fresh) (flat_map one (seq 0 10)) in
  rd_bytes (GetStats b) = 10 * 4 /\ rd_count (GetStats b) = 10.
Proof. vm_compute. split; reflexivity. Qed.

(** [test_ringbuffer_stats_disabled] *)
Example test_ringbuffer_stats_disabled :
  let b := run fresh (map (fun v => CallWriteElement (fun _ => v)) (seq 0 10)) in
  rd_bytes (GetStats b) = 0 /\ rd_count (GetStats b) = 0.
Proof. vm_compute. split; reflexivity. Qed.

End ring_buffer_tests.

(** ** Claims about the ring buffer *)

(** C8 (read abort).  In every state of the ring buffer that holds at least
    one committed element, [GetNextRead] returns an element, and after
    [AbortRead] the read pointer, the contents, the occupancy and the write
    pointer are as before, the buffer is still not empty, and the next
    [GetNextRead] returns the same element. *)
Theorem GetNextRead_AbortRead_keeps_element
  (T : Type) (dflt : T) (n : nat) (cs : list (RingBuffer.call T)) :
  0 < n ->
  let rb := RingBuffer.run (RingBuffer.create dflt n) cs in
  RingBuffer.IsEmpty rb = false ->
  let rb' := RingBuffer.AbortRead (RingBuffer.GetNextRead rb).2 in
  exists x,
    (RingBuffer.GetNextRead rb).1 = Some x /\
    RingBuffer.rd_idx rb' = RingBuffer.rd_idx rb /\
    RingBuffer.buffer rb' = RingBuffer.buffer rb /\
    RingBuffer.occupancy rb' = RingBuffer.occupancy rb /\
    RingBuffer.wr_idx rb' = RingBuffer.wr_idx rb /\
    RingBuffer.IsEmpty rb' = false /\
    (RingBuffer.GetNextRead rb').1 = Some x.
Proof.
  intros Hn rb Hne rb'.
  assert (Hwf : RingBuffer.wf rb).
  { apply ring_buffer_facts.run_wf, ring_buffer_facts.create_wf, Hn. }
  destruct (lookup_lt_is_Some_2 (RingBuffer.buffer rb) (RingBuffer.rd_idx rb))
    as [x Hx]; [apply Hwf|].
  exists x. subst rb'. unfold RingBuffer.GetNextRead, RingBuffer.AbortRead.
  rewrite Hne. simpl.
  change (RingBuffer.IsEmpty (RingBuffer.set_read_pending T
            (RingBuffer.set_read_pending T rb true) false))
    with (RingBuffer.IsEmpty rb).
  rewrite Hne. simpl. auto 10.
Qed.

Lemma GetNextRead_AbortRead_keeps_element_witness :
  let rb := RingBuffer.run (RingBuffer.create 0 4)
              [RingBuffer.CallWriteElement (fun _ => 42);
               RingBuffer.CallWriteElement (fun _ => 7);
               RingBuffer.CallGetNextRead;
               RingBuffer.CallConfirmRead 4] in
  let rb' := RingBuffer.AbortRead (RingBuffer.GetNextRead rb).2 in
  (RingBuffer.GetNextRead rb).1 = Some 7 /\
  exists x,
    (RingBuffer.GetNextRead rb).1 = Some x /\
    RingBuffer.rd_idx rb' = RingBuffer.rd_idx rb /\
    RingBuffer.buffer rb' = RingBuffer.buffer rb /\
    RingBuffer.occupancy rb' = RingBuffer.occupancy rb /\
    RingBuffer.wr_idx rb' = RingBuffer.wr_idx rb /\
    RingBuffer.IsEmpty rb' = false /\
    (RingBuffer.GetNextRead rb').1 = Some x.
Proof.
  split; [reflexivity|].
  apply (GetNextRead_AbortRead_keeps_element nat 0 4
           [RingBuffer.CallWriteElement (fun _ => 42);
            RingBuffer.CallWriteElement (fun _ => 7);
            RingBuffer.CallGetNextRead;
            RingBuffer.CallConfirmRead 4]); [lia|reflexivity].
Defined.

(** C9 (write abort).  When [WriteElement] is called on a full buffer it
    blocks; if [AbortWrite] is called while it is still blocked, the consumer
    having at most looked at the next element in between, the blocked
    [WriteElement] returns [false] and nothing was written: the contents,
    the occupancy and the write pointer are those before the call, and the
    buffer is still full. *)
Theorem AbortWrite_blocked_write_fails_and_writes_nothing
  (T : Type) (rb : RingBuffer.t T) (fill_fn : T -> T)
  (peeks : list (RingBuffer.call T)) :
  RingBuffer.IsFull rb = true ->
  forallb RingBuffer.is_peek peeks = true ->
  let blocked := RingBuffer.WriteElement rb fill_fn in
  let aborted := RingBuffer.AbortWrite (RingBuffer.run blocked.2 peeks) in
  blocked.1 = None /\
  aborted.1 = Some false /\
  RingBuffer.buffer aborted.2 = RingBuffer.buffer rb /\
  RingBuffer.occupancy aborted.2 = RingBuffer.occupancy rb /\
  RingBuffer.wr_idx aborted.2 = RingBuffer.wr_idx rb /\
  RingBuffer.rd_idx aborted.2 = RingBuffer.rd_idx rb /\
  RingBuffer.blocked_write aborted.2 = None /\
  RingBuffer.IsFull aborted.2 = true.
Proof.
  intros Hfull Hpeeks blocked aborted. subst aborted blocked.
  unfold RingBuffer.WriteElement. rewrite Hfull. simpl.
  destruct (ring_buffer_facts.run_peeks peeks
              (RingBuffer.set_blocked_write T rb (Some fill_fn)) Hpeeks)
    as (Hb & Hr & Hw & Ho & Hbw).
  simpl in Hb, Hr, Hw, Ho, Hbw.
  unfold RingBuffer.AbortWrite. rewrite Hbw. simpl.
  unfold RingBuffer.IsFull, RingBuffer.depth in *. simpl.
  rewrite Hb, Hr, Hw, Ho. auto 10.
Qed.

Lemma AbortWrite_blocked_write_fails_and_writes_nothing_witness :
  let rb := RingBuffer.run (RingBuffer.create 0 2)
              [RingBuffer.CallWriteElement (fun _ => 42);
               RingBuffer.CallWriteElement (fun _ => 7)] in
  let blocked := RingBuffer.WriteElement rb (fun _ => 99) in
  let aborted :=
    RingBuffer.AbortWrite
      (RingBuffer.run blocked.2
         [RingBuffer.CallGetNextRead; RingBuffer.CallAbortRead]) in
  RingBuffer.buffer rb = [42; 7] /\
  blocked.1 = None /\
  aborted.1 = Some false /\
  RingBuffer.buffer aborted.2 = RingBuffer.buffer rb /\
  RingBuffer.occupancy aborted.2 = RingBuffer.occupancy rb /\
  RingBuffer.wr_idx aborted.2 = RingBuffer.wr_idx rb /\
  RingBuffer.rd_idx aborted.2 = RingBuffer.rd_idx rb /\
  RingBuffer.blocked_write aborted.2 = None /\
  RingBuffer.IsFull aborted.2 = true.
Proof.
  split; [reflexivity|].
  apply (AbortWrite_blocked_write_fails_and_writes_nothing nat
           (RingBuffer.run (RingBuffer.create 0 2)
              [RingBuffer.CallWriteElement (fun _ => 42);
               RingBuffer.CallWriteElement (fun _ => 7)])
           (fun _ => 99)
           [RingBuffer.CallGetNextRead; RingBuffer.CallAbortRead]);
    reflexivity.
Defined.

(** * Further properties of the code *)

(** ** The tracker, call by call *)

Module tracker_more_facts.

Lemma reachable_wf cap0 D cs :
  0 < cap0 -> 1 <= D -> tracker_wf D (tracker_run (tracker_new cap0 D) cs).2.
Proof.
  intros Hcap HD.
  apply (tracker_facts.tracker_run_spec D cs _ HD), tracker_facts.tracker_new_wf, Hcap.
Qed.

Lemma elem_of_marked_ids cs y : y ∈ marked_ids cs <-> Mark y ∈ cs.
Proof.
  induction cs as [|c cs IH]; simpl.
  - split; intros H; inversion H.
  - unfold marked_ids in *. simpl. rewrite elem_of_app, IH, elem_of_cons.
    destruct c as [i|i]; simpl.
    + rewrite list_elem_of_singleton. split.
      * intros [->|H]; auto.
      * intros [[= ->]|H]; auto.
    + split.
      * intros [H|H]; [inversion H|auto].
      * intros [[=]|H]. auto.
Qed.

Lemma reported_absent_cons i ids r rs :
  reported_absent (i :: ids) (r :: rs)
  = if r then reported_absent ids rs else i :: reported_absent ids rs.
Proof.
  unfold reported_absent. simpl. rewrite filter_cons. simpl.
  destruct r; case_decide; simpl; try reflexivity; congruence.
Qed.

Lemma reported_absent_spec D ids : forall t,
  1 <= D -> tracker_wf D t ->
  let results := (tracker_run t (Mark <$> ids)).1 in
  NoDup (reported_absent ids results) /\
  (forall y, y ∈ reported_absent ids results <->
             y ∈ ids /\ CheckPresent t y = false).
Proof.
  induction ids as [|i ids IH]; intros t HD Hwf; cbn zeta.
  - split; [constructor|]. intros y. split; [intros H; inversion H|].
    intros [H _]. inversion H.
  - rewrite fmap_cons, tracker_facts.tracker_run_cons. cbn [fst snd tracker_step].
    destruct (tracker_facts.CheckPresentAndMarkRecvd_spec D t i HD Hwf)
      as (Hr & Hwf1 & Hq & _).
    destruct (IH _ HD Hwf1) as [Hnd Hmem]. cbn zeta in Hnd, Hmem.
    rewrite reported_absent_cons. rewrite Hr.
    destruct (CheckPresent t i) eqn:Hi.
    + split; [exact Hnd|]. intros y. rewrite Hmem, Hq, elem_of_cons.
      destruct (N.eqb_spec y i) as [->|Hne]; simpl.
      * split; [intros [_ [=]]|intros [_ H]; congruence].
      * split; [intros [? ?]; auto|intros [[?|?] ?]; [congruence|auto]].
    + split.
      * constructor; [|exact Hnd]. rewrite Hmem, Hq, N.eqb_refl. simpl.
        intros [_ [=]].
      * intros y. rewrite !elem_of_cons, Hmem, Hq.
        destruct (N.eqb_spec y i) as [->|Hne]; simpl.
        -- split; [auto|]. intros _. left. reflexivity.
        -- split; [intros [?|[? ?]]; [congruence|auto]|].
           intros [[?|?] ?]; [congruence|auto].
Qed.

End tracker_more_facts.

(** X1.  On a tracker in use, [CheckPresentAndMarkRecvd] returns what
    [CheckPresent] would have answered just before, afterwards the id is
    present, and the presence of every other id is as before. *)
Theorem CheckPresentAndMarkRecvd_marks_exactly_that_id
  (cap0 D : nat) (cs : list tracker_call) (id : N) :
  0 < cap0 -> 1 <= D ->
  let t := (tracker_run (tracker_new cap0 D) cs).2 in
  let r := CheckPresentAndMarkRecvd t id in
  r.1 = CheckPresent t id /\
  CheckPresent r.2 id = true /\
  (forall y, y <> id -> CheckPresent r.2 y = CheckPresent t y).
Proof.
  intros Hcap HD t r.
  pose proof (tracker_more_facts.reachable_wf cap0 D cs Hcap HD) as Hwf.
  destruct (tracker_facts.CheckPresentAndMarkRecvd_spec D t id HD Hwf)
    as (Hr & _ & Hq & _).
  split; [exact Hr|]. split.
  - subst r. rewrite Hq, N.eqb_refl. reflexivity.
  - intros y Hne. subst r. rewrite Hq.
    destruct (N.eqb_spec y id); [contradiction|reflexivity].
Qed.

Lemma CheckPresentAndMarkRecvd_marks_exactly_that_id_witness :
  let t := (tracker_run (tracker_new 2 3) [Mark 1; Mark 40; Query 7]%N).2 in
  let r := CheckPresentAndMarkRecvd t 7 in
  r.1 = false /\
  r.1 = CheckPresent t 7 /\
  CheckPresent r.2 7 = true /\
  (forall y, y <> 7%N -> CheckPresent r.2 y = CheckPresent t y).
Proof.
  split; [vm_compute; reflexivity|].
  apply (CheckPresentAndMarkRecvd_marks_exactly_that_id 2 3
           [Mark 1; Mark 40; Query 7]%N 7%N); lia.
Defined.

(** X2.  Marking the same id twice in a row: the second call returns
    [true] and leaves the tracker, bit-vector and hash set, exactly as the
    first call left it. *)
Theorem CheckPresentAndMarkRecvd_twice
  (cap0 D : nat) (cs : list tracker_call) (id : N) :
  0 < cap0 -> 1 <= D ->
  let t1 := (CheckPresentAndMarkRecvd
               (tracker_run (tracker_new cap0 D) cs).2 id).2 in
  CheckPresentAndMarkRecvd t1 id = (true, t1).
Proof.
  intros Hcap HD t1. subst t1.
  apply (tracker_facts.CheckPresentAndMarkRecvd_again D); [exact HD|].
  apply tracker_more_facts.reachable_wf; assumption.
Qed.

Lemma CheckPresentAndMarkRecvd_twice_witness :
  let t1 := (CheckPresentAndMarkRecvd
               (tracker_run (tracker_new 1 2) [Mark 0; Mark 9; Mark 17]%N).2 33).2 in
  CheckPresentAndMarkRecvd t1 33 = (true, t1).
Proof.
  apply (CheckPresentAndMarkRecvd_twice 1 2 [Mark 0; Mark 9; Mark 17]%N 33%N); lia.
Defined.

(** X3.  What the tracker answers does not depend on the order of the
    calls: two runs that marked the same ids, in any order and with any
    queries in between, answer [CheckPresent] alike for every id. *)
Theorem tracker_presence_is_order_independent
  (cap0 D : nat) (cs1 cs2 : list tracker_call) (y : N) :
  0 < cap0 -> 1 <= D ->
  marked_ids cs1 ≡ₚ marked_ids cs2 ->
  CheckPresent (tracker_run (tracker_new cap0 D) cs1).2 y
  = CheckPresent (tracker_run (tracker_new cap0 D) cs2).2 y.
Proof.
  intros Hcap HD Hperm.
  pose proof (tracker_facts.tracker_new_wf cap0 D Hcap) as Hwf0.
  destruct (tracker_facts.tracker_run_spec D cs1 _ HD Hwf0) as (_ & Hq1 & _).
  destruct (tracker_facts.tracker_run_spec D cs2 _ HD Hwf0) as (_ & Hq2 & _).
  apply eq_true_iff_eq. rewrite Hq1, Hq2.
  rewrite <- !tracker_more_facts.elem_of_marked_ids, Hperm. reflexivity.
Qed.

Lemma tracker_presence_is_order_independent_witness :
  let cs1 := [Mark 5; Query 9; Mark 1; Mark 9]%N in
  let cs2 := [Mark 9; Mark 1; Mark 5; Query 5]%N in
  CheckPresent (tracker_run (tracker_new 4 2) cs1).2 9
  = CheckPresent (tracker_run (tracker_new 4 2) cs2).2 9.
Proof.
  apply (tracker_presence_is_order_independent 4 2
           [Mark 5; Query 9; Mark 1; Mark 9]%N
           [Mark 9; Mark 1; Mark 5; Query 5]%N 9%N); [lia|lia|].
  change ([5; 1; 9]%N ≡ₚ [9; 1; 5]%N). solve_Permutation.
Defined.

(** X4.  In a run of [CheckPresentAndMarkRecvd] calls, the ids reported as
    not yet present are the distinct ids of the run, each reported once. *)
Theorem absent_reports_are_the_distinct_ids
  (cap0 D : nat) (ids : list N) :
  0 < cap0 -> 1 <= D ->
  let results := (tracker_run (tracker_new cap0 D) (Mark <$> ids)).1 in
  NoDup (reported_absent ids results) /\
  (forall y, y ∈ reported_absent ids results <-> y ∈ ids).
Proof.
  intros Hcap HD results.
  destruct (tracker_more_facts.reported_absent_spec D ids _ HD
              (tracker_facts.tracker_new_wf cap0 D Hcap)) as [Hnd Hmem].
  split; [exact Hnd|]. intros y. fold results in Hmem. rewrite Hmem.
  rewrite tracker_facts.CheckPresent_new by exact Hcap. tauto.
Qed.

Lemma absent_reports_are_the_distinct_ids_witness :
  let ids := [7; 3; 11; 7; 0; 0; 19; 3]%N in
  let results := (tracker_run (tracker_new 2 2) (Mark <$> ids)).1 in
  reported_absent ids results = [7; 3; 11; 0; 19]%N /\
  NoDup (reported_absent ids results) /\
  (forall y, y ∈ reported_absent ids results <-> y ∈ ids).
Proof.
  split; [vm_compute; reflexivity|].
  apply (absent_reports_are_the_distinct_ids 2 2 [7; 3; 11; 7; 0; 0; 19; 3]%N); lia.
Defined.

(** X5.  The bit-vector keeps its [D] flags, flag [i] is set exactly when
    data chunk id [i] has been marked, and a call with an id of [D] or more
    leaves the bit-vector as it is. *)
Theorem data_chunk_flags_hold_the_marked_data_ids
  (cap0 D : nat) (cs : list tracker_call) :
  0 < cap0 -> 1 <= D ->
  let t := (tracker_run (tracker_new cap0 D) cs).2 in
  length (data_chunk_recvd_flags t) = D /\
  (forall i, i < D ->
     exists b, data_chunk_recvd_flags t !! i = Some b /\
               (b = true <-> Mark (N.of_nat i) ∈ cs)) /\
  (forall c, (N.of_nat D <= call_id c)%N ->
     data_chunk_recvd_flags (tracker_step t c).2 = data_chunk_recvd_flags t).
Proof.
  intros Hcap HD t.
  pose proof (tracker_facts.tracker_new_wf cap0 D Hcap) as Hwf0.
  destruct (tracker_facts.tracker_run_spec D cs _ HD Hwf0) as (Hwf & Hq & _).
  fold t in Hwf, Hq. destruct Hwf as [Hlen Hset].
  split; [exact Hlen|]. split.
  - intros i Hi.
    destruct (lookup_lt_is_Some_2 (data_chunk_recvd_flags t) i) as [b Hb]; [lia|].
    exists b. split; [exact Hb|].
    specialize (Hq (N.of_nat i)).
    rewrite tracker_facts.CheckPresent_new in Hq by exact Hcap.
    unfold CheckPresent in Hq. rewrite Hlen in Hq.
    destruct (N.ltb_spec (N.of_nat i) (N.of_nat D)); [|lia].
    rewrite Nat2N.id, Hb in Hq. rewrite Hq.
    split; [intros [?|?]; [discriminate|assumption]|auto].
  - intros c Hc. destruct c as [i|i]; simpl in *; [|reflexivity].
    unfold CheckPresentAndMarkRecvd. rewrite Hlen.
    destruct (N.ltb_spec i (N.of_nat D)); [lia|].
    destruct (chunk_set_find_fast (fec_chunks_recvd t) i); [reflexivity|].
    destruct (chunk_set_insert (fec_chunks_recvd t) i). reflexivity.
Qed.

Lemma data_chunk_flags_hold_the_marked_data_ids_witness :
  let cs := [Mark 2; Mark 300; Query 1; Mark 0]%N in
  let t := (tracker_run (tracker_new 4 3) cs).2 in
  data_chunk_recvd_flags t = [true; false; true] /\
  length (data_chunk_recvd_flags t) = 3 /\
  (forall i, i < 3 ->
     exists b, data_chunk_recvd_flags t !! i = Some b /\
               (b = true <-> Mark (N.of_nat i) ∈ cs)) /\
  (forall c, (N.of_nat 3 <= call_id c)%N ->
     data_chunk_recvd_flags (tracker_step t c).2 = data_chunk_recvd_flags t).
Proof.
  split; [vm_compute; reflexivity|].
  apply (data_chunk_flags_hold_the_marked_data_ids 4 3
           [Mark 2; Mark 300; Query 1; Mark 0]%N); lia.
Defined.

(** ** Sizes and chunks of [bench/fec.cpp] *)

Module bench_facts.

Lemma DIV_CEIL_bounds a b :
  0 < b -> a <= DIV_CEIL a b * b /\ DIV_CEIL a b * b < a + b.
Proof.
  intros Hb. unfold DIV_CEIL.
  pose proof (Nat.div_mod_eq (a + b - 1) b) as Hdm.
  pose proof (Nat.mod_upper_bound (a + b - 1) b) as Hlt.
  nia.
Qed.

Lemma lt_DIV_CEIL a b i : 0 < b -> i < DIV_CEIL a b <-> i * b < a.
Proof.
  intros Hb. destruct (DIV_CEIL_bounds a b Hb) as [Hle Hlt]. split; intros Hi; nia.
Qed.

Lemma chunk_size_pos : 0 < FEC_CHUNK_SIZE.
Proof. unfold FEC_CHUNK_SIZE. lia. Qed.

Lemma lookup_resize_default {A} (l : list A) n x i :
  i < n -> resize n x l !! i = Some (default x (l !! i)).
Proof.
  intros Hi. destruct (decide (i < length l)) as [Hlt|Hge].
  - rewrite lookup_resize by lia.
    destruct (lookup_lt_is_Some_2 l i Hlt) as [y ->]. reflexivity.
  - rewrite lookup_resize_new by lia.
    rewrite (proj2 (lookup_ge_None l i)) by lia. reflexivity.
Qed.

(** The chunk is the slice of the header that starts at [i * FEC_CHUNK_SIZE],
    cut or padded to the chunk size. *)
Lemma Send_header_chunk_resize header_data i :
  i * FEC_CHUNK_SIZE <= length header_data ->
  Send_header_chunk header_data i
  = Some (resize FEC_CHUNK_SIZE x00 (drop (i * FEC_CHUNK_SIZE) header_data)).
Proof.
  intros Hi. unfold Send_header_chunk.
  pose proof chunk_size_pos as Hcs.
  case_decide as Hr; [|lia]. f_equal.
  rewrite !resize_spec, take_take, length_take, length_drop.
  destruct (decide ((i + 1) * FEC_CHUNK_SIZE <= length header_data)) as [Hfull|Hlast].
  - f_equal; [f_equal; lia|f_equal; lia].
  - rewrite !take_ge by (rewrite length_drop; lia). f_equal. f_equal. lia.
Qed.

Lemma Send_header_chunk_padded header_data n i :
  i * FEC_CHUNK_SIZE + FEC_CHUNK_SIZE <= n ->
  i * FEC_CHUNK_SIZE <= length header_data ->
  Send_header_chunk header_data i
  = Some (take FEC_CHUNK_SIZE
            (drop (i * FEC_CHUNK_SIZE) (resize n x00 header_data))).
Proof.
  intros Hn Hi. rewrite Send_header_chunk_resize by exact Hi. f_equal.
  apply list_eq. intros j.
  destruct (decide (j < FEC_CHUNK_SIZE)) as [Hj|Hj].
  - rewrite lookup_resize_default, lookup_take_lt by lia.
    rewrite !lookup_drop, lookup_resize_default by lia. reflexivity.
  - rewrite lookup_resize_old, lookup_take_ge by lia. reflexivity.
Qed.

Lemma memcpy_at_inside dst off src n :
  off + n <= length dst -> n <= length src ->
  memcpy_at dst off src n = Some (take off dst ++ take n src ++ drop (off + n) dst).
Proof. intros H1 H2. unfold memcpy_at. case_decide; [reflexivity|lia]. Qed.

(** Copying the consecutive chunks of a buffer into a zeroed buffer of the
    same size gives the buffer back. *)
Lemma Receiver_header_data_slices (P : list byte) (get : nat -> list byte) n :
  length P = n * FEC_CHUNK_SIZE ->
  (forall i, i < n ->
     get i = take FEC_CHUNK_SIZE (drop (i * FEC_CHUNK_SIZE) P)) ->
  Receiver_header_data get n = Some P.
Proof.
  intros Hlen Hget. unfold Receiver_header_data.
  pose proof chunk_size_pos as Hcs.
  assert (Hgen : forall m k,
    k + m = n ->
    fold_left
      (fun acc i =>
         match acc with
         | None => None
         | Some header_data =>
             memcpy_at header_data (i * FEC_CHUNK_SIZE) (get i) FEC_CHUNK_SIZE
         end)
      (seq k m)
      (Some (take (k * FEC_CHUNK_SIZE) P
             ++ replicate (m * FEC_CHUNK_SIZE) x00))
    = Some P).
  { induction m as [|m IH]; intros k Hk.
    - simpl. rewrite app_nil_r, take_ge by lia. reflexivity.
    - cbn [seq fold_left]. rewrite Hget by lia.
      rewrite memcpy_at_inside
        by (rewrite ?length_app, ?length_take, ?length_drop, ?length_replicate; nia).
      rewrite <- (IH (S k)) by lia. f_equal. f_equal.
      rewrite take_app_length' by (rewrite length_take; nia).
      rewrite take_take, Nat.min_id.
      rewrite drop_app_ge by (rewrite length_take; nia).
      rewrite length_take, drop_replicate.
      replace (Nat.min (k * FEC_CHUNK_SIZE) (length P)) with (k * FEC_CHUNK_SIZE)
        by nia.
      rewrite app_assoc, take_take_drop.
      f_equal; f_equal; nia. }
  exact (Hgen n 0 eq_refl).
Qed.

(** The reassembly gives the chunks one after the other, when each source
    holds a whole chunk. *)
Lemma Receiver_header_data_concat (get : nat -> list byte) n :
  (forall i, i < n -> FEC_CHUNK_SIZE <= length (get i)) ->
  Receiver_header_data get n
  = Some (concat ((fun i => take FEC_CHUNK_SIZE (get i)) <$> seq 0 n)).
Proof.
  intros Hget. unfold Receiver_header_data.
  assert (Hgen : forall m k Q,
    k + m = n -> length Q = k * FEC_CHUNK_SIZE ->
    fold_left
      (fun acc i =>
         match acc with
         | None => None
         | Some header_data =>
             memcpy_at header_data (i * FEC_CHUNK_SIZE) (get i) FEC_CHUNK_SIZE
         end)
      (seq k m) (Some (Q ++ replicate (m * FEC_CHUNK_SIZE) x00))
    = Some (Q ++ concat ((fun i => take FEC_CHUNK_SIZE (get i)) <$> seq k m))).
  { induction m as [|m IH]; intros k Q Hk HQ.
    - reflexivity.
    - cbn [seq fold_left fmap list_fmap concat].
      rewrite memcpy_at_inside
        by first [apply Hget; lia|rewrite ?length_app, ?length_replicate; nia].
      rewrite <- HQ, take_app_length, drop_app_ge by lia.
      replace (length Q + FEC_CHUNK_SIZE - length Q) with FEC_CHUNK_SIZE by lia.
      rewrite drop_replicate.
      replace (S m * FEC_CHUNK_SIZE - FEC_CHUNK_SIZE) with (m * FEC_CHUNK_SIZE)
        by nia.
      rewrite (app_assoc Q), (IH (S k)); [rewrite <- app_assoc; reflexivity|lia|].
      rewrite length_app, length_take, Nat.min_l by (apply Hget; lia). nia. }
  exact (Hgen n 0 [] eq_refl eq_refl).
Qed.

(** The calls of the first loop of [Send] carry whole chunks at indices
    below the chunk count. *)
Lemma Send_header_data_chunks_calls (g : nat -> N) header_data :
  exists calls,
    Send_header_data_chunks g header_data = Some calls /\
    Forall (fun call => call.2 < DIV_CEIL (length header_data) FEC_CHUNK_SIZE /\
                        length call.1 = FEC_CHUNK_SIZE) calls.
Proof.
  unfold Send_header_data_chunks.
  set (D := DIV_CEIL (length header_data) FEC_CHUNK_SIZE).
  assert (Hin : Forall (fun i => i < D) (seq 0 D)).
  { apply list.Forall_forall. intros i Hi. apply elem_of_seq in Hi. lia. }
  revert Hin. generalize (seq 0 D). intros l.
  induction l as [|i l IH]; intros Hin.
  - exists []. split; [reflexivity|constructor].
  - apply Forall_cons_1 in Hin as [Hi Hin].
    destruct (IH Hin) as (calls & Hcalls & Hall).
    cbn [foldr]. rewrite Hcalls.
    rewrite Send_header_chunk_resize
      by (apply Nat.lt_le_incl, (lt_DIV_CEIL _ _ _ chunk_size_pos), Hi).
    destruct (N.eqb (N.land (g i) 3) 0).
    + exists calls. auto.
    + eexists. split; [reflexivity|]. constructor; [|exact Hall].
      split; [exact Hi|apply length_resize].
Qed.

End bench_facts.

(** X6.  [DIV_CEIL(a, b)], computed on [size_t] values with wrap-around, is
    the ceiling of [a / b] whenever [a + b - 1] does not overflow: it is the
    number [q] with [a <= q * b < a + b], the one used for the chunk
    counts. *)
Theorem DIV_CEIL_size_t_is_the_ceiling (size_bits a b : Z) :
  (0 <= size_bits)%Z -> (0 <= a)%Z -> (0 < b)%Z ->
  (a + b <= 2 ^ size_bits)%Z ->
  let q := DIV_CEIL_size_t size_bits a b in
  (a <= q * b < a + b)%Z /\
  q = Z.of_nat (DIV_CEIL (Z.to_nat a) (Z.to_nat b)).
Proof.
  intros Hw Ha Hb Hfit q.
  assert (Hq : q = ((a + b - 1) / b)%Z).
  { subst q. unfold DIV_CEIL_size_t, size_wrap.
    destruct (decide (a + b = 2 ^ size_bits)%Z) as [Heq|Hne].
    - rewrite Heq, Z.mod_same by lia.
      replace (0 - 1)%Z with (-1 * (2 ^ size_bits) + (2 ^ size_bits - 1))%Z by lia.
      rewrite Z.add_comm, Z.mod_add by lia.
      rewrite Z.mod_small by lia. reflexivity.
    - rewrite (Z.mod_small (a + b)) by lia.
      rewrite Z.mod_small by lia. reflexivity. }
  split.
  - rewrite Hq.
    pose proof (Z.mul_div_le (a + b - 1) b Hb).
    pose proof (Z.mul_succ_div_gt (a + b - 1) b Hb). nia.
  - rewrite Hq. unfold DIV_CEIL.
    rewrite Nat2Z.inj_div. f_equal; lia.
Qed.

Lemma DIV_CEIL_size_t_is_the_ceiling_witness :
  let q := DIV_CEIL_size_t 64 2305 1152 in
  q = 3%Z /\
  (2305 <= q * 1152 < 2305 + 1152)%Z /\
  q = Z.of_nat (DIV_CEIL (Z.to_nat 2305) (Z.to_nat 1152)).
Proof.
  split; [reflexivity|].
  apply (DIV_CEIL_size_t_is_the_ceiling 64 2305 1152); lia.
Defined.

(** X7.  The chunk that [Send] builds for index [i] is undefined exactly
    when [i * FEC_CHUNK_SIZE] lies beyond the end of the header, which the
    loop bound [DIV_CEIL(header_size, FEC_CHUNK_SIZE)] excludes.  For every
    index the loop visits the chunk has [FEC_CHUNK_SIZE] bytes: the header
    bytes from [i * FEC_CHUNK_SIZE] on, and zero bytes past the end of the
    header. *)
Theorem Send_header_chunk_is_the_padded_slice
  (header_data : list byte) (i : nat) :
  (Send_header_chunk header_data i = None <->
   length header_data < i * FEC_CHUNK_SIZE) /\
  (i < DIV_CEIL (length header_data) FEC_CHUNK_SIZE ->
   exists chunk,
     Send_header_chunk header_data i = Some chunk /\
     length chunk = FEC_CHUNK_SIZE /\
     forall j, j < FEC_CHUNK_SIZE ->
       chunk !! j = Some (default x00 (header_data !! (i * FEC_CHUNK_SIZE + j)))).
Proof.
  pose proof bench_facts.chunk_size_pos as Hcs. split.
  - unfold Send_header_chunk. case_decide as Hr; split; intros H;
      try discriminate; try lia. reflexivity.
  - intros Hi. apply bench_facts.lt_DIV_CEIL in Hi; [|exact Hcs].
    eexists. split; [apply bench_facts.Send_header_chunk_resize; lia|].
    split; [apply length_resize|].
    intros j Hj. rewrite bench_facts.lookup_resize_default, lookup_drop by exact Hj.
    reflexivity.
Qed.

(** X8.  Round trip of the chunking: when [GetDataPtr(i)] gives back the
    chunks that [Send] built from a header, the buffer that
    [Receiver::RecvHeaderChunk] assembles from them is the header followed
    by the zero padding of its last chunk, so its first [header_size] bytes
    are the header. *)
Theorem header_chunks_reassemble_to_the_header
  (header_data : list byte) (GetDataPtr : nat -> list byte) :
  let header_chunk_count := DIV_CEIL (length header_data) FEC_CHUNK_SIZE in
  (forall i, i < header_chunk_count ->
     Send_header_chunk header_data i = Some (GetDataPtr i)) ->
  exists rebuilt,
    Receiver_header_data GetDataPtr header_chunk_count = Some rebuilt /\
    rebuilt = header_data
              ++ replicate (header_chunk_count * FEC_CHUNK_SIZE
                            - length header_data) x00 /\
    take (length header_data) rebuilt = header_data.
Proof.
  intros D Hget. pose proof bench_facts.chunk_size_pos as Hcs.
  destruct (bench_facts.DIV_CEIL_bounds (length header_data) FEC_CHUNK_SIZE Hcs)
    as [Hle Hlt]. fold D in Hle, Hlt.
  exists (resize (D * FEC_CHUNK_SIZE) x00 header_data).
  split; [|split].
  - apply bench_facts.Receiver_header_data_slices; [apply length_resize|].
    intros i Hi. specialize (Hget i Hi).
    rewrite (bench_facts.Send_header_chunk_padded header_data (D * FEC_CHUNK_SIZE))
      in Hget.
    + congruence.
    + nia.
    + apply (bench_facts.lt_DIV_CEIL _ _ _ Hcs) in Hi. lia.
  - rewrite resize_spec, take_ge by lia. reflexivity.
  - rewrite resize_spec, (take_ge header_data (D * FEC_CHUNK_SIZE)) by lia.
    apply take_app_length.
Qed.

Lemma header_chunks_reassemble_to_the_header_witness :
  let header_data := replicate 1152 x2a ++ replicate 1000 x07 ++ [x01; x02] in
  let GetDataPtr := fun i => default [] (Send_header_chunk header_data i) in
  DIV_CEIL (length header_data) FEC_CHUNK_SIZE = 2 /\
  exists rebuilt,
    Receiver_header_data GetDataPtr 2 = Some rebuilt /\
    rebuilt = header_data ++ replicate (2 * FEC_CHUNK_SIZE - length header_data) x00 /\
    take (length header_data) rebuilt = header_data.
Proof.
  split; [reflexivity|].
  apply (header_chunks_reassemble_to_the_header
           (replicate 1152 x2a ++ replicate 1000 x07 ++ [x01; x02])
           (fun i => default []
              (Send_header_chunk
                 (replicate 1152 x2a ++ replicate 1000 x07 ++ [x01; x02]) i))).
  intros i Hi.
  destruct i as [|[|i]]; [vm_compute; reflexivity|vm_compute; reflexivity|].
  exfalso. vm_compute in Hi. lia.
Defined.


(** X10.  [FECDecodeBenchmark] hands [&data[i * FEC_CHUNK_SIZE]] to
    [ProvideChunk] for the indices below [DIV_CEIL(data.size(),
    FEC_CHUNK_SIZE)].  Each of these chunks starts inside [data]; they all
    lie wholly inside [data] exactly when its size is a multiple of
    [FEC_CHUNK_SIZE], the last one reaching past the end otherwise. *)
Theorem FECDecodeBenchmark_chunks_inside_iff_multiple (size : nat) :
  let chunks := DIV_CEIL size FEC_CHUNK_SIZE in
  (forall i, i < chunks -> i * FEC_CHUNK_SIZE < size) /\
  ((forall i, i < chunks -> chunk_inside size i) <->
   size mod FEC_CHUNK_SIZE = 0) /\
  (size mod FEC_CHUNK_SIZE <> 0 ->
   0 < chunks /\ ~ chunk_inside size (chunks - 1)).
Proof.
  intros chunks. pose proof bench_facts.chunk_size_pos as Hcs.
  pose proof (Nat.div_mod_eq size FEC_CHUNK_SIZE) as Hdm.
  pose proof (Nat.mod_upper_bound size FEC_CHUNK_SIZE) as Hm.
  destruct (bench_facts.DIV_CEIL_bounds size FEC_CHUNK_SIZE Hcs) as [Hle Hlt].
  fold chunks in Hle, Hlt. unfold chunk_inside.
  assert (Hlast : size mod FEC_CHUNK_SIZE <> 0 ->
                  0 < chunks /\ ~ (chunks - 1) * FEC_CHUNK_SIZE + FEC_CHUNK_SIZE <= size).
  { intros Hnz.
    assert (Hpos : 0 < chunks) by nia.
    assert (Hq : size / FEC_CHUNK_SIZE < chunks).
    { apply (bench_facts.lt_DIV_CEIL _ _ _ Hcs). nia. }
    split; [exact Hpos|]. intros Hin.
    assert (Hc : chunks * FEC_CHUNK_SIZE
                 = (chunks - 1) * FEC_CHUNK_SIZE + FEC_CHUNK_SIZE) by nia.
    assert (Hge : (size / FEC_CHUNK_SIZE + 1) * FEC_CHUNK_SIZE
                  <= chunks * FEC_CHUNK_SIZE).
    { apply Nat.mul_le_mono_r. lia. }
    lia. }
  split; [|split; [|exact Hlast]].
  - intros i Hi. apply (bench_facts.lt_DIV_CEIL _ _ _ Hcs). exact Hi.
  - split.
    + intros Hall. destruct (decide (size mod FEC_CHUNK_SIZE = 0)) as [Hz|Hnz];
        [exact Hz|].
      destruct (Hlast Hnz) as [Hpos Hout]. exfalso. apply Hout, Hall. lia.
    + intros Hz i Hi. apply (bench_facts.lt_DIV_CEIL _ _ _ Hcs) in Hi.
      rewrite Hz, Nat.add_0_r, (Nat.mul_comm FEC_CHUNK_SIZE) in Hdm.
      assert (Hiq : i < size / FEC_CHUNK_SIZE).
      { apply (Nat.mul_lt_mono_pos_r FEC_CHUNK_SIZE); lia. }
      assert (Hge : (i + 1) * FEC_CHUNK_SIZE
                    <= size / FEC_CHUNK_SIZE * FEC_CHUNK_SIZE).
      { apply Nat.mul_le_mono_r. lia. }
      lia.
Qed.

(** X11.  The first loop of [Send] always completes without building an
    invalid range.  It hands over the chunks of the indices whose draw has
    one of its two low bits set, in increasing order of the index, so every
    data chunk at most once, and each chunk handed over is the one built for
    its index, [FEC_CHUNK_SIZE] bytes long. *)
Theorem Send_hands_over_data_chunks_in_order
  (g : nat -> N) (header_data : list byte) :
  exists calls,
    Send_header_data_chunks g header_data = Some calls /\
    calls.*2 = filter (fun i => N.land (g i) 3 <> 0%N)
                 (seq 0 (DIV_CEIL (length header_data) FEC_CHUNK_SIZE)) /\
    NoDup calls.*2 /\
    Forall (fun call => Send_header_chunk header_data call.2 = Some call.1 /\
                        length call.1 = FEC_CHUNK_SIZE) calls.
Proof.
  pose proof bench_facts.chunk_size_pos as Hcs.
  unfold Send_header_data_chunks.
  set (D := DIV_CEIL (length header_data) FEC_CHUNK_SIZE).
  assert (Hin : Forall (fun i => i < D) (seq 0 D)).
  { apply list.Forall_forall. intros i Hi. apply elem_of_seq in Hi. lia. }
  assert (Hnd : NoDup (seq 0 D)) by apply NoDup_seq.
  revert Hin Hnd. generalize (seq 0 D). intros l.
  induction l as [|i l IH]; intros Hin Hnd.
  - exists []. simpl. repeat split; constructor.
  - apply Forall_cons_1 in Hin as [Hi Hin]. apply list.NoDup_cons in Hnd as [Hil Hnd].
    destruct (IH Hin Hnd) as (calls & Hcalls & Hidx & Hnd' & Hall).
    apply (bench_facts.lt_DIV_CEIL _ _ _ Hcs) in Hi.
    pose proof (bench_facts.Send_header_chunk_resize header_data i
                  (Nat.lt_le_incl _ _ Hi)) as Hchunk.
    set (chunk := resize FEC_CHUNK_SIZE x00
                    (drop (i * FEC_CHUNK_SIZE) header_data)) in Hchunk.
    assert (Hlen : length chunk = FEC_CHUNK_SIZE) by apply length_resize.
    cbn [foldr]. rewrite Hchunk, Hcalls, filter_cons.
    destruct (N.eqb_spec (N.land (g i) 3) 0) as [Hz|Hnz]; case_decide; try congruence.
    + exists calls. auto.
    + exists ((chunk, i) :: calls).
      split; [reflexivity|]. rewrite fmap_cons. cbn [snd].
      split; [rewrite Hidx; reflexivity|]. split.
      * apply list.NoDup_cons. split; [|exact Hnd'].
        rewrite Hidx. intros Hmem.
        apply list_elem_of_filter in Hmem as [_ Hmem]. contradiction.
      * constructor; [split; assumption|exact Hall].
Qed.

(** ** The receiver of [bench/fec.cpp] *)

Module receiver_facts.
Import Receiver.

Lemma size_wrap_add size_bits x y :
  size_wrap size_bits (size_wrap size_bits x + y) = size_wrap size_bits (x + y).
Proof. unfold size_wrap. apply Zplus_mod_idemp_l. Qed.

Section Collaborators.
Variable PartialBlock : Type.
Variable IsChunkAvailable : PartialBlock -> nat -> bool.
Variable GetChunk : PartialBlock -> nat -> list byte.
Variable WriteChunk : PartialBlock -> nat -> list byte -> PartialBlock.
Variable MarkChunkAvailable : PartialBlock -> nat -> PartialBlock.
Variable InitData : PartialBlock -> list byte -> option PartialBlock.
Variable FinalizeBlock : PartialBlock -> option PartialBlock.
Variable GetDataPtr : FECDecoder -> N -> list byte * FECDecoder.
Variable fountain_solvable : nat -> list N -> bool.
Variable cap0 : nat.
Variable size_bits : Z.

Local Abbreviation laws :=
  (partial_block_laws PartialBlock IsChunkAvailable GetChunk WriteChunk
     MarkChunkAvailable).
Local Abbreviation store_block_chunk :=
  (store_block_chunk PartialBlock IsChunkAvailable WriteChunk MarkChunkAvailable).
Local Abbreviation fill_block_chunk :=
  (fill_block_chunk PartialBlock IsChunkAvailable WriteChunk MarkChunkAvailable
     GetDataPtr).
Local Abbreviation fill_block_chunks :=
  (fill_block_chunks PartialBlock IsChunkAvailable WriteChunk MarkChunkAvailable
     GetDataPtr).
Local Abbreviation RecvBlockChunk :=
  (RecvBlockChunk PartialBlock IsChunkAvailable WriteChunk MarkChunkAvailable
     FinalizeBlock GetDataPtr fountain_solvable size_bits).
Local Abbreviation RecvBlockChunk_run :=
  (RecvBlockChunk_run PartialBlock IsChunkAvailable WriteChunk MarkChunkAvailable
     FinalizeBlock GetDataPtr fountain_solvable size_bits).
Local Abbreviation RecvHeaderChunk :=
  (RecvHeaderChunk PartialBlock InitData GetDataPtr fountain_solvable size_bits).
Local Abbreviation RecvHeaderChunk_run :=
  (RecvHeaderChunk_run PartialBlock InitData GetDataPtr fountain_solvable
     size_bits).

(** The first step stores at [idx] only, and only a missing data chunk. *)
Lemma store_block_chunk_spec D pb chunk idx pb1 :
  laws ->
  store_block_chunk D pb chunk idx = Some pb1 ->
  let stored := (idx <? D) && negb (IsChunkAvailable pb idx) in
  (stored = true -> FEC_CHUNK_SIZE <= length chunk) /\
  forall j,
    IsChunkAvailable pb1 j = ((j =? idx) && stored) || IsChunkAvailable pb j /\
    GetChunk pb1 j
    = if (j =? idx) && stored then take FEC_CHUNK_SIZE chunk else GetChunk pb j.
Proof.
  intros L. unfold Receiver.store_block_chunk, memcpy_chunk. cbn zeta.
  destruct ((idx <? D) && negb (IsChunkAvailable pb idx)).
  - case_decide as Hlen; [|discriminate]. intros [= <-]. split; [auto|].
    intros j. rewrite (available_mark _ _ _ _ _ L), (available_write _ _ _ _ _ L),
      (chunk_mark _ _ _ _ _ L), (chunk_write _ _ _ _ _ L), andb_true_r.
    split; reflexivity.
  - intros [= <-]. split; [discriminate|]. intros j.
    rewrite andb_false_r. split; reflexivity.
Qed.

Lemma fold_fill_None l :
  fold_left fill_block_chunk l None = None.
Proof. induction l as [|i l IH]; [reflexivity|exact IH]. Qed.

(** The loop makes the chunks of its range available and leaves the
    chunks that were available, and those outside its range, as they are. *)
Lemma fold_fill_frame l : forall pb d pb' d',
  laws ->
  fold_left fill_block_chunk l (Some (pb, d)) = Some (pb', d') ->
  forall j,
    (IsChunkAvailable pb' j = true <-> IsChunkAvailable pb j = true \/ j ∈ l) /\
    (IsChunkAvailable pb j = true \/ j ∉ l -> GetChunk pb' j = GetChunk pb j).
Proof.
  clear InitData FinalizeBlock fountain_solvable cap0 size_bits.
  induction l as [|i l IH]; intros pb d pb' d' L.
  - intros [= <- <-] j. rewrite elem_of_nil. split; [tauto|reflexivity].
  - cbn [fold_left]. unfold Receiver.fill_block_chunk at 2.
    destruct (IsChunkAvailable pb i) eqn:Hi.
    + intros Hf j. destruct (IH _ _ _ _ L Hf j) as (Ha & Hk).
      rewrite !elem_of_cons. split.
      * rewrite Ha. split; [tauto|]. intros [?|[->|?]]; auto.
      * intros [?|Hnot]; apply Hk; [auto|right; intros ?; apply Hnot; auto].
    + destruct (GetDataPtr d (uint32_of_size_t i)) as [bytes d1] eqn:Hg.
      unfold memcpy_chunk. case_decide as Hlen; [|rewrite fold_fill_None; discriminate].
      cbn [fmap option_fmap option_map]. intros Hf j.
      destruct (IH _ _ _ _ L Hf j) as (Ha & Hk).
      rewrite (available_mark _ _ _ _ _ L), (available_write _ _ _ _ _ L) in Ha.
      rewrite (available_mark _ _ _ _ _ L), (available_write _ _ _ _ _ L),
        (chunk_mark _ _ _ _ _ L), (chunk_write _ _ _ _ _ L) in Hk.
      rewrite !elem_of_cons.
      destruct (Nat.eqb_spec j i) as [Heq|Hne]; [subst j|]; cbn [orb] in Ha, Hk.
      * split; [rewrite Ha; tauto|].
        intros [?|Hnot]; [congruence|]. exfalso. apply Hnot. auto.
      * split; [rewrite Ha; split; [tauto|]; intros [?|[?|?]]; auto; contradiction|].
        intros [?|Hnot]; apply Hk; [auto|right; intros ?; apply Hnot; auto].
Qed.

(** A chunk of its range that was missing holds what the decoder pointed
    to, when the calls of [GetDataPtr] do not disturb each other. *)
Lemma fold_fill_data l : forall pb d pb' d',
  laws ->
  (forall d0 id id', (GetDataPtr (GetDataPtr d0 id).2 id').1 = (GetDataPtr d0 id').1) ->
  fold_left fill_block_chunk l (Some (pb, d)) = Some (pb', d') ->
  (forall j, IsChunkAvailable pb j = false -> j ∈ l ->
     GetChunk pb' j
     = take FEC_CHUNK_SIZE (GetDataPtr d (uint32_of_size_t j)).1) /\
  forall id, (GetDataPtr d' id).1 = (GetDataPtr d id).1.
Proof.
  clear InitData FinalizeBlock fountain_solvable cap0 size_bits.
  induction l as [|i l IH]; intros pb d pb' d' L Hst.
  - intros [= <- <-]. split; [|reflexivity]. intros j _ Hin.
    apply elem_of_nil in Hin as [].
  - cbn [fold_left]. unfold Receiver.fill_block_chunk at 2.
    destruct (IsChunkAvailable pb i) eqn:Hi.
    + intros Hf. destruct (IH _ _ _ _ L Hst Hf) as (Hn & Hd). split; [|exact Hd].
      intros j Hj Hin. apply elem_of_cons in Hin as [->|Hin]; [congruence|].
      apply Hn; assumption.
    + destruct (GetDataPtr d (uint32_of_size_t i)) as [bytes d1] eqn:Hg.
      unfold memcpy_chunk. case_decide as Hlen; [|rewrite fold_fill_None; discriminate].
      cbn [fmap option_fmap option_map]. intros Hf.
      destruct (IH _ _ _ _ L Hst Hf) as (Hn & Hd).
      assert (Hd1 : forall id, (GetDataPtr d1 id).1 = (GetDataPtr d id).1).
      { intros id. replace d1 with (GetDataPtr d (uint32_of_size_t i)).2
          by (rewrite Hg; reflexivity). apply Hst. }
      split; [|intros id; rewrite Hd; apply Hd1].
      intros j Hj Hin.
      destruct (decide (j = i)) as [->|Hne].
      * destruct (fold_fill_frame _ _ _ _ _ L Hf i) as (_ & Hk).
        rewrite Hk.
        -- rewrite (chunk_mark _ _ _ _ _ L), (chunk_write _ _ _ _ _ L),
             Nat.eqb_refl, Hg. reflexivity.
        -- left. rewrite (available_mark _ _ _ _ _ L), Nat.eqb_refl. reflexivity.
      * apply elem_of_cons in Hin as [?|Hin]; [contradiction|].
        rewrite Hn, Hd1; [reflexivity| |exact Hin].
        rewrite (available_mark _ _ _ _ _ L), (available_write _ _ _ _ _ L).
        destruct (Nat.eqb_spec j i); [contradiction|exact Hj].
Qed.


(** The outcomes of one call on a block that is not done. *)
Lemma RecvBlockChunk_inv r chunk idx b r' :
  block_done r = false ->
  RecvBlockChunk r chunk idx = Some (b, r') ->
  let D := DIV_CEIL (block_size r) FEC_CHUNK_SIZE in
  let provided := ProvideChunk (decoder r) chunk (uint32_of_size_t idx) in
  let ready := DecodeReady fountain_solvable provided.2 in
  exists pb1,
    store_block_chunk D (partialBlock r) chunk idx = Some pb1 /\
    provided.1 = true /\
    b = ready.1 /\
    if b
    then exists pb2 d3 pb3,
        fill_block_chunks D pb1 ready.2 = Some (pb2, d3) /\
        FinalizeBlock pb2 = Some pb3 /\
        r' = received PartialBlock size_bits r d3 pb3 (header_done r) true
    else r' = received PartialBlock size_bits r ready.2 pb1 (header_done r) false.
Proof.
  intros Hnd. unfold Receiver.RecvBlockChunk. rewrite Hnd. cbn zeta.
  destruct (store_block_chunk _ _ _ _) as [pb1|]; [|discriminate].
  destruct (ProvideChunk _ _ _) as [ok d1]. destruct ok; [|discriminate].
  cbn [negb fst snd].
  destruct (DecodeReady fountain_solvable d1) as [ready d2]. cbn [fst snd].
  destruct ready.
  - destruct (Receiver.fill_block_chunks _ _ _ _ _ _ _ _) as [[pb2 d3]|] eqn:Hfill;
      [|discriminate].
    destruct (FinalizeBlock pb2) as [pb3|] eqn:Hfin; [|discriminate].
    intros [= <- <-]. exists pb1. repeat split. exists pb2, d3, pb3. auto.
  - intros [= <- <-]. exists pb1. auto.
Qed.

(** [GetDataPtr] for each index in turn points to what it points to at
    the start, when its calls do not disturb each other. *)
Lemma GetDataPtr_each_spec ids : forall d,
  (forall d0 id id', (GetDataPtr (GetDataPtr d0 id).2 id').1 = (GetDataPtr d0 id').1) ->
  (GetDataPtr_each GetDataPtr d ids).1
  = (fun i => (GetDataPtr d (uint32_of_size_t i)).1) <$> ids.
Proof.
  clear InitData FinalizeBlock fountain_solvable cap0 size_bits.
  induction ids as [|i ids IH]; intros d Hst; [reflexivity|].
  cbn [GetDataPtr_each fmap list_fmap].
  destruct (GetDataPtr d (uint32_of_size_t i)) as [bytes d1] eqn:Hg.
  specialize (IH d1 Hst).
  destruct (GetDataPtr_each GetDataPtr d1 ids) as [rest d2].
  cbn [fst] in *. rewrite IH. f_equal.
  apply list_fmap_ext. intros _ j _.
  replace d1 with (GetDataPtr d (uint32_of_size_t i)).2 by (rewrite Hg; reflexivity).
  apply Hst.
Qed.

(** The outcomes of one call while the header is not done. *)
Lemma RecvHeaderChunk_inv r chunk idx r' :
  (forall d id, FEC_CHUNK_SIZE <= length (GetDataPtr d id).1) ->
  (forall d0 id id', (GetDataPtr (GetDataPtr d0 id).2 id').1 = (GetDataPtr d0 id').1) ->
  header_done r = false ->
  RecvHeaderChunk r chunk idx = Some r' ->
  let ready := DecodeReady fountain_solvable
                 (ProvideChunk (decoder r) chunk (uint32_of_size_t idx)).2 in
  (ProvideChunk (decoder r) chunk (uint32_of_size_t idx)).1 = true /\
  header_done r' = ready.1 /\
  block_done r' = block_done r /\
  total_chunks_consumed r'
  = size_wrap size_bits (total_chunks_consumed r + 1) /\
  if ready.1
  then InitData (partialBlock r)
         (concat ((fun i => take FEC_CHUNK_SIZE
                              (GetDataPtr ready.2 (uint32_of_size_t i)).1)
                    <$> seq 0 (header_chunk_count r)))
       = Some (partialBlock r')
  else partialBlock r' = partialBlock r.
Proof.
  intros Hw Hst Hnd. unfold Receiver.RecvHeaderChunk. rewrite Hnd. cbn zeta.
  destruct (ProvideChunk _ _ _) as [ok d1]. destruct ok; [|discriminate].
  cbn [negb fst snd].
  destruct (DecodeReady fountain_solvable d1) as [ready d2]. cbn [fst snd].
  destruct ready.
  - pose proof (GetDataPtr_each_spec (seq 0 (header_chunk_count r)) d2 Hst)
      as Heach.
    destruct (GetDataPtr_each GetDataPtr d2 (seq 0 (header_chunk_count r)))
      as [chunks d3]. cbn [fst] in Heach.
    assert (Hget : forall i, i < header_chunk_count r ->
              default [] (chunks !! i) = (GetDataPtr d2 (uint32_of_size_t i)).1).
    { intros i Hi. rewrite Heach, list_lookup_fmap, lookup_seq_lt by exact Hi.
      reflexivity. }
    rewrite bench_facts.Receiver_header_data_concat
      by (intros i Hi; rewrite Hget by exact Hi; apply Hw).
    replace ((fun i => take FEC_CHUNK_SIZE (default [] (chunks !! i)))
               <$> seq 0 (header_chunk_count r))
      with ((fun i => take FEC_CHUNK_SIZE (GetDataPtr d2 (uint32_of_size_t i)).1)
              <$> seq 0 (header_chunk_count r)).
    2: { apply list_fmap_ext. intros k i Hk. apply lookup_seq in Hk as [-> Hk].
         cbn. rewrite Hget by exact Hk. reflexivity. }
    destruct (InitData _ _) as [pb|] eqn:Hinit; [|discriminate].
    intros [= <-]. cbn. auto.
  - intros [= <-]. cbn. auto.
Qed.

Lemma RecvHeaderChunk_flags r chunk idx r' :
  header_done r = false ->
  RecvHeaderChunk r chunk idx = Some r' ->
  block_done r' = block_done r /\
  header_chunk_count r' = header_chunk_count r /\
  total_chunks_consumed r'
  = size_wrap size_bits (total_chunks_consumed r + 1).
Proof.
  intros Hnd. unfold Receiver.RecvHeaderChunk. rewrite Hnd. cbn zeta.
  destruct (ProvideChunk _ _ _) as [ok d1]. destruct ok; [|discriminate].
  cbn [negb].
  destruct (DecodeReady fountain_solvable d1) as [ready d2].
  destruct ready.
  - destruct (GetDataPtr_each GetDataPtr d2 _) as [chunks d3].
    destruct (Receiver_header_data _ _) as [header_data|]; [|discriminate].
    destruct (InitData _ _) as [pb|]; [|discriminate].
    intros [= <-]. cbn. auto.
  - intros [= <-]. cbn. auto.
Qed.

Lemma RecvHeaderChunk_run_done calls : forall r,
  header_done r = true -> RecvHeaderChunk_run r calls = Some r.
Proof.
  induction calls as [|[chunk idx] calls IH]; intros r Hd; [reflexivity|].
  cbn [Receiver.RecvHeaderChunk_run]. unfold Receiver.RecvHeaderChunk.
  rewrite Hd. apply IH, Hd.
Qed.

Lemma DecodeReady_chunk_count d :
  chunk_count (DecodeReady fountain_solvable d).2 = chunk_count d.
Proof.
  rewrite decoder_facts.DecodeReady_unfold.
  destruct (decodeComplete d); [reflexivity|]. destruct (_ && _); reflexivity.
Qed.

Lemma RecvHeaderChunk_run_done_Some calls r :
  header_done r = true -> is_Some (RecvHeaderChunk_run r calls).
Proof. intros Hd. rewrite RecvHeaderChunk_run_done by exact Hd. eauto. Qed.

Lemma GetDataPtr_each_whole ids : forall d,
  (forall d0 id, FEC_CHUNK_SIZE <= length (GetDataPtr d0 id).1) ->
  length (GetDataPtr_each GetDataPtr d ids).1 = length ids /\
  Forall (fun bytes => FEC_CHUNK_SIZE <= length bytes)
    (GetDataPtr_each GetDataPtr d ids).1.
Proof.
  clear InitData FinalizeBlock fountain_solvable cap0 size_bits.
  induction ids as [|i ids IH]; intros d Hw; [split; constructor|].
  cbn [GetDataPtr_each]. pose proof (Hw d (uint32_of_size_t i)) as Hi.
  destruct (GetDataPtr d (uint32_of_size_t i)) as [bytes d1].
  destruct (IH d1 Hw) as [Hlen Hall].
  destruct (GetDataPtr_each GetDataPtr d1 ids) as [rest d2].
  cbn [fst length] in *. split; [congruence|]. constructor; assumption.
Qed.

(** A run of [RecvHeaderChunk] calls with chunks that the decoder takes as
    valid passes every assertion, when the header that is read is
    accepted. *)
Lemma RecvHeaderChunk_run_valid calls : forall r,
  (forall d id, FEC_CHUNK_SIZE <= length (GetDataPtr d id).1) ->
  (forall pb bytes, is_Some (InitData pb bytes)) ->
  Forall (fun call => chunk_input_valid (decoder r) call.1
                        (uint32_of_size_t call.2) = true) calls ->
  is_Some (RecvHeaderChunk_run r calls).
Proof.
  induction calls as [|[chunk idx] calls IH]; intros r Hw Hinit Hv; [eauto|].
  destruct (header_done r) eqn:Hd.
  { rewrite RecvHeaderChunk_run_done by exact Hd. eauto. }
  apply Forall_cons_1 in Hv as [Hv1 Hv]. cbn [fst snd] in Hv1.
  cbn [Receiver.RecvHeaderChunk_run]. unfold Receiver.RecvHeaderChunk.
  rewrite Hd.
  pose proof (decoder_facts.ProvideChunk_chunk_count (decoder r) chunk
                (uint32_of_size_t idx)) as Hc1.
  assert (Hok : (ProvideChunk (decoder r) chunk (uint32_of_size_t idx)).1 = true)
    by (rewrite (decoder_facts.ProvideChunk_valid _ _ _ Hv1); reflexivity).
  destruct (ProvideChunk (decoder r) chunk (uint32_of_size_t idx)) as [ok d1].
  cbn [fst snd] in Hc1, Hok. subst ok. cbn [negb].
  pose proof (DecodeReady_chunk_count d1) as Hc2.
  destruct (DecodeReady fountain_solvable d1) as [ready d2]. cbn [snd] in Hc2.
  destruct ready.
  - destruct (GetDataPtr_each_whole (seq 0 (header_chunk_count r)) d2 Hw)
      as [Hlen Hall].
    destruct (GetDataPtr_each GetDataPtr d2 (seq 0 (header_chunk_count r)))
      as [chunks d3]. cbn [fst] in Hlen, Hall. rewrite length_seq in Hlen.
    rewrite bench_facts.Receiver_header_data_concat.
    + destruct (Hinit (partialBlock r)
                  (concat ((fun i => take FEC_CHUNK_SIZE (default [] (chunks !! i)))
                             <$> seq 0 (header_chunk_count r)))) as [pb ->].
      apply RecvHeaderChunk_run_done_Some. reflexivity.
    + intros i Hi. destruct (lookup_lt_is_Some_2 chunks i) as [bytes Hb]; [lia|].
      rewrite Hb. cbn. eapply (proj1 (list.Forall_forall _ _) Hall).
      eapply list_elem_of_lookup_2. exact Hb.
  - apply IH; [exact Hw|exact Hinit|]. cbn [decoder received].
    eapply list.Forall_impl; [exact Hv|]. intros [c i] Hci. cbn [fst snd] in *.
    rewrite <- Hci. apply decoder_facts.chunk_input_valid_ext. congruence.
Qed.

Lemma RecvBlockChunk_run_done calls : forall r,
  block_done r = true ->
  RecvBlockChunk_run r calls = Some (replicate (length calls) true, r).
Proof.
  induction calls as [|[chunk idx] calls IH]; intros r Hd; [reflexivity|].
  cbn [Receiver.RecvBlockChunk_run]. unfold Receiver.RecvBlockChunk.
  rewrite Hd, (IH r Hd). reflexivity.
Qed.

End Collaborators.

Lemma size_wrap_bounds (size_bits x : Z) :
  (0 <= x < 2 ^ size_bits)%Z ->
  (0 <= size_wrap size_bits (x + 1) < 2 ^ size_bits)%Z.
Proof. intros Hx. unfold size_wrap. apply Z.mod_pos_bound. lia. Qed.

Lemma size_wrap_small (size_bits x : Z) :
  (0 <= x < 2 ^ size_bits)%Z -> size_wrap size_bits x = x.
Proof. intros Hx. unfold size_wrap. apply Z.mod_small. exact Hx. Qed.

(** The partial block of the examples obeys the laws. *)
Lemma table_laws :
  partial_block_laws table table_available table_chunk table_write table_mark.
Proof. split; reflexivity. Qed.

End receiver_facts.

(** X12.  [Receiver::RecvBlockChunk] never overwrites a chunk of the
    partial block that is already available, and never takes its
    availability away: in the partial block that the call leaves, or hands
    to [FinalizeBlock] when it completes the block, every chunk that was
    available is available with the same bytes.  A missing data chunk with
    the index of the call holds the chunk received, and the chunks at or
    after [DIV_CEIL(block_size, FEC_CHUNK_SIZE)] are never touched. *)
Theorem RecvBlockChunk_keeps_available_chunks
  (PartialBlock : Type)
  (IsChunkAvailable : PartialBlock -> nat -> bool)
  (GetChunk : PartialBlock -> nat -> list byte)
  (WriteChunk : PartialBlock -> nat -> list byte -> PartialBlock)
  (MarkChunkAvailable : PartialBlock -> nat -> PartialBlock)
  (FinalizeBlock : PartialBlock -> option PartialBlock)
  (GetDataPtr : FECDecoder -> N -> list byte * FECDecoder)
  (fountain_solvable : nat -> list N -> bool) (size_bits : Z)
  (r : Receiver.t PartialBlock) (chunk : list byte) (idx : nat)
  (b : bool) (r' : Receiver.t PartialBlock) :
  Receiver.partial_block_laws PartialBlock IsChunkAvailable GetChunk WriteChunk
    MarkChunkAvailable ->
  Receiver.block_done r = false ->
  Receiver.RecvBlockChunk PartialBlock IsChunkAvailable WriteChunk
    MarkChunkAvailable FinalizeBlock GetDataPtr fountain_solvable size_bits
    r chunk idx = Some (b, r') ->
  let D := DIV_CEIL (Receiver.block_size r) FEC_CHUNK_SIZE in
  let pb := Receiver.partialBlock r in
  exists pb2,
    (if b then FinalizeBlock pb2 = Some (Receiver.partialBlock r')
     else pb2 = Receiver.partialBlock r') /\
    (forall j, IsChunkAvailable pb j = true ->
       IsChunkAvailable pb2 j = true /\ GetChunk pb2 j = GetChunk pb j) /\
    (idx < D -> IsChunkAvailable pb idx = false ->
       FEC_CHUNK_SIZE <= length chunk /\
       IsChunkAvailable pb2 idx = true /\
       GetChunk pb2 idx = take FEC_CHUNK_SIZE chunk) /\
    (forall j, D <= j ->
       IsChunkAvailable pb2 j = IsChunkAvailable pb j /\
       GetChunk pb2 j = GetChunk pb j).
Proof.
  intros L Hnd Hcall D pb.
  destruct (receiver_facts.RecvBlockChunk_inv _ _ _ _ _ _ _ _ _ _ _ _ _ Hnd Hcall)
    as (pb1 & Hstore & _ & _ & Hout). fold D in Hstore, Hout.
  destruct (receiver_facts.store_block_chunk_spec _ _ _ _ _ _ _ _ _ _ L Hstore)
    as (Hlen & Hst). fold pb in Hlen, Hst.
  assert (Hpb1 :
    (forall j, IsChunkAvailable pb j = true ->
       IsChunkAvailable pb1 j = true /\ GetChunk pb1 j = GetChunk pb j) /\
    (idx < D -> IsChunkAvailable pb idx = false ->
       FEC_CHUNK_SIZE <= length chunk /\
       IsChunkAvailable pb1 idx = true /\
       GetChunk pb1 idx = take FEC_CHUNK_SIZE chunk) /\
    (forall j, D <= j ->
       IsChunkAvailable pb1 j = IsChunkAvailable pb j /\
       GetChunk pb1 j = GetChunk pb j)).
  { split; [|split].
    - intros j Hj. destruct (Hst j) as [-> ->]. rewrite Hj, orb_true_r.
      split; [reflexivity|].
      destruct (Nat.eqb_spec j idx) as [->|_]; [|reflexivity].
      rewrite Hj, andb_false_r. reflexivity.
    - intros Hidx Hmiss. destruct (Hst idx) as [-> ->].
      apply Nat.ltb_lt in Hidx. rewrite Hmiss, Hidx, Nat.eqb_refl in *.
      split; [apply Hlen; reflexivity|]. split; reflexivity.
    - intros j Hj. destruct (Hst j) as [-> ->].
      destruct (Nat.eqb_spec j idx) as [->|_]; [|split; reflexivity].
      destruct (Nat.ltb_spec idx D); [lia|]. split; reflexivity. }
  destruct b.
  - destruct Hout as (pb2 & d3 & pb3 & Hfill & Hfin & ->).
    pose proof (receiver_facts.fold_fill_frame _ _ _ _ _ _ (seq 0 D)
                  _ _ _ _ L Hfill) as Hfr.
    destruct Hpb1 as (Hkeep & Hidx & Hout).
    exists pb2. split; [exact Hfin|]. split; [|split].
    + intros j Hj. destruct (Hkeep j Hj) as [Ha <-]. destruct (Hfr j) as [Hav Hk].
      split; [apply Hav; auto|apply Hk; auto].
    + intros Hi Hmiss. destruct (Hidx Hi Hmiss) as (Hl & Ha & <-).
      destruct (Hfr idx) as [Hav Hk]. split; [exact Hl|].
      split; [apply Hav; auto|apply Hk; auto].
    + intros j Hj. destruct (Hout j Hj) as [<- <-]. destruct (Hfr j) as [Hav Hk].
      assert (Hnot : j ∉ seq 0 D) by (rewrite elem_of_seq; lia).
      split; [|apply Hk; auto].
      apply eq_true_iff_eq. rewrite Hav. tauto.
  - subst r'. exists pb1. split; [reflexivity|exact Hpb1].
Qed.

Lemma RecvBlockChunk_keeps_available_chunks_witness :
  let GetDataPtr := fun (d : FECDecoder) (_ : N) => (replicate FEC_CHUNK_SIZE x07, d) in
  let r := {| Receiver.decoder := FECDecoder_new 4 2000 USE_MEMORY;
              Receiver.partialBlock := Receiver.table_mark Receiver.table_empty 1;
              Receiver.header_done := true; Receiver.block_done := false;
              Receiver.expecting_full_block := true;
              Receiver.header_chunk_count := 1; Receiver.block_size := 2000;
              Receiver.total_chunks_consumed := 0;
              Receiver.total_chunks_in_mempool := 0;
              Receiver.non_fec_chunks := 0 |} in
  let chunk := replicate FEC_CHUNK_SIZE x2a in
  exists r',
    Receiver.RecvBlockChunk Receiver.table Receiver.table_available
      Receiver.table_write Receiver.table_mark Some GetDataPtr
      (fun _ _ => true) 64 r chunk 0 = Some (false, r') /\
    exists pb2,
      pb2 = Receiver.partialBlock r' /\
      (forall j, Receiver.table_available (Receiver.partialBlock r) j = true ->
         Receiver.table_available pb2 j = true /\
         Receiver.table_chunk pb2 j
         = Receiver.table_chunk (Receiver.partialBlock r) j) /\
      (0 < DIV_CEIL 2000 FEC_CHUNK_SIZE ->
       Receiver.table_available (Receiver.partialBlock r) 0 = false ->
         FEC_CHUNK_SIZE <= length chunk /\
         Receiver.table_available pb2 0 = true /\
         Receiver.table_chunk pb2 0 = take FEC_CHUNK_SIZE chunk) /\
      (forall j, DIV_CEIL 2000 FEC_CHUNK_SIZE <= j ->
         Receiver.table_available pb2 j
         = Receiver.table_available (Receiver.partialBlock r) j /\
         Receiver.table_chunk pb2 j
         = Receiver.table_chunk (Receiver.partialBlock r) j).
Proof.
  intros GetDataPtr r chunk. eexists. split; [vm_compute; reflexivity|].
  apply (RecvBlockChunk_keeps_available_chunks Receiver.table
           Receiver.table_available Receiver.table_chunk Receiver.table_write
           Receiver.table_mark Some GetDataPtr (fun _ _ => true) 64 r chunk 0
           false _ receiver_facts.table_laws eq_refl).
  vm_compute. reflexivity.
Defined.

(** X13.  When [Receiver::RecvBlockChunk] completes the block, the partial
    block that it hands to [FinalizeBlock] has all its
    [DIV_CEIL(block_size, FEC_CHUNK_SIZE)] data chunks available, and every
    data chunk that was missing, other than the one just received, holds
    the [FEC_CHUNK_SIZE] bytes that the decoder's [GetDataPtr] points to for
    its index.  The receiver is done with the block afterwards. *)
Theorem RecvBlockChunk_completes_with_every_chunk
  (PartialBlock : Type)
  (IsChunkAvailable : PartialBlock -> nat -> bool)
  (GetChunk : PartialBlock -> nat -> list byte)
  (WriteChunk : PartialBlock -> nat -> list byte -> PartialBlock)
  (MarkChunkAvailable : PartialBlock -> nat -> PartialBlock)
  (FinalizeBlock : PartialBlock -> option PartialBlock)
  (GetDataPtr : FECDecoder -> N -> list byte * FECDecoder)
  (fountain_solvable : nat -> list N -> bool) (size_bits : Z)
  (r : Receiver.t PartialBlock) (chunk : list byte) (idx : nat)
  (r' : Receiver.t PartialBlock) :
  Receiver.partial_block_laws PartialBlock IsChunkAvailable GetChunk WriteChunk
    MarkChunkAvailable ->
  (forall d id id',
     (GetDataPtr (GetDataPtr d id).2 id').1 = (GetDataPtr d id').1) ->
  Receiver.block_done r = false ->
  Receiver.RecvBlockChunk PartialBlock IsChunkAvailable WriteChunk
    MarkChunkAvailable FinalizeBlock GetDataPtr fountain_solvable size_bits
    r chunk idx = Some (true, r') ->
  let D := DIV_CEIL (Receiver.block_size r) FEC_CHUNK_SIZE in
  let pb := Receiver.partialBlock r in
  let d2 := (DecodeReady fountain_solvable
               (ProvideChunk (Receiver.decoder r) chunk
                  (Receiver.uint32_of_size_t idx)).2).2 in
  Receiver.block_done r' = true /\
  exists pb2,
    FinalizeBlock pb2 = Some (Receiver.partialBlock r') /\
    (forall j, j < D -> IsChunkAvailable pb2 j = true) /\
    (forall j, j < D -> j <> idx -> IsChunkAvailable pb j = false ->
       GetChunk pb2 j
       = take FEC_CHUNK_SIZE (GetDataPtr d2 (Receiver.uint32_of_size_t j)).1).
Proof.
  intros L Hst Hnd Hcall D pb d2.
  destruct (receiver_facts.RecvBlockChunk_inv _ _ _ _ _ _ _ _ _ _ _ _ _ Hnd Hcall)
    as (pb1 & Hstore & _ & _ & pb2 & d3 & pb3 & Hfill & Hfin & ->).
  fold D in Hstore, Hfill. fold d2 in Hfill.
  destruct (receiver_facts.store_block_chunk_spec _ _ _ _ _ _ _ _ _ _ L Hstore)
    as (_ & Hs). fold pb in Hs.
  pose proof (receiver_facts.fold_fill_frame _ _ _ _ _ _ (seq 0 D)
                _ _ _ _ L Hfill) as Hfr.
  destruct (receiver_facts.fold_fill_data _ _ _ _ _ _ (seq 0 D)
              _ _ _ _ L Hst Hfill) as (Hdata & _).
  split; [reflexivity|]. exists pb2. split; [exact Hfin|]. split.
  - intros j Hj. apply (Hfr j). right. apply elem_of_seq. lia.
  - intros j Hj Hne Hmiss. apply Hdata; [|apply elem_of_seq; lia].
    destruct (Hs j) as [-> _]. rewrite Hmiss.
    destruct (Nat.eqb_spec j idx); [contradiction|reflexivity].
Qed.

Lemma RecvBlockChunk_completes_with_every_chunk_witness :
  let GetDataPtr := fun (d : FECDecoder) (_ : N) => (replicate FEC_CHUNK_SIZE x07, d) in
  let r := {| Receiver.decoder :=
                (ProvideChunk (FECDecoder_new 4 3000 USE_MEMORY)
                   (replicate FEC_CHUNK_SIZE x01) 200).2;
              Receiver.partialBlock := Receiver.table_empty;
              Receiver.header_done := true; Receiver.block_done := false;
              Receiver.expecting_full_block := true;
              Receiver.header_chunk_count := 1; Receiver.block_size := 3000;
              Receiver.total_chunks_consumed := 1;
              Receiver.total_chunks_in_mempool := 0;
              Receiver.non_fec_chunks := 0 |} in
  let r1 := default r (snd <$> Receiver.RecvBlockChunk Receiver.table
              Receiver.table_available Receiver.table_write Receiver.table_mark
              Some GetDataPtr (fun _ _ => true) 64 r
              (replicate FEC_CHUNK_SIZE x2a) 1) in
  let chunk := replicate FEC_CHUNK_SIZE x2b in
  exists r',
    Receiver.RecvBlockChunk Receiver.table Receiver.table_available
      Receiver.table_write Receiver.table_mark Some GetDataPtr
      (fun _ _ => true) 64 r1 chunk 77 = Some (true, r') /\
    Receiver.block_done r' = true /\
    exists pb2,
      Some pb2 = Some (Receiver.partialBlock r') /\
      (forall j, j < DIV_CEIL 3000 FEC_CHUNK_SIZE ->
         Receiver.table_available pb2 j = true) /\
      (forall j, j < DIV_CEIL 3000 FEC_CHUNK_SIZE -> j <> 77 ->
         Receiver.table_available (Receiver.partialBlock r1) j = false ->
         Receiver.table_chunk pb2 j = take FEC_CHUNK_SIZE (replicate FEC_CHUNK_SIZE x07)).
Proof.
  intros GetDataPtr r r1 chunk. eexists. split; [vm_compute; reflexivity|].
  apply (RecvBlockChunk_completes_with_every_chunk Receiver.table
           Receiver.table_available Receiver.table_chunk Receiver.table_write
           Receiver.table_mark Some GetDataPtr (fun _ _ => true) 64 r1 chunk 77
           _ receiver_facts.table_laws (fun _ _ _ => eq_refl));
    vm_compute; reflexivity.
Defined.



(** X15.  Over a run of [Receiver::RecvBlockChunk] calls none of which stops
    at an assertion, the calls return [false] up to the one that completes
    the block and [true] from it on; the chunks received after the block is
    done are not counted: [total_chunks_consumed] grows, modulo the range
    of [size_t], by the number of calls up to and including the completing
    one. *)
Theorem RecvBlockChunk_returns_false_then_true
  (PartialBlock : Type)
  (IsChunkAvailable : PartialBlock -> nat -> bool)
  (WriteChunk : PartialBlock -> nat -> list byte -> PartialBlock)
  (MarkChunkAvailable : PartialBlock -> nat -> PartialBlock)
  (FinalizeBlock : PartialBlock -> option PartialBlock)
  (GetDataPtr : FECDecoder -> N -> list byte * FECDecoder)
  (fountain_solvable : nat -> list N -> bool) (size_bits : Z)
  (calls : list (list byte * nat))
  (r : Receiver.t PartialBlock) (bs : list bool) (r' : Receiver.t PartialBlock) :
  Receiver.block_done r = false ->
  (0 <= Receiver.total_chunks_consumed r < 2 ^ size_bits)%Z ->
  Receiver.RecvBlockChunk_run PartialBlock IsChunkAvailable WriteChunk
    MarkChunkAvailable FinalizeBlock GetDataPtr fountain_solvable size_bits
    r calls = Some (bs, r') ->
  exists k,
    k <= length calls /\
    bs = replicate k false ++ replicate (length calls - k) true /\
    Receiver.block_done r' = negb (k =? length calls) /\
    Receiver.total_chunks_consumed r'
    = size_wrap size_bits
        (Receiver.total_chunks_consumed r
         + Z.of_nat (Nat.min (S k) (length calls)))%Z.
Proof.
  revert r bs r'.
  induction calls as [|[chunk idx] calls IH]; intros r bs r' Hnd Hrange.
  - intros [= <- <-]. exists 0. rewrite Hnd. cbn.
    rewrite Z.add_0_r, receiver_facts.size_wrap_small by exact Hrange. auto.
  - cbn [Receiver.RecvBlockChunk_run].
    destruct (Receiver.RecvBlockChunk _ _ _ _ _ _ _ _ r chunk idx)
      as [[b r1]|] eqn:Hcall; [|discriminate].
    destruct (receiver_facts.RecvBlockChunk_inv _ _ _ _ _ _ _ _ _ _ _ _ _ Hnd Hcall)
      as (pb1 & _ & _ & _ & Hout).
    destruct b.
    + destruct Hout as (pb2 & d3 & pb3 & _ & _ & ->).
      rewrite receiver_facts.RecvBlockChunk_run_done by reflexivity.
      intros [= <- <-]. exists 0. cbn [length replicate app Nat.min].
      rewrite Nat.sub_0_r. split; [lia|]. split; [reflexivity|].
      split; reflexivity.
    + subst r1.
      destruct (Receiver.RecvBlockChunk_run _ _ _ _ _ _ _ _ _ calls)
        as [[bs1 r2]|] eqn:Hrun; [|discriminate].
      intros [= <- <-].
      apply IH in Hrun as (k & Hk & Hbs & Hdone & Htotal);
        [|reflexivity|apply receiver_facts.size_wrap_bounds, Hrange].
      exists (S k). cbn [length]. split; [lia|]. split; [|split].
      * rewrite Hbs. reflexivity.
      * rewrite Hdone. reflexivity.
      * rewrite Htotal. cbn [Receiver.total_chunks_consumed Receiver.received].
        rewrite receiver_facts.size_wrap_add. f_equal.
        change (Nat.min (S (S k)) (S (length calls)))
          with (S (Nat.min (S k) (length calls))). lia.
Qed.

Lemma RecvBlockChunk_returns_false_then_true_witness :
  let GetDataPtr := fun (d : FECDecoder) (_ : N) => (replicate FEC_CHUNK_SIZE x07, d) in
  let r := {| Receiver.decoder := FECDecoder_new 4 2000 USE_MEMORY;
              Receiver.partialBlock := Receiver.table_empty;
              Receiver.header_done := true; Receiver.block_done := false;
              Receiver.expecting_full_block := true;
              Receiver.header_chunk_count := 1; Receiver.block_size := 2000;
              Receiver.total_chunks_consumed := 7;
              Receiver.total_chunks_in_mempool := 0;
              Receiver.non_fec_chunks := 0 |} in
  let calls := [(replicate FEC_CHUNK_SIZE x2a, 0);
                (replicate FEC_CHUNK_SIZE x2b, 9);
                (replicate FEC_CHUNK_SIZE x2c, 1)] in
  exists bs r',
    Receiver.RecvBlockChunk_run Receiver.table Receiver.table_available
      Receiver.table_write Receiver.table_mark Some GetDataPtr
      (fun _ _ => true) 64 r calls = Some (bs, r') /\
    bs = [false; true; true] /\
    Receiver.total_chunks_consumed r' = 9%Z /\
    exists k,
      k <= length calls /\
      bs = replicate k false ++ replicate (length calls - k) true /\
      Receiver.block_done r' = negb (k =? length calls) /\
      Receiver.total_chunks_consumed r'
      = size_wrap 64
          (Receiver.total_chunks_consumed r
           + Z.of_nat (Nat.min (S k) (length calls)))%Z.
Proof.
  intros GetDataPtr r calls. eexists _, _. split; [vm_compute; reflexivity|].
  split; [reflexivity|]. split; [reflexivity|].
  apply (RecvBlockChunk_returns_false_then_true Receiver.table
           Receiver.table_available Receiver.table_write Receiver.table_mark
           Some GetDataPtr (fun _ _ => true) 64 calls r).
  - reflexivity.
  - cbn. lia.
  - vm_compute. reflexivity.
Defined.

(** X16.  [Receiver::RecvHeaderChunk] on a header that is not done: the
    chunk is counted, and the header is done exactly when the decoder is
    ready after the chunk was provided.  The header then read from the
    stream is the first [header_chunk_count] chunks of the decoder, one
    after the other, [header_chunk_count * FEC_CHUNK_SIZE] bytes; while the
    decoder is not ready the partial block is left alone. *)
Theorem RecvHeaderChunk_reads_the_decoded_chunks
  (PartialBlock : Type)
  (InitData : PartialBlock -> list byte -> option PartialBlock)
  (GetDataPtr : FECDecoder -> N -> list byte * FECDecoder)
  (fountain_solvable : nat -> list N -> bool) (size_bits : Z)
  (r : Receiver.t PartialBlock) (chunk : list byte) (idx : nat)
  (r' : Receiver.t PartialBlock) :
  (forall d id, FEC_CHUNK_SIZE <= length (GetDataPtr d id).1) ->
  (forall d id id',
     (GetDataPtr (GetDataPtr d id).2 id').1 = (GetDataPtr d id').1) ->
  Receiver.header_done r = false ->
  Receiver.RecvHeaderChunk PartialBlock InitData GetDataPtr fountain_solvable
    size_bits r chunk idx = Some r' ->
  let ready := DecodeReady fountain_solvable
                 (ProvideChunk (Receiver.decoder r) chunk
                    (Receiver.uint32_of_size_t idx)).2 in
  let header_data :=
    concat ((fun i => take FEC_CHUNK_SIZE
                        (GetDataPtr ready.2 (Receiver.uint32_of_size_t i)).1)
              <$> seq 0 (Receiver.header_chunk_count r)) in
  Receiver.total_chunks_consumed r'
  = size_wrap size_bits (Receiver.total_chunks_consumed r + 1) /\
  Receiver.header_done r' = ready.1 /\
  length header_data = Receiver.header_chunk_count r * FEC_CHUNK_SIZE /\
  (ready.1 = true ->
   InitData (Receiver.partialBlock r) header_data
   = Some (Receiver.partialBlock r')) /\
  (ready.1 = false -> Receiver.partialBlock r' = Receiver.partialBlock r).
Proof.
  intros Hw Hst Hnd Hcall ready header_data.
  destruct (receiver_facts.RecvHeaderChunk_inv _ _ _ _ _ _ _ _ _ Hw Hst Hnd Hcall)
    as (_ & Hdone & _ & Htotal & Hout).
  fold ready in Hdone, Hout. fold header_data in Hout.
  split; [exact Htotal|]. split; [exact Hdone|]. split.
  - subst header_data.
    assert (Hlen : forall n k,
      length (concat ((fun i => take FEC_CHUNK_SIZE
                                  (GetDataPtr ready.2
                                     (Receiver.uint32_of_size_t i)).1)
                        <$> seq k n)) = n * FEC_CHUNK_SIZE).
    { induction n as [|n IH]; intros k; [reflexivity|].
      cbn [seq fmap list_fmap concat]. rewrite length_app, length_take, IH.
      rewrite Nat.min_l by apply Hw. lia. }
    apply Hlen.
  - destruct ready.1; split; intros Hr; try discriminate; exact Hout.
Qed.

Lemma RecvHeaderChunk_reads_the_decoded_chunks_witness :
  let GetDataPtr := fun (d : FECDecoder) (id : N) =>
    (replicate FEC_CHUNK_SIZE (if N.eqb id 0 then x07 else x08), d) in
  let InitData := fun (pb : Receiver.table) (bytes : list byte) =>
    Some (Receiver.table_write pb 0 bytes) in
  let r := Receiver.InitHeader Receiver.table 4 64
             {| Receiver.decoder := FECDecoder_new 4 0 USE_MEMORY;
                Receiver.partialBlock := Receiver.table_empty;
                Receiver.header_done := false; Receiver.block_done := false;
                Receiver.expecting_full_block := true;
                Receiver.header_chunk_count := 0; Receiver.block_size := 0;
                Receiver.total_chunks_consumed := 0;
                Receiver.total_chunks_in_mempool := 0;
                Receiver.non_fec_chunks := 0 |} 2000 in
  let r1 := default r (Receiver.RecvHeaderChunk Receiver.table InitData
              GetDataPtr (fun _ _ => true) 64 r
              (replicate FEC_CHUNK_SIZE x2a) 1) in
  let chunk := replicate FEC_CHUNK_SIZE x2b in
  let ready := DecodeReady (fun _ _ => true)
                 (ProvideChunk (Receiver.decoder r1) chunk
                    (Receiver.uint32_of_size_t 0)).2 in
  let header_data :=
    concat ((fun i => take FEC_CHUNK_SIZE
                        (GetDataPtr ready.2 (Receiver.uint32_of_size_t i)).1)
              <$> seq 0 (Receiver.header_chunk_count r1)) in
  exists r',
    Receiver.RecvHeaderChunk Receiver.table InitData GetDataPtr
      (fun _ _ => true) 64 r1 chunk 0 = Some r' /\
    ready.1 = true /\
    Receiver.total_chunks_consumed r'
    = size_wrap 64 (Receiver.total_chunks_consumed r1 + 1) /\
    Receiver.header_done r' = ready.1 /\
    length header_data = Receiver.header_chunk_count r1 * FEC_CHUNK_SIZE /\
    (ready.1 = true ->
     InitData (Receiver.partialBlock r1) header_data
     = Some (Receiver.partialBlock r')) /\
    (ready.1 = false -> Receiver.partialBlock r' = Receiver.partialBlock r1).
Proof.
  intros GetDataPtr InitData r r1 chunk ready header_data.
  eexists. split; [vm_compute; reflexivity|]. split; [vm_compute; reflexivity|].
  apply (RecvHeaderChunk_reads_the_decoded_chunks Receiver.table InitData
           GetDataPtr (fun _ _ => true) 64 r1 chunk 0).
  - intros d id. cbn [fst GetDataPtr]. rewrite length_replicate. lia.
  - intros d id id'. reflexivity.
  - vm_compute. reflexivity.
  - vm_compute. reflexivity.
Defined.

(** X17.  Over a run of [Receiver::RecvHeaderChunk] calls none of which
    stops at an assertion, the chunks that arrive once the header is done
    are dropped without being counted: [total_chunks_consumed] grows,
    modulo the range of [size_t], by the number of calls up to and
    including the one that completed the header.  The header never becomes
    undone, and the calls leave [block_done] and [header_chunk_count] as
    they are. *)
Theorem RecvHeaderChunk_counts_until_the_header_is_done
  (PartialBlock : Type)
  (InitData : PartialBlock -> list byte -> option PartialBlock)
  (GetDataPtr : FECDecoder -> N -> list byte * FECDecoder)
  (fountain_solvable : nat -> list N -> bool) (size_bits : Z)
  (calls : list (list byte * nat))
  (r r' : Receiver.t PartialBlock) :
  (0 <= Receiver.total_chunks_consumed r < 2 ^ size_bits)%Z ->
  Receiver.RecvHeaderChunk_run PartialBlock InitData GetDataPtr
    fountain_solvable size_bits r calls = Some r' ->
  (Receiver.header_done r = true -> r' = r) /\
  (Receiver.header_done r = false ->
   exists k,
     k <= length calls /\
     Receiver.header_done r' = negb (k =? length calls) /\
     Receiver.total_chunks_consumed r'
     = size_wrap size_bits
         (Receiver.total_chunks_consumed r
          + Z.of_nat (Nat.min (S k) (length calls)))%Z) /\
  Receiver.block_done r' = Receiver.block_done r /\
  Receiver.header_chunk_count r' = Receiver.header_chunk_count r.
Proof.
  revert r r'.
  induction calls as [|[chunk idx] calls IH]; intros r r' Hrange.
  - intros [= <-]. split; [reflexivity|]. split; [|auto].
    intros Hnd. exists 0. rewrite Hnd. cbn.
    rewrite Z.add_0_r, receiver_facts.size_wrap_small by exact Hrange. auto.
  - destruct (Receiver.header_done r) eqn:Hd.
    + rewrite receiver_facts.RecvHeaderChunk_run_done by exact Hd.
      intros [= <-]. split; [reflexivity|]. split; [discriminate|auto].
    + cbn [Receiver.RecvHeaderChunk_run].
      destruct (Receiver.RecvHeaderChunk _ _ _ _ _ r chunk idx) as [r1|] eqn:Hcall;
        [|discriminate].
      destruct (receiver_facts.RecvHeaderChunk_flags _ _ _ _ _ _ _ _ _ Hd Hcall)
        as (Hb & Hc & Ht).
      intros Hrun.
      assert (Hrange1 : (0 <= Receiver.total_chunks_consumed r1 < 2 ^ size_bits)%Z)
        by (rewrite Ht; apply receiver_facts.size_wrap_bounds, Hrange).
      destruct (IH r1 r' Hrange1 Hrun) as (Hdone & Hnot & Hb' & Hc').
      split; [discriminate|]. split; [|split; congruence]. intros _.
      destruct (Receiver.header_done r1) eqn:Hd1.
      * rewrite (Hdone eq_refl). exists 0. cbn [length Nat.min].
        split; [lia|]. split; [rewrite Hd1; reflexivity|exact Ht].
      * destruct (Hnot eq_refl) as (k & Hk & Hdk & Htk).
        exists (S k). cbn [length]. split; [lia|]. split; [exact Hdk|].
        rewrite Htk, Ht, receiver_facts.size_wrap_add. f_equal.
        change (Nat.min (S (S k)) (S (length calls)))
          with (S (Nat.min (S k) (length calls))). lia.
Qed.

Lemma RecvHeaderChunk_counts_until_the_header_is_done_witness :
  let GetDataPtr := fun (d : FECDecoder) (_ : N) => (replicate FEC_CHUNK_SIZE x07, d) in
  let InitData := fun (pb : Receiver.table) (bytes : list byte) => Some pb in
  let r := Receiver.InitHeader Receiver.table 4 64
             {| Receiver.decoder := FECDecoder_new 4 0 USE_MEMORY;
                Receiver.partialBlock := Receiver.table_empty;
                Receiver.header_done := false; Receiver.block_done := false;
                Receiver.expecting_full_block := true;
                Receiver.header_chunk_count := 0; Receiver.block_size := 0;
                Receiver.total_chunks_consumed := 0;
                Receiver.total_chunks_in_mempool := 0;
                Receiver.non_fec_chunks := 0 |} 2000 in
  let calls := [(replicate FEC_CHUNK_SIZE x2a, 1);
                (replicate FEC_CHUNK_SIZE x2a, 1);
                (replicate FEC_CHUNK_SIZE x2b, 40);
                (replicate FEC_CHUNK_SIZE x2c, 0);
                (replicate FEC_CHUNK_SIZE x2d, 41)] in
  exists r',
    Receiver.RecvHeaderChunk_run Receiver.table InitData GetDataPtr
      (fun _ _ => true) 64 r calls = Some r' /\
    Receiver.total_chunks_consumed r' = 3%Z /\
    (Receiver.header_done r = true -> r' = r) /\
    (Receiver.header_done r = false ->
     exists k,
       k <= length calls /\
       Receiver.header_done r' = negb (k =? length calls) /\
       Receiver.total_chunks_consumed r'
       = size_wrap 64
           (Receiver.total_chunks_consumed r
            + Z.of_nat (Nat.min (S k) (length calls)))%Z) /\
    Receiver.block_done r' = Receiver.block_done r /\
    Receiver.header_chunk_count r' = Receiver.header_chunk_count r.
Proof.
  intros GetDataPtr InitData r calls.
  eexists. split; [vm_compute; reflexivity|]. split; [reflexivity|].
  apply (RecvHeaderChunk_counts_until_the_header_is_done Receiver.table InitData
           GetDataPtr (fun _ _ => true) 64 calls r).
  - cbn. lia.
  - vm_compute. reflexivity.
Defined.

(** ** Runs of the decoder and of the encoder *)

Module decoder_more_facts.

Lemma provided_ids_ext d d' cs :
  chunk_count d' = chunk_count d -> provided_ids d' cs = provided_ids d cs.
Proof.
  intros Hc. unfold provided_ids. induction cs as [|c cs IH]; [reflexivity|].
  cbn [omap list_omap]. rewrite IH.
  destruct c; try reflexivity.
  rewrite (decoder_facts.chunk_input_valid_ext d d') by exact Hc. reflexivity.
Qed.

(** What [DecodeReady] leaves alone. *)
Lemma DecodeReady_frame fs d :
  chunk_count (DecodeReady fs d).2 = chunk_count d /\
  chunks_recvd (DecodeReady fs d).2 = chunks_recvd d /\
  chunk_tracker (DecodeReady fs d).2 = chunk_tracker d.
Proof.
  rewrite decoder_facts.DecodeReady_unfold.
  destruct (decodeComplete d); [auto|]. destruct (_ && _); auto.
Qed.

(** The decoder counts the ids that its tracker holds. *)
Lemma decoder_run_counts fs cs : forall d seen,
  decoder_wf d -> NoDup seen ->
  (forall y, CheckPresent (chunk_tracker d) y = true <-> y ∈ seen) ->
  chunks_recvd d = length seen ->
  exists seen',
    NoDup seen' /\
    (forall y, CheckPresent (chunk_tracker (decoder_run fs d cs).2) y = true
               <-> y ∈ seen') /\
    chunks_recvd (decoder_run fs d cs).2 = length seen' /\
    (forall y, y ∈ seen' <-> y ∈ seen \/ y ∈ provided_ids d cs) /\
    chunk_count (decoder_run fs d cs).2 = chunk_count d.
Proof.
  induction cs as [|c cs IH]; intros d seen Hwf Hnd Hq Hn.
  - exists seen. cbn. split; [exact Hnd|]. split; [exact Hq|]. split; [exact Hn|].
    split; [|reflexivity]. intros y. rewrite elem_of_nil. tauto.
  - rewrite decoder_facts.decoder_run_cons. cbn [snd].
    assert (Hstep : exists seen1,
      decoder_wf (decoder_step fs d c).2 /\ NoDup seen1 /\
      chunk_count (decoder_step fs d c).2 = chunk_count d /\
      (forall y, CheckPresent (chunk_tracker (decoder_step fs d c).2) y = true
                 <-> y ∈ seen1) /\
      chunks_recvd (decoder_step fs d c).2 = length seen1 /\
      (forall y, y ∈ seen1 <-> y ∈ seen \/ y ∈ provided_ids d [c])).
    { pose proof (decoder_facts.decoder_step_wf fs d c Hwf) as Hwf1.
      destruct c as [chunk id|id| | |]; cbn [decoder_step provided_ids omap list_omap].
      - destruct (chunk_input_valid d chunk id) eqn:Hv.
        + cbn [decoder_step] in Hwf1.
          rewrite (decoder_facts.ProvideChunk_valid _ _ _ Hv) in Hwf1 |- *.
          cbn [snd] in Hwf1 |- *. destruct Hwf as [HD Htr].
          destruct (tracker_facts.CheckPresentAndMarkRecvd_spec _ _ id HD Htr)
            as (Hr & _ & Hq1 & _).
          pose proof (tracker_facts.CheckPresentAndMarkRecvd_present _ _ id HD Htr)
            as Hsame.
          destruct (CheckPresentAndMarkRecvd (chunk_tracker d) id) as [present t1].
          cbn [fst snd] in *. destruct present.
          * exists seen. rewrite (Hsame eq_refl), decoder_facts.with_tracker_same in *.
            split; [exact Hwf1|]. split; [exact Hnd|]. split; [reflexivity|].
            split; [exact Hq|]. split; [exact Hn|].
            intros y. rewrite list_elem_of_singleton. split; [auto|].
            intros [?| ->]; [assumption|]. apply Hq. symmetry. exact Hr.
          * exists (id :: seen).
            rewrite decoder_facts.chunk_count_store_chunk,
              decoder_facts.chunk_tracker_store_chunk,
              decoder_facts.chunks_recvd_store_chunk.
            cbn [chunk_count chunk_tracker chunks_recvd with_tracker length].
            split; [exact Hwf1|]. split.
            { apply list.NoDup_cons. split; [|exact Hnd].
              intros Hin. apply Hq in Hin. congruence. }
            split; [reflexivity|]. split.
            { intros y. rewrite Hq1, elem_of_cons, orb_true_iff, N.eqb_eq, Hq.
              reflexivity. }
            split; [congruence|].
            intros y. rewrite elem_of_cons, list_elem_of_singleton. tauto.
        + cbn [decoder_step] in Hwf1.
          rewrite (decoder_facts.ProvideChunk_invalid _ _ _ Hv) in Hwf1 |- *.
          exists seen. cbn [snd]. repeat (split; [assumption || reflexivity|]).
          intros y. rewrite elem_of_nil. tauto.
      - exists seen. cbn [snd]. repeat (split; [assumption || reflexivity|]).
        intros y. rewrite elem_of_nil. tauto.
      - cbn [decoder_step] in Hwf1.
        destruct (DecodeReady_frame fs d) as (Hc & Hr & Ht).
        destruct (DecodeReady fs d) as [b d1]. cbn [snd] in *.
        exists seen. rewrite Hc, Hr, Ht.
        repeat (split; [assumption || reflexivity|]).
        intros y. rewrite elem_of_nil. tauto.
      - exists seen. cbn [snd]. repeat (split; [assumption || reflexivity|]).
        intros y. rewrite elem_of_nil. tauto.
      - exists seen. cbn [snd]. repeat (split; [assumption || reflexivity|]).
        intros y. rewrite elem_of_nil. tauto. }
    destruct Hstep as (seen1 & Hwf1 & Hnd1 & Hc1 & Hq1 & Hn1 & Hm1).
    destruct (IH _ seen1 Hwf1 Hnd1 Hq1 Hn1)
      as (seen' & Hnd' & Hq' & Hn' & Hm' & Hc').
    exists seen'. split; [exact Hnd'|]. split; [exact Hq'|]. split; [exact Hn'|].
    split; [|congruence]. intros y. rewrite Hm', Hm1, (provided_ids_ext d _ cs Hc1).
    change (provided_ids d (c :: cs)) with (provided_ids d ([c] ++ cs)).
    unfold provided_ids. rewrite omap_app, elem_of_app. tauto.
Qed.

Lemma chunks_recvd_new fs cap0 data_size mode cs :
  0 < cap0 -> 0 < data_size ->
  chunks_recvd (decoder_run fs (FECDecoder_new cap0 data_size mode) cs).2
  = length (remove_dups (provided_ids (FECDecoder_new cap0 data_size mode) cs)).
Proof.
  intros Hcap Hsize.
  destruct (decoder_run_counts fs cs (FECDecoder_new cap0 data_size mode) [])
    as (seen & Hnd & Hq & Hn & Hm & Hc).
  - apply decoder_facts.FECDecoder_new_wf; assumption.
  - constructor.
  - intros y. cbn [FECDecoder_new chunk_tracker].
    rewrite tracker_facts.CheckPresent_new by exact Hcap.
    rewrite elem_of_nil. split; [discriminate|tauto].
  - reflexivity.
  - rewrite Hn. apply Permutation_length.
    apply NoDup_Permutation; [exact Hnd|apply NoDup_remove_dups|].
    intros y. rewrite Hm, elem_of_remove_dups, elem_of_nil. tauto.
Qed.

(** The ids of a run of [ProvideChunk] calls that are all valid. *)
Lemma provided_ids_valid d (f : N -> list byte) ids :
  (forall id, id ∈ ids -> chunk_input_valid d (f id) id = true) ->
  provided_ids d ((fun id => CallProvideChunk (f id) id) <$> ids) = ids.
Proof.
  unfold provided_ids.
  induction ids as [|id ids IH]; intros Hv; [reflexivity|].
  rewrite fmap_cons. cbn [omap list_omap].
  rewrite (Hv id), IH; [reflexivity| |left].
  intros y Hy. apply Hv. right. exact Hy.
Qed.

End decoder_more_facts.

(** X18.  Whatever calls are made on a decoder, [GetChunksRcvd] is the
    number of distinct ids among the chunks that [ProvideChunk] was given
    with valid input, and [HasChunk] holds exactly of these ids: duplicates
    and refused chunks are never counted, and every accepted id is counted
    once. *)
Theorem GetChunksRcvd_counts_the_distinct_ids
  (fountain_solvable : nat -> list N -> bool)
  (cap0 data_size : nat) (mode : MemoryUsageMode) (cs : list decoder_call) :
  0 < cap0 -> 0 < data_size ->
  let d0 := FECDecoder_new cap0 data_size mode in
  let d := (decoder_run fountain_solvable d0 cs).2 in
  GetChunksRcvd d = length (remove_dups (provided_ids d0 cs)) /\
  (forall id, HasChunk d id = true <-> id ∈ provided_ids d0 cs) /\
  GetChunkCount d = DIV_CEIL data_size FEC_CHUNK_SIZE.
Proof.
  intros Hcap Hsize d0 d.
  destruct (decoder_more_facts.decoder_run_counts fountain_solvable cs d0 [])
    as (seen & Hnd & Hq & Hn & Hm & Hc).
  - apply decoder_facts.FECDecoder_new_wf; assumption.
  - constructor.
  - intros y. cbn [d0 FECDecoder_new chunk_tracker].
    rewrite tracker_facts.CheckPresent_new by exact Hcap.
    rewrite elem_of_nil. split; [discriminate|tauto].
  - reflexivity.
  - fold d in Hq, Hn, Hc. split; [|split].
    + unfold GetChunksRcvd. rewrite Hn. apply Permutation_length.
      apply NoDup_Permutation; [exact Hnd|apply NoDup_remove_dups|].
      intros y. rewrite Hm, elem_of_remove_dups, elem_of_nil. tauto.
    + intros id. unfold HasChunk. rewrite Hq, Hm, elem_of_nil. tauto.
    + exact Hc.
Qed.

Lemma GetChunksRcvd_counts_the_distinct_ids_witness :
  let c := replicate FEC_CHUNK_SIZE x2a in
  let cs := [CallProvideChunk c 5; CallProvideChunk c 0; CallDecodeReady;
             CallProvideChunk c 5; CallProvideChunk [x00] 7;
             CallProvideChunk c 300; CallHasChunk 9; CallProvideChunk c 0]%N in
  let d0 := FECDecoder_new 1 3000 USE_MMAP in
  let d := (decoder_run (fun _ _ => false) d0 cs).2 in
  provided_ids d0 cs = [5; 0; 5; 0]%N /\
  GetChunksRcvd d = 2 /\
  GetChunksRcvd d = length (remove_dups (provided_ids d0 cs)) /\
  (forall id, HasChunk d id = true <-> id ∈ provided_ids d0 cs) /\
  GetChunkCount d = DIV_CEIL 3000 FEC_CHUNK_SIZE.
Proof.
  split; [vm_compute; reflexivity|]. split; [vm_compute; reflexivity|].
  apply (GetChunksRcvd_counts_the_distinct_ids (fun _ _ => false) 1 3000 USE_MMAP);
    lia.
Defined.

Module encoder_more_facts.
Section Encoder.
Variable encode_chunk : list byte -> N -> list byte.
Variable RandState : Type.
Variable randrange : RandState -> N -> N * RandState.
Variable id_attempts : nat.
Hypothesis randrange_lt : forall r n, (0 < n)%N -> ((randrange r n).1 < n)%N.

Local Abbreviation build_chunk :=
  (BuildChunk encode_chunk RandState randrange id_attempts).
Local Abbreviation build_each :=
  (BuildChunk_each encode_chunk randrange id_attempts).

(** A call of [BuildChunk] that succeeds found its slot unfilled and put
    there a fresh id of the range of the decoder. *)
Lemma BuildChunk_true enc i enc1 :
  (N.of_nat (encoder_data_chunks enc) < FEC_CHUNK_COUNT_MAX)%N ->
  build_chunk enc i false = (true, enc1) ->
  exists chunk_id,
    (fec_chunks enc).2 !! i = Some 0%N /\
    (N.of_nat (encoder_data_chunks enc) <= chunk_id
     < chunk_id_limit (encoder_data_chunks enc))%N /\
    (chunk_id ∉ (fec_chunks enc).2) /\
    fec_chunks enc1
    = (<[i := encode_chunk (data enc) chunk_id]> (fec_chunks enc).1,
       <[i := chunk_id]> (fec_chunks enc).2) /\
    data enc1 = data enc.
Proof.
  intros HD. unfold BuildChunk.
  destruct ((fec_chunks enc).2 !! i) as [filled|] eqn:Hi; [|discriminate].
  destruct (N.eqb_spec filled 0) as [->|Hne]; cbn [negb andb]; [|discriminate].
  pose proof (encoder_facts.pick_chunk_id_spec RandState randrange randrange_lt
                id_attempts (encoder_data_chunks enc) (fec_chunks enc).2
                (rand enc)) as Hpick.
  destruct (pick_chunk_id RandState randrange id_attempts
              (encoder_data_chunks enc) (fec_chunks enc).2 (rand enc))
    as [[chunk_id|] r]; [|discriminate].
  intros [= <-]. destruct (Hpick chunk_id r HD eq_refl) as [Hrange Hfresh].
  exists chunk_id. cbn. auto.
Qed.

(** The builds of a run that succeeds: the slots were distinct and
    unfilled, the ids put there are fresh and pairwise distinct, and the
    other slots are as before. *)
Lemma BuildChunk_each_spec idxs : forall enc enc',
  (N.of_nat (encoder_data_chunks enc) < FEC_CHUNK_COUNT_MAX)%N ->
  length (fec_chunks enc).1 = length (fec_chunks enc).2 ->
  build_each enc idxs = Some enc' ->
  NoDup idxs /\
  data enc' = data enc /\
  length (fec_chunks enc').1 = length (fec_chunks enc').2 /\
  (forall j, j ∉ idxs ->
     (fec_chunks enc').2 !! j = (fec_chunks enc).2 !! j /\
     (fec_chunks enc').1 !! j = (fec_chunks enc).1 !! j) /\
  (forall j, j ∈ idxs ->
     (fec_chunks enc).2 !! j = Some 0%N /\
     exists chunk_id,
       (fec_chunks enc').2 !! j = Some chunk_id /\
       (N.of_nat (encoder_data_chunks enc) <= chunk_id
        < chunk_id_limit (encoder_data_chunks enc))%N /\
       (chunk_id ∉ (fec_chunks enc).2) /\
       (fec_chunks enc').1 !! j = Some (encode_chunk (data enc) chunk_id)) /\
  (forall j k chunk_id, j ∈ idxs -> k ∈ idxs ->
     (fec_chunks enc').2 !! j = Some chunk_id ->
     (fec_chunks enc').2 !! k = Some chunk_id -> j = k).
Proof.
  induction idxs as [|i idxs IH]; intros enc enc' HD Hlen.
  - intros [= <-]. split; [constructor|]. split; [reflexivity|].
    split; [exact Hlen|]. split; [auto|].
    split; intros; exfalso; eapply elem_of_nil; eassumption.
  - cbn [BuildChunk_each].
    destruct (build_chunk enc i false) as [[|] enc1] eqn:Hb; [|discriminate].
    destruct (BuildChunk_true _ _ _ HD Hb)
      as (id & Hi & Hrange & Hfresh & Htab & Hdata).
    assert (HD1 : encoder_data_chunks enc1 = encoder_data_chunks enc)
      by (unfold encoder_data_chunks; rewrite Hdata; reflexivity).
    assert (Hlen1 : length (fec_chunks enc1).1 = length (fec_chunks enc1).2)
      by (rewrite Htab; cbn; rewrite !length_insert; exact Hlen).
    assert (Hii : i < length (fec_chunks enc).2)
      by (apply lookup_lt_is_Some; eauto).
    assert (Hid0 : id <> 0%N).
    { intros ->. apply Hfresh. eapply list_elem_of_lookup_2. exact Hi. }
    intros Hrun. rewrite <- HD1 in HD.
    destruct (IH enc1 enc' HD Hlen1 Hrun)
      as (Hnd & Hdata' & Hlen' & Hout & Hin & Hdist).
    rewrite HD1, Hdata in *. rewrite Htab in Hout, Hin. cbn [fst snd] in Hout, Hin.
    assert (Hnot : i ∉ idxs).
    { intros Hmem. destruct (Hin i Hmem) as [H0 _].
      rewrite list_lookup_insert_eq in H0 by exact Hii. congruence. }
    assert (Hslot : (fec_chunks enc').2 !! i = Some id /\
                    (fec_chunks enc').1 !! i = Some (encode_chunk (data enc) id)).
    { destruct (Hout i Hnot) as [-> ->].
      rewrite !list_lookup_insert_eq by lia. auto. }
    split; [apply list.NoDup_cons; auto|]. split; [exact Hdata'|].
    split; [exact Hlen'|]. split; [|split].
    + intros j Hj. apply not_elem_of_cons in Hj as [Hne Hj].
      destruct (Hout j Hj) as [-> ->].
      rewrite !list_lookup_insert_ne by auto. auto.
    + intros j Hj. apply elem_of_cons in Hj as [->|Hj].
      * split; [exact Hi|]. exists id. destruct Hslot. auto.
      * assert (Hne : i <> j) by (intros ->; contradiction).
        destruct (Hin j Hj) as (H0 & id' & Hj' & Hr' & Hf' & Hc').
        assert (Hid' : id' <> 0%N).
        { intros ->. apply Hf'. eapply list_elem_of_lookup_2. exact H0. }
        rewrite list_lookup_insert_ne in H0 by exact Hne.
        split; [exact H0|]. exists id'. split; [exact Hj'|]. split; [exact Hr'|].
        split; [|exact Hc'].
        intros Hmem. apply Hf'. apply list_elem_of_lookup in Hmem as [k Hk].
        apply list_elem_of_lookup. exists k.
        destruct (decide (i = k)) as [->|Hik]; [congruence|].
        rewrite list_lookup_insert_ne by exact Hik. exact Hk.
    + assert (Hold : forall j chunk_id, j ∈ idxs ->
                (fec_chunks enc').2 !! j = Some chunk_id -> chunk_id <> id).
      { intros j x Hj Hx ->. destruct (Hin j Hj) as (_ & id' & Hj' & _ & Hf' & _).
        assert (id' = id) by congruence. subst id'. apply Hf'.
        apply list_elem_of_lookup. exists i.
        apply list_lookup_insert_eq. exact Hii. }
      destruct Hslot as [Hsi _].
      intros j k x Hj Hk Hxj Hxk.
      apply elem_of_cons in Hj as [->|Hj]; apply elem_of_cons in Hk as [->|Hk].
      * reflexivity.
      * exfalso. apply (Hold k x Hk Hxk). congruence.
      * exfalso. apply (Hold j x Hj Hxj). congruence.
      * eapply Hdist; eassumption.
Qed.

End Encoder.
End encoder_more_facts.

(** X19.  The loop of [Send] that asserts [BuildChunk(i)] for every slot of
    a fresh table: when no assertion fails, the table holds pairwise
    distinct ids, each at or after the data chunk count and below
    [FEC_CHUNK_COUNT_MAX], with the encoding for its id beside it.  Each
    chunk with its id is valid input of [ProvideChunk] on a decoder for an
    object of the same size, and a fresh decoder that is given the whole
    table counts every chunk: none is taken for a duplicate. *)
Theorem BuildChunk_each_fills_the_table_with_distinct_ids
  (encode_chunk : list byte -> N -> list byte)
  (RandState : Type) (randrange : RandState -> N -> N * RandState)
  (id_attempts : nat) (fountain_solvable : nat -> list N -> bool)
  (dataIn : list byte) (n : nat) (r : RandState)
  (enc' : FECEncoder RandState) (cap0 : nat) (mode : MemoryUsageMode) :
  (forall r n, (0 < n)%N -> ((randrange r n).1 < n)%N) ->
  (forall id, length (encode_chunk dataIn id) = FEC_CHUNK_SIZE) ->
  0 < cap0 -> 0 < length dataIn ->
  (N.of_nat (DIV_CEIL (length dataIn) FEC_CHUNK_SIZE) < FEC_CHUNK_COUNT_MAX)%N ->
  BuildChunk_each encode_chunk randrange id_attempts
    (FECEncoder_new RandState dataIn n r) (seq 0 n) = Some enc' ->
  let chunks := (fec_chunks enc').1 in
  let ids := (fec_chunks enc').2 in
  let d0 := FECDecoder_new cap0 (length dataIn) mode in
  length ids = n /\
  NoDup ids /\
  (forall i chunk_id, ids !! i = Some chunk_id ->
     (N.of_nat (DIV_CEIL (length dataIn) FEC_CHUNK_SIZE) <= chunk_id
      < FEC_CHUNK_COUNT_MAX)%N /\
     chunks !! i = Some (encode_chunk dataIn chunk_id) /\
     chunk_input_valid d0 (encode_chunk dataIn chunk_id) chunk_id = true) /\
  GetChunksRcvd
    (decoder_run fountain_solvable d0 (zip_with CallProvideChunk chunks ids)).2
  = n.
Proof.
  intros Hrand Henc Hcap Hsize HD Hrun chunks ids d0.
  destruct (encoder_more_facts.BuildChunk_each_spec encode_chunk RandState
              randrange id_attempts Hrand (seq 0 n)
              (FECEncoder_new RandState dataIn n r) enc' HD
              ltac:(cbn; rewrite !length_replicate; reflexivity) Hrun)
    as (_ & Hdata & Hlen & Hout & Hin & Hdist).
  cbn [FECEncoder_new data fec_chunks fst snd encoder_data_chunks] in *.
  fold chunks ids in Hlen, Hout, Hin, Hdist.
  assert (Hn : length ids = n).
  { destruct (Nat.lt_trichotomy (length ids) n) as [Hlt|[Heq|Hgt]]; [|exact Heq|].
    - destruct (Hin (length ids)) as (_ & id & Hid & _);
        [apply elem_of_seq; lia|].
      apply lookup_lt_Some in Hid. lia.
    - destruct (Hout n) as [Hids _]; [rewrite elem_of_seq; lia|].
      assert (Hnone : replicate n 0%N !! n = None)
        by (apply lookup_replicate_None; lia).
      rewrite Hnone in Hids. apply lookup_ge_None in Hids. lia. }
  assert (Hslot : forall i chunk_id, ids !! i = Some chunk_id ->
    (N.of_nat (DIV_CEIL (length dataIn) FEC_CHUNK_SIZE) <= chunk_id
     < chunk_id_limit (DIV_CEIL (length dataIn) FEC_CHUNK_SIZE))%N /\
    chunks !! i = Some (encode_chunk dataIn chunk_id)).
  { intros i id Hi. pose proof (lookup_lt_Some _ _ _ Hi) as Hlt.
    destruct (Hin i) as (_ & id' & Hi' & Hrange & _ & Hc);
      [apply elem_of_seq; lia|].
    assert (id' = id) by congruence. subst id'. auto. }
  assert (Hvalid : forall i chunk_id, ids !! i = Some chunk_id ->
    chunk_input_valid d0 (encode_chunk dataIn chunk_id) chunk_id = true).
  { intros i id Hi. destruct (Hslot i id Hi) as [Hrange _].
    pose proof (encoder_facts.chunk_id_limit_le
                  (DIV_CEIL (length dataIn) FEC_CHUNK_SIZE)) as Hle.
    unfold chunk_input_valid. cbn [d0 FECDecoder_new chunk_count].
    rewrite Henc, Nat.eqb_refl, andb_true_r.
    apply andb_true_intro. split; [apply N.ltb_lt; lia|].
    unfold chunk_id_limit in Hrange.
    destruct (code_mode _); [apply N.ltb_lt; lia|reflexivity]. }
  assert (Hnd : NoDup ids).
  { apply NoDup_alt. intros i j id Hi Hj.
    apply (Hdist i j id); [apply elem_of_seq..|exact Hi|exact Hj].
    - apply lookup_lt_Some in Hi. lia.
    - apply lookup_lt_Some in Hj. lia. }
  split; [exact Hn|]. split; [exact Hnd|]. split.
  - intros i id Hi. destruct (Hslot i id Hi) as [Hrange Hc].
    pose proof (encoder_facts.chunk_id_limit_le
                  (DIV_CEIL (length dataIn) FEC_CHUNK_SIZE)) as Hle.
    split; [lia|]. split; [exact Hc|]. exact (Hvalid i id Hi).
  - assert (Hchunks : chunks = encode_chunk dataIn <$> ids).
    { apply list_eq. intros i. rewrite list_lookup_fmap.
      destruct (ids !! i) as [id|] eqn:Hi.
      - destruct (Hslot i id Hi) as [_ ->]. reflexivity.
      - apply lookup_ge_None in Hi. apply lookup_ge_None. lia. }
    replace (zip_with CallProvideChunk chunks ids)
      with ((fun id => CallProvideChunk (encode_chunk dataIn id) id) <$> ids).
    2: { rewrite Hchunks. clear. induction ids as [|id ids IH]; [reflexivity|].
         cbn. rewrite IH. reflexivity. }
    unfold GetChunksRcvd. unfold d0 in *.
    rewrite decoder_more_facts.chunks_recvd_new by assumption.
    rewrite decoder_more_facts.provided_ids_valid.
    + rewrite <- Hn. apply Permutation_length.
      apply NoDup_Permutation; [apply NoDup_remove_dups|exact Hnd|].
      apply elem_of_remove_dups.
    + intros id Hid. apply list_elem_of_lookup in Hid as [i Hi].
      exact (Hvalid i id Hi).
Qed.

Lemma BuildChunk_each_fills_the_table_with_distinct_ids_witness :
  let encode := fun (d : list byte) (id : N) => resize FEC_CHUNK_SIZE x00 (take 8 d) in
  let dataIn := replicate 2000 x2a in
  let d0 := FECDecoder_new 2 (length dataIn) USE_MEMORY in
  exists enc',
    BuildChunk_each encode counter_randrange 8
      (FECEncoder_new N dataIn 4 0%N) (seq 0 4) = Some enc' /\
    (fec_chunks enc').2 = [2; 3; 4; 5]%N /\
    length (fec_chunks enc').2 = 4 /\
    NoDup (fec_chunks enc').2 /\
    (forall i chunk_id, (fec_chunks enc').2 !! i = Some chunk_id ->
       (N.of_nat (DIV_CEIL (length dataIn) FEC_CHUNK_SIZE) <= chunk_id
        < FEC_CHUNK_COUNT_MAX)%N /\
       (fec_chunks enc').1 !! i = Some (encode dataIn chunk_id) /\
       chunk_input_valid d0 (encode dataIn chunk_id) chunk_id = true) /\
    GetChunksRcvd
      (decoder_run (fun _ _ => true) d0
         (zip_with CallProvideChunk (fec_chunks enc').1 (fec_chunks enc').2)).2
    = 4.
Proof.
  intros encode dataIn d0. eexists. split; [vm_compute; reflexivity|].
  split; [reflexivity|].
  apply (BuildChunk_each_fills_the_table_with_distinct_ids encode N
           counter_randrange 8 (fun _ _ => true) dataIn 4 0%N _ 2 USE_MEMORY).
  - intros r n Hn. unfold counter_randrange. cbn [fst]. apply N.mod_lt. lia.
  - intros id. apply length_resize.
  - lia.
  - unfold dataIn. rewrite length_replicate. lia.
  - vm_compute. reflexivity.
  - vm_compute. reflexivity.
Defined.

(** X20.  The data chunks that the first loop of [Send] hands over pass the
    assertion of [Receiver::RecvHeaderChunk] on [ProvideChunk]: after
    [InitHeader(header_size)], and for a header of at most
    [FEC_CHUNK_COUNT_MAX] chunks, the run of the calls of the loop reaches
    its end whatever the draws are, provided the header that the receiver
    reads is accepted. *)
Theorem Send_data_chunks_pass_RecvHeaderChunk
  (PartialBlock : Type)
  (InitData : PartialBlock -> list byte -> option PartialBlock)
  (GetDataPtr : FECDecoder -> N -> list byte * FECDecoder)
  (fountain_solvable : nat -> list N -> bool) (cap0 : nat) (size_bits : Z)
  (g : nat -> N) (header_data : list byte) (r : Receiver.t PartialBlock) :
  (forall d id, FEC_CHUNK_SIZE <= length (GetDataPtr d id).1) ->
  (forall pb bytes, is_Some (InitData pb bytes)) ->
  (N.of_nat (DIV_CEIL (length header_data) FEC_CHUNK_SIZE)
   <= FEC_CHUNK_COUNT_MAX)%N ->
  exists calls r',
    Send_header_data_chunks g header_data = Some calls /\
    Receiver.RecvHeaderChunk_run PartialBlock InitData GetDataPtr
      fountain_solvable size_bits
      (Receiver.InitHeader PartialBlock cap0 size_bits r (length header_data))
      calls = Some r'.
Proof.
  intros Hw Hinit HD.
  destruct (bench_facts.Send_header_data_chunks_calls g header_data)
    as (calls & Hcalls & Hall).
  exists calls.
  destruct (receiver_facts.RecvHeaderChunk_run_valid PartialBlock InitData
              GetDataPtr fountain_solvable size_bits calls
              (Receiver.InitHeader PartialBlock cap0 size_bits r
                 (length header_data)) Hw Hinit) as [r' Hr'].
  - eapply list.Forall_impl; [exact Hall|]. intros [chunk idx] [Hidx Hlen].
    cbn [fst snd] in *. unfold chunk_input_valid.
    cbn [Receiver.InitHeader Receiver.decoder FECDecoder_new chunk_count].
    set (D := DIV_CEIL (length header_data) FEC_CHUNK_SIZE) in *.
    rewrite Hlen, Nat.eqb_refl, andb_true_r.
    assert (Hmax : FEC_CHUNK_COUNT_MAX = 16777216%N) by reflexivity.
    assert (Hid : Receiver.uint32_of_size_t idx = N.of_nat idx).
    { unfold Receiver.uint32_of_size_t. apply N.mod_small.
      change (2 ^ 32)%N with 4294967296%N. lia. }
    rewrite Hid. apply andb_true_intro. split; [apply N.ltb_lt; lia|].
    unfold code_mode. destruct (Nat.leb_spec D CM256_MAX_CHUNKS) as [Hle|_];
      [|reflexivity].
    unfold CM256_MAX_CHUNKS in Hle. apply N.ltb_lt. lia.
  - exists r'. split; [exact Hcalls|exact Hr'].
Qed.

Lemma Send_data_chunks_pass_RecvHeaderChunk_witness :
  let GetDataPtr := fun (d : FECDecoder) (_ : N) => (replicate FEC_CHUNK_SIZE x07, d) in
  let InitData := fun (pb : Receiver.table) (bytes : list byte) => Some pb in
  let g := fun i : nat => N.of_nat (i + 4) in
  let header_data := replicate 3000 x2a in
  let r := {| Receiver.decoder := FECDecoder_new 4 0 USE_MEMORY;
              Receiver.partialBlock := Receiver.table_empty;
              Receiver.header_done := false; Receiver.block_done := false;
              Receiver.expecting_full_block := true;
              Receiver.header_chunk_count := 0; Receiver.block_size := 0;
              Receiver.total_chunks_consumed := 0;
              Receiver.total_chunks_in_mempool := 0;
              Receiver.non_fec_chunks := 0 |} in
  (fun calls => calls.*2) <$> Send_header_data_chunks g header_data
  = Some [1; 2] /\
  exists calls r',
    Send_header_data_chunks g header_data = Some calls /\
    Receiver.RecvHeaderChunk_run Receiver.table InitData GetDataPtr
      (fun _ _ => true) 64
      (Receiver.InitHeader Receiver.table 4 64 r (length header_data))
      calls = Some r'.
Proof.
  intros GetDataPtr InitData g header_data r.
  split; [vm_compute; reflexivity|].
  apply (Send_data_chunks_pass_RecvHeaderChunk Receiver.table InitData
           GetDataPtr (fun _ _ => true) 4 64 g header_data r).
  - intros d id. cbn [fst GetDataPtr]. rewrite length_replicate. lia.
  - intros pb bytes. exists pb. reflexivity.
  - vm_compute. discriminate.
Defined.

(** ** The ring buffer as the tests use it *)

Module ring_buffer_more_facts.
Import RingBuffer.
Section Elem.
Variable T : Type.

Lemma length_read_from (buf : list T) n : forall i,
  i < length buf -> length (read_from buf i n) = n.
Proof.
  induction n as [|n IH]; intros i Hi; [reflexivity|].
  rewrite ring_buffer_facts.read_from_S.
  destruct (lookup_lt_is_Some_2 buf i Hi) as [x ->]. cbn [length].
  rewrite IH; [reflexivity|]. apply Nat.mod_upper_bound. lia.
Qed.

Lemma length_contents (rb : t T) : wf rb -> length (contents rb) = occupancy rb.
Proof. intros Hwf. apply length_read_from, Hwf. Qed.

(** A write into a buffer that is not full appends its element. *)
Lemma step_write (rb : t T) v :
  wf rb -> blocked_write rb = None -> occupancy rb < depth rb ->
  let rb' := step rb (CallWriteElement (fun _ => v)) in
  wf rb' /\ blocked_write rb' = None /\ depth rb' = depth rb /\
  contents rb' = contents rb ++ [v] /\
  stats_enabled rb' = stats_enabled rb /\ stats rb' = stats rb.
Proof.
  intros Hwf Hbw Hroom rb'. pose proof Hwf as [Hd Hr Hw Ho Hb].
  assert (Hrb' : rb' = commit_write rb (fun _ => v)).
  { subst rb'. cbn [step]. rewrite Hbw. unfold WriteElement, IsFull.
    destruct (Nat.eqb_spec (occupancy rb) (depth rb)); [lia|reflexivity]. }
  rewrite Hrb'. split; [apply ring_buffer_facts.commit_write_wf; assumption|].
  split; [reflexivity|]. split; [unfold depth; cbn; apply length_alter|].
  destruct (ring_buffer_facts.contents_commit_write rb (fun _ => v) Hr Hroom Hw)
    as (x & _ & Hc).
  split; [exact Hc|]. split; reflexivity.
Qed.

(** A read that is confirmed takes the oldest element. *)
Lemma read_confirm (rb : t T) bytes :
  wf rb -> blocked_write rb = None ->
  let rb' := (ConfirmRead (GetNextRead rb).2 bytes).2 in
  (GetNextRead rb).1 = head (contents rb) /\
  wf rb' /\ blocked_write rb' = None /\ depth rb' = depth rb /\
  contents rb' = tail (contents rb) /\
  stats_enabled rb' = stats_enabled rb /\
  stats rb' = if IsEmpty rb then stats rb else count_read T rb bytes.
Proof.
  intros Hwf Hbw rb'.
  split; [apply ring_buffer_facts.GetNextRead_front|].
  pose proof (ring_buffer_facts.step_wf rb CallGetNextRead Hwf) as Hwf1.
  pose proof (ring_buffer_facts.contents_step_peek rb CallGetNextRead eq_refl) as Hc1.
  destruct (ring_buffer_facts.step_peek rb CallGetNextRead eq_refl)
    as (_ & _ & _ & Ho1 & Hb1).
  cbn [step] in Hwf1, Hc1, Ho1, Hb1.
  pose proof (ring_buffer_facts.step_wf _ (CallConfirmRead bytes) Hwf1) as Hwf2.
  pose proof (ring_buffer_facts.contents_ConfirmRead _ bytes Hwf1) as Hc2.
  rewrite Hb1, Hbw, Hc1 in Hc2. cbn [step] in Hwf2.
  split; [exact Hwf2|]. subst rb'.
  unfold ConfirmRead in *. unfold IsEmpty in *. rewrite Ho1, Hb1, Hbw in *.
  assert (Hst : stats_enabled (GetNextRead rb).2 = stats_enabled rb /\
                stats (GetNextRead rb).2 = stats rb /\
                depth (GetNextRead rb).2 = depth rb).
  { unfold GetNextRead. destruct (IsEmpty rb); auto. }
  destruct Hst as (Hse & Hs & Hdp).
  destruct (occupancy rb =? 0); cbn [snd] in *.
  - auto.
  - split; [reflexivity|]. split; [exact Hdp|]. split; [exact Hc2|].
    cbn. split; [exact Hse|]. unfold count_read. rewrite Hse, Hs. reflexivity.
Qed.

(** The consumer reads the elements of the queue, oldest first. *)
Lemma drain_spec n bytes : forall rb : t T,
  wf rb -> blocked_write rb = None -> n <= occupancy rb ->
  (drain rb n bytes).1 = Some <$> take n (contents rb) /\
  wf (drain rb n bytes).2 /\ blocked_write (drain rb n bytes).2 = None /\
  depth (drain rb n bytes).2 = depth rb /\
  contents (drain rb n bytes).2 = drop n (contents rb).
Proof.
  induction n as [|n IH]; intros rb Hwf Hbw Hn; [cbn; auto|].
  destruct (read_confirm rb bytes Hwf Hbw) as (Hx & Hwf' & Hbw' & Hd' & Hc' & _).
  pose proof (length_contents rb Hwf) as Hlen.
  pose proof (length_contents _ Hwf') as Hlen'.
  cbn [drain]. destruct (GetNextRead rb) as [x rb1]. cbn [fst snd] in *.
  destruct (contents rb) as [|y ys] eqn:Hc; [cbn in Hlen; lia|].
  cbn [head tail length] in *. rewrite Hc' in Hlen'.
  destruct (IH _ Hwf' Hbw' ltac:(lia)) as (Hxs & Hwf2 & Hbw2 & Hd2 & Hc2).
  destruct (drain (ConfirmRead rb1 bytes).2 n bytes) as [xs rb3].
  cbn [fst snd] in *. rewrite Hc' in Hxs, Hc2.
  rewrite Hx, Hxs. cbn. split; [reflexivity|]. split; [exact Hwf2|].
  split; [exact Hbw2|]. split; [congruence|exact Hc2].
Qed.

(** The writes of a producer into a buffer with room for them. *)
Lemma run_writes (vs : list T) : forall rb : t T,
  wf rb -> blocked_write rb = None ->
  occupancy rb + length vs <= depth rb ->
  let rb' := run rb (map (fun v => CallWriteElement (fun _ => v)) vs) in
  wf rb' /\ blocked_write rb' = None /\ depth rb' = depth rb /\
  contents rb' = contents rb ++ vs /\
  stats_enabled rb' = stats_enabled rb /\ stats rb' = stats rb.
Proof.
  induction vs as [|v vs IH]; intros rb Hwf Hbw Hroom.
  - cbn. rewrite app_nil_r. split; [exact Hwf|]. split; [exact Hbw|]. auto.
  - cbn [length] in Hroom.
    destruct (step_write rb v Hwf Hbw ltac:(lia))
      as (Hwf1 & Hbw1 & Hd1 & Hc1 & Hse1 & Hs1).
    pose proof (length_contents rb Hwf) as Hl.
    pose proof (length_contents _ Hwf1) as Hl1.
    rewrite Hc1, length_app in Hl1. cbn [length] in Hl1.
    destruct (IH _ Hwf1 Hbw1 ltac:(lia)) as (Hwf2 & Hbw2 & Hd2 & Hc2 & Hse2 & Hs2).
    change (run rb (map (fun v0 => CallWriteElement (fun _ => v0)) (v :: vs)))
      with (run (step rb (CallWriteElement (fun _ => v)))
              (map (fun v0 => CallWriteElement (fun _ => v0)) vs)).
    cbn zeta. split; [exact Hwf2|]. split; [exact Hbw2|].
    split; [congruence|]. split; [rewrite Hc2, Hc1, <- app_assoc; reflexivity|].
    split; congruence.
Qed.

Lemma depth_step (rb : t T) c : depth (step rb c) = depth rb.
Proof.
  unfold depth. destruct c as [fill_fn| | |bytes| |]; cbn [step].
  - destruct (blocked_write rb); [reflexivity|]. unfold WriteElement.
    destruct (IsFull rb); cbn; [reflexivity|apply length_alter].
  - unfold AbortWrite. destruct (blocked_write rb); reflexivity.
  - unfold GetNextRead. destruct (IsEmpty rb); reflexivity.
  - unfold ConfirmRead. destruct (IsEmpty rb); [reflexivity|].
    destruct (blocked_write rb); cbn; [apply length_alter|reflexivity].
  - reflexivity.
  - reflexivity.
Qed.

(** While the statistics are not enabled the counters stay where they
    are. *)
Lemma stats_disabled_step (rb : t T) c :
  c <> CallEnableStats -> stats_enabled rb = false ->
  stats_enabled (step rb c) = false /\ stats (step rb c) = stats rb.
Proof.
  intros Hc Hse. destruct c as [fill_fn| | |bytes| |]; cbn [step].
  - destruct (blocked_write rb); [auto|]. unfold WriteElement.
    destruct (IsFull rb); cbn; auto.
  - unfold AbortWrite. destruct (blocked_write rb); cbn; auto.
  - unfold GetNextRead. destruct (IsEmpty rb); cbn; auto.
  - unfold ConfirmRead. destruct (IsEmpty rb); [auto|].
    destruct (blocked_write rb); cbn; unfold count_read; rewrite Hse; auto.
  - auto.
  - congruence.
Qed.

(** One round of the loop of [test_ringbuffer_stats] on an empty buffer. *)
Lemma write_read_round (rb : t T) v bytes :
  wf rb -> blocked_write rb = None -> occupancy rb = 0 ->
  stats_enabled rb = true ->
  let rb' := run rb [CallWriteElement (fun _ => v); CallGetNextRead;
                     CallConfirmRead bytes] in
  wf rb' /\ blocked_write rb' = None /\ occupancy rb' = 0 /\
  stats_enabled rb' = true /\
  rd_count (stats rb') = S (rd_count (stats rb)) /\
  rd_bytes (stats rb') = rd_bytes (stats rb) + bytes.
Proof.
  intros Hwf Hbw Ho Hse rb'. pose proof Hwf as [Hd _ _ _ _].
  destruct (step_write rb v Hwf Hbw ltac:(lia))
    as (Hwf1 & Hbw1 & Hd1 & Hc1 & Hse1 & Hs1).
  destruct (read_confirm _ bytes Hwf1 Hbw1)
    as (_ & Hwf2 & Hbw2 & Hd2 & Hc2 & Hse2 & Hs2).
  pose proof (length_contents rb Hwf) as Hl.
  pose proof (length_contents _ Hwf1) as Hl1.
  pose proof (length_contents _ Hwf2) as Hl2.
  destruct (contents rb) as [|? ?] eqn:Hc; [|cbn in Hl; lia].
  rewrite Hc2, Hc1 in Hl2. rewrite Hc1 in Hl1.
  cbn [app tail length] in Hl1, Hl2.
  unfold IsEmpty in Hs2. rewrite <- Hl1 in Hs2. cbn [Nat.eqb] in Hs2.
  unfold count_read in Hs2. rewrite Hse1, Hse, Hs1 in Hs2.
  subst rb'.
  change (run rb [CallWriteElement (fun _ => v); CallGetNextRead;
                  CallConfirmRead bytes])
    with (ConfirmRead (GetNextRead (step rb (CallWriteElement (fun _ => v)))).2
            bytes).2.
  split; [exact Hwf2|]. split; [exact Hbw2|]. split; [auto|].
  split; [congruence|]. rewrite Hs2. split; reflexivity.
Qed.

End Elem.
End ring_buffer_more_facts.

(** X21.  First in, first out, for any depth and any elements: after a
    producer wrote the elements [vs], no more than the buffer holds, a
    consumer that reads and confirms as many elements gets [vs] in the
    order written and leaves the buffer empty; the buffer is empty before
    the writes, and not empty after them unless nothing was written. *)
Theorem RingBuffer_reads_return_the_writes_in_order
  (T : Type) (dflt : T) (depth : nat) (vs : list T) (bytes : nat) :
  0 < depth -> length vs <= depth ->
  let b := RingBuffer.run (RingBuffer.create dflt depth)
             (map (fun v => RingBuffer.CallWriteElement (fun _ => v)) vs) in
  let r := drain b (length vs) bytes in
  RingBuffer.IsEmpty (RingBuffer.create dflt depth) = true /\
  RingBuffer.IsEmpty b = (length vs =? 0) /\
  r.1 = Some <$> vs /\
  RingBuffer.IsEmpty r.2 = true.
Proof.
  intros Hd Hlen b r.
  pose proof (ring_buffer_facts.create_wf dflt depth Hd) as Hwf0.
  destruct (ring_buffer_more_facts.run_writes T vs (RingBuffer.create dflt depth)
              Hwf0 eq_refl)
    as (Hwf & Hbw & _ & Hc & _).
  { cbn. unfold RingBuffer.depth. cbn. rewrite length_replicate. lia. }
  fold b in Hwf, Hbw, Hc. cbn [RingBuffer.contents RingBuffer.create] in Hc.
  change (RingBuffer.contents (RingBuffer.create dflt depth)) with (@nil T) in Hc.
  pose proof (ring_buffer_more_facts.length_contents T b Hwf) as Hocc.
  rewrite Hc in Hocc. cbn [app] in Hc, Hocc.
  destruct (ring_buffer_more_facts.drain_spec T (length vs) bytes b Hwf Hbw
              ltac:(lia)) as (Hr & Hwf' & _ & _ & Hc').
  fold r in Hr, Hwf', Hc'.
  pose proof (ring_buffer_more_facts.length_contents T r.2 Hwf') as Hocc'.
  rewrite Hc', Hc, drop_all in Hocc'. rewrite Hc, firstn_all in Hr.
  split; [reflexivity|]. unfold RingBuffer.IsEmpty. rewrite <- Hocc, <- Hocc'.
  auto.
Qed.

Lemma RingBuffer_reads_return_the_writes_in_order_witness :
  let vs := [41; 7; 7; 19] in
  let b := RingBuffer.run (RingBuffer.create 0 4)
             (map (fun v => RingBuffer.CallWriteElement (fun _ => v)) vs) in
  let r := drain b (length vs) 4 in
  RingBuffer.IsEmpty (RingBuffer.create 0 4) = true /\
  RingBuffer.IsEmpty b = (length vs =? 0) /\
  r.1 = Some <$> vs /\
  RingBuffer.IsEmpty r.2 = true.
Proof.
  apply (RingBuffer_reads_return_the_writes_in_order nat 0 4 [41; 7; 7; 19] 4).
  - lia.
  - cbn. lia.
Defined.

(** X22.  Overflow control, for any depth and any elements: a producer
    that writes one element more than the buffer holds fills the buffer
    and stays blocked in its last [WriteElement], which has written
    nothing.  The first confirmed read returns the oldest element and
    lets the blocked write complete with [true], the buffer being full
    again; after a second confirmed read the buffer is no longer full.  No
    element is lost or overwritten: the queue holds the elements written,
    in order, without those read. *)
Theorem RingBuffer_blocked_write_completes_after_a_read
  (T : Type) (dflt : T) (depth : nat) (vs : list T) (v : T) (bytes : nat) :
  0 < depth -> length vs = depth ->
  let full := RingBuffer.run (RingBuffer.create dflt depth)
                (map (fun v => RingBuffer.CallWriteElement (fun _ => v))
                   (vs ++ [v])) in
  let read1 := RingBuffer.GetNextRead full in
  let confirm1 := RingBuffer.ConfirmRead read1.2 bytes in
  let read2 := RingBuffer.GetNextRead confirm1.2 in
  let confirm2 := RingBuffer.ConfirmRead read2.2 bytes in
  (RingBuffer.IsFull full = true /\
   is_Some (RingBuffer.blocked_write full) /\
   RingBuffer.contents full = vs) /\
  (read1.1 = head vs /\
   confirm1.1 = Some true /\
   RingBuffer.blocked_write confirm1.2 = None /\
   RingBuffer.IsFull confirm1.2 = true /\
   RingBuffer.contents confirm1.2 = tail vs ++ [v]) /\
  (read2.1 = head (tail vs ++ [v]) /\
   RingBuffer.IsFull confirm2.2 = false /\
   RingBuffer.contents confirm2.2 = tail (tail vs ++ [v])).
Proof.
  intros Hd Hlen full read1 confirm1 read2 confirm2.
  pose proof (ring_buffer_facts.create_wf dflt depth Hd) as Hwf0.
  destruct (ring_buffer_more_facts.run_writes T vs (RingBuffer.create dflt depth)
              Hwf0 eq_refl)
    as (Hwf & Hbw & Hdp & Hc & _).
  { cbn. unfold RingBuffer.depth. cbn. rewrite length_replicate. lia. }
  change (RingBuffer.contents (RingBuffer.create dflt depth)) with (@nil T) in Hc.
  cbn [app] in Hc.
  set (b := RingBuffer.run (RingBuffer.create dflt depth)
              (map (fun v => RingBuffer.CallWriteElement (fun _ => v)) vs)) in *.
  assert (Hdepth : RingBuffer.depth b = depth).
  { rewrite Hdp. unfold RingBuffer.depth. cbn. apply length_replicate. }
  pose proof (ring_buffer_more_facts.length_contents T b Hwf) as Hocc.
  rewrite Hc in Hocc.
  assert (Hfull : full = RingBuffer.set_blocked_write T b (Some (fun _ => v))).
  { subst full. unfold RingBuffer.run. rewrite map_app, fold_left_app.
    fold (RingBuffer.run (RingBuffer.create dflt depth)
            (map (fun v => RingBuffer.CallWriteElement (fun _ => v)) vs)).
    fold b. cbn [map fold_left RingBuffer.step]. rewrite Hbw.
    unfold RingBuffer.WriteElement, RingBuffer.IsFull.
    rewrite <- Hocc, Hlen, Hdepth, Nat.eqb_refl. reflexivity. }
  assert (Hwff : RingBuffer.wf full).
  { rewrite Hfull. destruct Hwf as [? ? ? ? ?]. split; cbn; auto. intros _.
    change (RingBuffer.occupancy b = RingBuffer.depth b). lia. }
  assert (Hcf : RingBuffer.contents full = vs) by (rewrite Hfull; exact Hc).
  assert (Hof : RingBuffer.occupancy full = depth)
    by (rewrite Hfull; cbn; lia).
  assert (Hdf : RingBuffer.depth full = depth) by (rewrite Hfull; exact Hdepth).
  split.
  { split; [|split; [|exact Hcf]].
    - unfold RingBuffer.IsFull. rewrite Hof, Hdf. apply Nat.eqb_refl.
    - rewrite Hfull. cbn. eauto. }
  pose proof (ring_buffer_facts.step_wf full RingBuffer.CallGetNextRead Hwff)
    as Hwf1.
  pose proof (ring_buffer_facts.contents_step_peek full RingBuffer.CallGetNextRead
                eq_refl) as Hc1.
  destruct (ring_buffer_facts.step_peek full RingBuffer.CallGetNextRead eq_refl)
    as (_ & _ & _ & Ho1 & Hb1).
  cbn [RingBuffer.step] in Hwf1, Hc1, Ho1, Hb1. fold read1 in Hwf1, Hc1, Ho1, Hb1.
  pose proof (ring_buffer_facts.step_wf read1.2 (RingBuffer.CallConfirmRead bytes)
                Hwf1) as Hwf2.
  pose proof (ring_buffer_facts.contents_ConfirmRead read1.2 bytes Hwf1) as Hc2.
  pose proof (ring_buffer_more_facts.depth_step T read1.2
                (RingBuffer.CallConfirmRead bytes)) as Hd2.
  pose proof (ring_buffer_more_facts.depth_step T full RingBuffer.CallGetNextRead)
    as Hd1.
  cbn [RingBuffer.step] in Hwf2, Hd2, Hd1. fold read1 in Hd1.
  fold confirm1 in Hwf2, Hd2, Hc2.
  assert (Hbf : RingBuffer.blocked_write read1.2 = Some (fun _ => v))
    by (rewrite Hb1, Hfull; reflexivity).
  rewrite Hbf, Hc1, Hcf in Hc2. destruct Hc2 as [x Hc2].
  assert (Hres : confirm1.1 = Some true /\
                 RingBuffer.blocked_write confirm1.2 = None).
  { subst confirm1. unfold RingBuffer.ConfirmRead, RingBuffer.IsEmpty.
    rewrite Ho1, Hof, Hbf. destruct depth; [lia|]. cbn. auto. }
  destruct Hres as [Hres Hb2].
  pose proof (ring_buffer_more_facts.length_contents T confirm1.2 Hwf2) as Ho2.
  rewrite Hc2, length_app in Ho2. cbn [length] in Ho2.
  assert (Hlt : length (tail vs) = depth - 1)
    by (destruct vs; cbn in *; lia).
  split.
  { split; [subst read1; rewrite ring_buffer_facts.GetNextRead_front, Hcf;
            reflexivity|].
    split; [exact Hres|]. split; [exact Hb2|]. split; [|exact Hc2].
    unfold RingBuffer.IsFull. rewrite <- Ho2, Hd2, Hd1, Hdf, Hlt.
    apply Nat.eqb_eq. lia. }
  destruct (ring_buffer_more_facts.read_confirm T confirm1.2 bytes Hwf2 Hb2)
    as (Hx & Hwf3 & _ & Hd3 & Hc3 & _).
  fold read2 in Hx, Hwf3, Hd3, Hc3. fold confirm2 in Hwf3, Hd3, Hc3.
  rewrite Hc2 in Hx, Hc3.
  split; [exact Hx|]. split; [|exact Hc3].
  pose proof (ring_buffer_more_facts.length_contents T confirm2.2 Hwf3) as Ho3.
  rewrite Hc3 in Ho3.
  assert (Hl3 : length (tail (tail vs ++ [v])) = depth - 1).
  { destruct vs as [|a [|a' vs']]; cbn in *; rewrite ?length_app; cbn; lia. }
  unfold RingBuffer.IsFull. rewrite <- Ho3, Hd3, Hd2, Hd1, Hdf, Hl3.
  apply Nat.eqb_neq. lia.
Qed.
